(** * A voice-note bot: record store, text stages and record listing

    Shallow embedding of [main.py].  Everything the bot persists lives in
    one file, [data.json], which every store operation re-reads and
    rewrites; the embedding therefore models the file as bytes and the
    operations as state passing over it, with Python exceptions as an
    explicit outcome.

    - Python [str] is a list of code points ([pystr]); [len] is [length]
      and [text[:n]] is [firstn n].
    - The values [json.load] yields are the inductive [pyval]; a [dict]
      is an association list in insertion order.
    - [open(.., encoding="utf-8")], [json.load] and [json.dump] are
      library code: they are modelled after CPython's [codecs] and [json]
      modules ([utf8_decode], [loads], [iterencode]).
    - Whisper, the summarizer, the download and the clock are inputs of
      the handlers; so is python-docx, which is seen through the texts of
      the paragraphs of a document.

    Limits of the model: integers are unbounded (CPython's cap on the
    digits of an integer literal is not modelled), the interpreter's
    recursion limit is never met, and a document with a float literal is
    outside the embedding.  The platform is POSIX, and [data.json] can
    always be opened for reading and for writing.  The messages a handler
    sends after its last store operation are not modelled. *)

From Stdlib.Strings Require Import String Ascii Byte.
From Stdlib Require Import Decimal DecimalFacts DecimalPos DecimalZ.
From Stdlib Require Import ZArith Bool Lia List Sorted Permutation.
Import ListNotations.
Local Open Scope Z_scope.

Set Implicit Arguments.

(** ** Text and bytes *)

Definition pystr := list Z.

Definition Z_of_byte (b : byte) : Z := Z.of_N (Byte.to_N b).

Definition byte_of_Z (z : Z) : byte :=
  match Byte.of_N (Z.to_N z) with
  | Some b => b
  | None => x00
  end.

(** A Unicode scalar value: what UTF-8 can carry. *)
Definition scalar (c : Z) : bool :=
  (0 <=? c) && (c <? 1114112) && negb ((55296 <=? c) && (c <=? 57343)).

Definition valid_text (s : pystr) : Prop := Forall (fun c => scalar c = true) s.

(** The [utf-8] codec, strict error handler. *)
Definition utf8_encode_char (c : Z) : option (list byte) :=
  if negb (scalar c) then None
  else if c <? 128 then Some [byte_of_Z c]
  else if c <? 2048 then
    Some [byte_of_Z (192 + c / 64); byte_of_Z (128 + c mod 64)]
  else if c <? 65536 then
    Some [byte_of_Z (224 + c / 4096); byte_of_Z (128 + (c / 64) mod 64);
          byte_of_Z (128 + c mod 64)]
  else
    Some [byte_of_Z (240 + c / 262144); byte_of_Z (128 + (c / 4096) mod 64);
          byte_of_Z (128 + (c / 64) mod 64); byte_of_Z (128 + c mod 64)].

Fixpoint utf8_encode (s : pystr) : option (list byte) :=
  match s with
  | [] => Some []
  | c :: s' =>
      match utf8_encode_char c, utf8_encode s' with
      | Some b, Some bs => Some (b ++ bs)
      | _, _ => None
      end
  end.

Definition is_cont (b : byte) : bool :=
  (128 <=? Z_of_byte b) && (Z_of_byte b <? 192).

Definition cont (b : byte) : Z := Z_of_byte b - 128.

Definition cons_opt (c : Z) (r : option pystr) : option pystr :=
  match r with
  | Some s => Some (c :: s)
  | None => None
  end.

(** Overlong forms, surrogates and code points past U+10FFFF are
    rejected, as are stray and missing continuation bytes. *)
Fixpoint utf8_decode (bs : list byte) : option pystr :=
  match bs with
  | [] => Some []
  | b0 :: t =>
      let x := Z_of_byte b0 in
      if x <? 128 then cons_opt x (utf8_decode t)
      else if x <? 192 then None
      else if x <? 224 then
        match t with
        | b1 :: t1 =>
            let c := (x - 192) * 64 + cont b1 in
            if is_cont b1 && (128 <=? c) then cons_opt c (utf8_decode t1)
            else None
        | _ => None
        end
      else if x <? 240 then
        match t with
        | b1 :: b2 :: t2 =>
            let c := (x - 224) * 4096 + cont b1 * 64 + cont b2 in
            if is_cont b1 && is_cont b2 && (2048 <=? c) && scalar c
            then cons_opt c (utf8_decode t2)
            else None
        | _ => None
        end
      else if x <? 248 then
        match t with
        | b1 :: b2 :: b3 :: t3 =>
            let c := (x - 240) * 262144 + cont b1 * 4096 + cont b2 * 64 + cont b3 in
            if is_cont b1 && is_cont b2 && is_cont b3 && (65536 <=? c) && scalar c
            then cons_opt c (utf8_decode t3)
            else None
        | _ => None
        end
      else None
  end.

(** String literals of this file are UTF-8 bytes. *)
Definition lit (s : string) : pystr :=
  match utf8_decode (list_byte_of_string s) with
  | Some t => t
  | None => []
  end.

(** ** JSON values *)

(** What [json.load] builds, floats apart: the store never holds one, and
    a document with a float literal is outside this embedding (the scanner
    reports [FloatSeen] and no theorem speaks about such a file). *)
#[warnings="-register-all"]
Inductive pyval : Type :=
| PNone
| PBool (b : bool)
| PInt (z : Z)
| PStr (s : pystr)
| PList (l : list pyval)
| PDict (d : list (pystr * pyval)).

Fixpoint str_eqb (a b : pystr) : bool :=
  match a, b with
  | [], [] => true
  | x :: a', y :: b' => (x =? y) && str_eqb a' b'
  | _, _ => false
  end.

(** [d[k] = v]: an existing key keeps its place, a new one goes last. *)
Fixpoint dict_set (d : list (pystr * pyval)) (k : pystr) (v : pyval)
  : list (pystr * pyval) :=
  match d with
  | [] => [(k, v)]
  | (k', v') :: d' =>
      if str_eqb k k' then (k', v) :: d' else (k', v') :: dict_set d' k v
  end.

Fixpoint dict_get (d : list (pystr * pyval)) (k : pystr) : option pyval :=
  match d with
  | [] => None
  | (k', v') :: d' => if str_eqb k k' then Some v' else dict_get d' k
  end.

Definition dict_of_pairs (pairs : list (pystr * pyval)) : list (pystr * pyval) :=
  fold_left (fun d kv => dict_set d (fst kv) (snd kv)) pairs [].

(** ** [json.dump(data, f, indent=2, ensure_ascii=False)] *)

Definition hexdigit (n : Z) : Z := if n <? 10 then 48 + n else 87 + n.

(** [ESCAPE_DCT]: quote, backslash and the control characters. *)
Definition escape_char (c : Z) : pystr :=
  if c =? 34 then [92; 34]
  else if c =? 92 then [92; 92]
  else if c =? 10 then [92; 110]
  else if c =? 13 then [92; 114]
  else if c =? 9 then [92; 116]
  else if c =? 8 then [92; 98]
  else if c =? 12 then [92; 102]
  else if (0 <=? c) && (c <? 32)
       then [92; 117; 48; 48; hexdigit (c / 16); hexdigit (c mod 16)]
  else [c].

Definition encode_basestring (s : pystr) : pystr :=
  34 :: flat_map escape_char s ++ [34].

Fixpoint uint_chars (u : uint) : pystr :=
  match u with
  | Nil => []
  | D0 u' => 48 :: uint_chars u'
  | D1 u' => 49 :: uint_chars u'
  | D2 u' => 50 :: uint_chars u'
  | D3 u' => 51 :: uint_chars u'
  | D4 u' => 52 :: uint_chars u'
  | D5 u' => 53 :: uint_chars u'
  | D6 u' => 54 :: uint_chars u'
  | D7 u' => 55 :: uint_chars u'
  | D8 u' => 56 :: uint_chars u'
  | D9 u' => 57 :: uint_chars u'
  end.

(** [int.__repr__], which is also [str(n)] for an [int]. *)
Definition intstr (z : Z) : pystr :=
  match Z.to_int z with
  | Pos u => uint_chars u
  | Neg u => 45 :: uint_chars u
  end.

Definition newline_indent (level : nat) : pystr := 10 :: repeat 32 (2 * level).

(** The text of a value that is not a container. *)
Definition atom (v : pyval) : option pystr :=
  match v with
  | PStr s => Some (encode_basestring s)
  | PNone => Some (lit "null")
  | PBool true => Some (lit "true")
  | PBool false => Some (lit "false")
  | PInt z => Some (intstr z)
  | PList _ | PDict _ => None
  end.

Section Chunks.

Variable iterencode : pyval -> list pystr.   (* one level further in *)
Variable newline : pystr.                    (* newline_indent there *)

Definition value_chunks (buf : pystr) (value : pyval) : list pystr :=
  match atom value with
  | Some t => [buf ++ t]
  | None => buf :: iterencode value
  end.

(** The loop of [_iterencode_list]: [buf] grows the first chunk of each
    element. *)
Fixpoint list_chunks (first : bool) (lst : list pyval) : list pystr :=
  match lst with
  | [] => []
  | value :: lst' =>
      value_chunks ((if first then 91 else 44) :: newline) value
      ++ list_chunks false lst'
  end.

(** The loop of [_iterencode_dict]: separator, key, colon and value are
    chunks of their own. *)
Fixpoint dict_chunks (first : bool) (items : list (pystr * pyval)) : list pystr :=
  match items with
  | [] => []
  | (key, value) :: items' =>
      (if first then [] else [44 :: newline])
      ++ encode_basestring key :: [58; 32]
      :: match atom value with
         | Some t => [t]
         | None => iterencode value
         end
      ++ dict_chunks false items'
  end.

End Chunks.

(** [_make_iterencode]: the chunks handed to [fp.write], one by one. *)
Fixpoint iterencode (level : nat) (o : pyval) : list pystr :=
  match o with
  | PList [] => [lit "[]"]
  | PList lst =>
      list_chunks (iterencode (S level)) (newline_indent (S level)) true lst
      ++ [newline_indent level; [93]]
  | PDict [] => [lit "{}"]
  | PDict dct =>
      [123] :: newline_indent (S level)
      :: dict_chunks (iterencode (S level)) (newline_indent (S level)) true dct
      ++ [newline_indent level; [125]]
  | PStr s => [encode_basestring s]
  | PNone => [lit "null"]
  | PBool true => [lit "true"]
  | PBool false => [lit "false"]
  | PInt z => [intstr z]
  end.

(** The chunks of a value, joined. *)
Definition text (level : nat) (o : pyval) : pystr := concat (iterencode level o).

Definition dumps (o : pyval) : pystr := text 0 o.

(** ** [json.load(f)] *)

Inductive presult (A : Type) : Type :=
| Parsed (a : A) (rest : pystr)
| Malformed      (* json.JSONDecodeError *)
| FloatSeen      (* a float literal, NaN or Infinity: not modelled *)
| Starved.       (* out of fuel; [loads] gives enough, see [loads_fed] *)
Arguments Malformed {A}.
Arguments FloatSeen {A}.
Arguments Starved {A}.

Definition pmap {A B : Type} (f : A -> B) (r : presult A) : presult B :=
  match r with
  | Parsed a rest => Parsed (f a) rest
  | Malformed => Malformed
  | FloatSeen => FloatSeen
  | Starved => Starved
  end.

Definition is_ws (c : Z) : bool :=
  (c =? 32) || (c =? 9) || (c =? 10) || (c =? 13).

Fixpoint skip_ws (s : pystr) : pystr :=
  match s with
  | c :: t => if is_ws c then skip_ws t else s
  | [] => []
  end.

Definition hexval (c : Z) : option Z :=
  if (48 <=? c) && (c <=? 57) then Some (c - 48)
  else if (97 <=? c) && (c <=? 102) then Some (c - 87)
  else if (65 <=? c) && (c <=? 70) then Some (c - 55)
  else None.

Definition hex4 (a b c d : Z) : option Z :=
  match hexval a, hexval b, hexval c, hexval d with
  | Some x, Some y, Some z, Some w => Some (x * 4096 + y * 256 + z * 16 + w)
  | _, _, _, _ => None
  end.

(** [BACKSLASH] *)
Definition unescape (e : Z) : option Z :=
  if e =? 34 then Some 34
  else if e =? 92 then Some 92
  else if e =? 47 then Some 47
  else if e =? 98 then Some 8
  else if e =? 102 then Some 12
  else if e =? 110 then Some 10
  else if e =? 114 then Some 13
  else if e =? 116 then Some 9
  else None.

Definition high_surrogate (u : Z) : bool := (55296 <=? u) && (u <=? 56319).
Definition low_surrogate (u : Z) : bool := (56320 <=? u) && (u <=? 57343).

(** [scanstring], strict: the text after an opening quote, up to the
    closing one.  A high surrogate escape directly followed by a low one
    is joined; any other surrogate escape stays as it is. *)
Fixpoint scanstring (s : pystr) : presult pystr :=
  match s with
  | [] => Malformed
  | c :: t =>
      if c =? 34 then Parsed [] t
      else if c =? 92 then
        match t with
        | [] => Malformed
        | e :: t1 =>
            if e =? 117 then
              match t1 with
              | h1 :: h2 :: h3 :: h4 :: t2 =>
                  match hex4 h1 h2 h3 h4 with
                  | None => Malformed
                  | Some u =>
                      if high_surrogate u then
                        match t2 with
                        | b :: v :: g1 :: g2 :: g3 :: g4 :: t3 =>
                            if (b =? 92) && (v =? 117) then
                              match hex4 g1 g2 g3 g4 with
                              | None => Malformed
                              | Some u2 =>
                                  if low_surrogate u2
                                  then pmap (cons (65536 + (u - 55296) * 1024
                                                   + (u2 - 56320)))
                                            (scanstring t3)
                                  else pmap (cons u) (scanstring t2)
                              end
                            else pmap (cons u) (scanstring t2)
                        | _ => pmap (cons u) (scanstring t2)
                        end
                      else pmap (cons u) (scanstring t2)
                  end
              | _ => Malformed
              end
            else
              match unescape e with
              | Some ch => pmap (cons ch) (scanstring t1)
              | None => Malformed
              end
        end
      else if (0 <=? c) && (c <? 32) then Malformed
      else pmap (cons c) (scanstring t)
  end.

Definition digit (c : Z) : bool := (48 <=? c) && (c <=? 57).

Definition push_digit (c : Z) (u : uint) : uint :=
  if c =? 48 then D0 u else if c =? 49 then D1 u else if c =? 50 then D2 u
  else if c =? 51 then D3 u else if c =? 52 then D4 u else if c =? 53 then D5 u
  else if c =? 54 then D6 u else if c =? 55 then D7 u else if c =? 56 then D8 u
  else D9 u.

Fixpoint scan_digits (s : pystr) : uint * pystr :=
  match s with
  | c :: t =>
      if digit c then let (u, r) := scan_digits t in (push_digit c u, r)
      else (Nil, s)
  | [] => (Nil, [])
  end.

(** Does a fraction or an exponent follow the integer part? *)
Definition float_follows (r : pystr) : bool :=
  match r with
  | c :: d :: r' =>
      if c =? 46 then digit d
      else if (c =? 101) || (c =? 69) then
        digit d
        || (((d =? 43) || (d =? 45))
            && match r' with d' :: _ => digit d' | [] => false end)
      else false
  | _ => false
  end.

Definition finish_number (neg : bool) (u : uint) (r : pystr) : presult pyval :=
  if float_follows r then FloatSeen
  else Parsed (PInt (Z.of_int (if neg then Neg u else Pos u))) r.

(** [NUMBER_RE]: an optional sign, then [0] or a digit run that does not
    start with [0]. *)
Definition match_number (s : pystr) : presult pyval :=
  let neg := match s with c :: _ => c =? 45 | [] => false end in
  let s1 := if neg then tl s else s in
  match s1 with
  | c :: t =>
      if c =? 48 then finish_number neg (D0 Nil) t
      else if digit c then let (u, r) := scan_digits s1 in finish_number neg u r
      else Malformed
  | [] => Malformed
  end.

Fixpoint starts_with (p s : pystr) : option pystr :=
  match p, s with
  | [], _ => Some s
  | x :: p', y :: s' => if x =? y then starts_with p' s' else None
  | _ :: _, [] => None
  end.

Section Containers.

Variable scan : pystr -> presult pyval.

(** [JSONArray], from the first element on. *)
Fixpoint array_items (n : nat) (s : pystr) : presult (list pyval) :=
  match n with
  | O => Starved
  | S n' =>
      match scan s with
      | Parsed v r =>
          match skip_ws r with
          | c :: r' =>
              if c =? 93 then Parsed [v] r'
              else if c =? 44 then pmap (cons v) (array_items n' (skip_ws r'))
              else Malformed
          | [] => Malformed
          end
      | Malformed => Malformed
      | FloatSeen => FloatSeen
      | Starved => Starved
      end
  end.

Definition parse_array (n : nat) (s : pystr) : presult pyval :=
  match skip_ws s with
  | c :: r =>
      if c =? 93 then Parsed (PList []) r
      else pmap PList (array_items n (c :: r))
  | [] => Malformed
  end.

(** [JSONObject], from the first key on. *)
Fixpoint object_items (n : nat) (s : pystr) : presult (list (pystr * pyval)) :=
  match n with
  | O => Starved
  | S n' =>
      match s with
      | c :: t =>
          if c =? 34 then
            match scanstring t with
            | Parsed key r =>
                match skip_ws r with
                | c1 :: r1 =>
                    if c1 =? 58 then
                      match scan (skip_ws r1) with
                      | Parsed v r2 =>
                          match skip_ws r2 with
                          | c2 :: r3 =>
                              if c2 =? 125 then Parsed [(key, v)] r3
                              else if c2 =? 44
                              then pmap (cons (key, v))
                                        (object_items n' (skip_ws r3))
                              else Malformed
                          | [] => Malformed
                          end
                      | Malformed => Malformed
                      | FloatSeen => FloatSeen
                      | Starved => Starved
                      end
                    else Malformed
                | [] => Malformed
                end
            | Malformed => Malformed
            | FloatSeen => FloatSeen
            | Starved => Starved
            end
          else Malformed
      | [] => Malformed
      end
  end.

Definition parse_object (n : nat) (s : pystr) : presult pyval :=
  match skip_ws s with
  | c :: r =>
      if c =? 125 then Parsed (PDict []) r
      else pmap (fun pairs => PDict (dict_of_pairs pairs))
                (object_items n (c :: r))
  | [] => Malformed
  end.

End Containers.

(** [scan_once]: one value at the head of the text.  [fuel] bounds the
    nesting and the number of items; the length of the text is enough
    ([loads_fed]). *)
Fixpoint scan_once (fuel : nat) (s : pystr) : presult pyval :=
  match fuel with
  | O => Starved
  | S f =>
      match s with
      | [] => Malformed
      | c :: t =>
          if c =? 34 then pmap PStr (scanstring t)
          else if c =? 123 then parse_object (scan_once f) f t
          else if c =? 91 then parse_array (scan_once f) f t
          else
            match starts_with (lit "null") s,
                  starts_with (lit "true") s,
                  starts_with (lit "false") s with
            | Some r, _, _ => Parsed PNone r
            | _, Some r, _ => Parsed (PBool true) r
            | _, _, Some r => Parsed (PBool false) r
            | None, None, None =>
                match match_number s with
                | Malformed =>
                    match starts_with (lit "NaN") s,
                          starts_with (lit "Infinity") s,
                          starts_with (lit "-Infinity") s with
                    | None, None, None => Malformed
                    | _, _, _ => FloatSeen
                    end
                | r => r
                end
            end
      end
  end.

(** [JSONDecoder.decode]: one value, white space around it, nothing else. *)
Definition loads (s : pystr) : presult pyval :=
  match scan_once (S (length s)) (skip_ws s) with
  | Parsed v r =>
      match skip_ws r with
      | [] => Parsed v []
      | _ :: _ => Malformed
      end
  | r => r
  end.

(** ** Exceptions, the data file and the store monad *)

Inductive exn : Type :=
| JSONDecodeError
| FileNotFoundError
| UnicodeDecodeError
| UnicodeEncodeError
| KeyError
| TypeError
| AttributeError
| ExternalError   (* raised inside a collaborator: a model, the transport *)
| Unmodelled.     (* no Python exception: the run left this embedding;
                     no handler catches it and no theorem covers it *)

Inductive outcome (A : Type) : Type :=
| Ok (a : A)
| Raise (e : exn).
Arguments Raise {A}.

(** [data.json]: absent, or its bytes.  The file is always readable and
    writable; a failed write leaves what was flushed before the failure. *)
Definition disk := option (list byte).

Definition M (A : Type) : Type := disk -> outcome A * disk.

Definition ret {A : Type} (a : A) : M A := fun d => (Ok a, d).

Definition bind {A B : Type} (m : M A) (k : A -> M B) : M B :=
  fun d =>
    match m d with
    | (Ok a, d') => k a d'
    | (Raise e, d') => (Raise e, d')
    end.

Definition lift {A : Type} (r : outcome A) : M A := fun d => (r, d).

Notation "x <- m ;; k" := (bind m (fun x => k))
  (at level 61, m at next level, right associativity).
Notation "m ;;; k" := (bind m (fun _ => k))
  (at level 61, right associativity).

(** [try: m  except Exception: h] *)
Definition try_except {A : Type} (m : M A) (h : exn -> M A) : M A :=
  fun d =>
    match m d with
    | (Raise Unmodelled, d') => (Raise Unmodelled, d')
    | (Raise e, d') => h e d'
    | r => r
    end.

Definition empty_store : pyval := PDict [(lit "users", PDict [])].

(** [open(DATA_FILE, "r", encoding="utf-8")] then [json.load(f)].
    Newline translation on reading only touches white space between
    tokens, since a raw line break inside a JSON string is refused. *)
Definition read_json (bytes : list byte) : outcome pyval :=
  match utf8_decode bytes with
  | None => Raise UnicodeDecodeError
  | Some text =>
      match loads text with
      | Parsed v _ => Ok v
      | Malformed => Raise JSONDecodeError
      | FloatSeen => Raise Unmodelled
      | Starved => Raise Unmodelled
      end
  end.

Definition load_data : M pyval :=
  fun d =>
    match d with
    | None => (Ok empty_store, d)
    | Some bytes =>
        match read_json bytes with
        | Ok v => (Ok v, d)
        | Raise JSONDecodeError => (Ok empty_store, d)
        | Raise FileNotFoundError => (Ok empty_store, d)
        | Raise e => (Raise e, d)
        end
    end.

(** [fp.write(chunk)] for each chunk: the bytes written, and whether
    every chunk could be encoded. *)
Fixpoint write_chunks (chunks : list pystr) : list byte * bool :=
  match chunks with
  | [] => ([], true)
  | ch :: rest =>
      match utf8_encode ch with
      | Some b => let (bs, ok) := write_chunks rest in (b ++ bs, ok)
      | None => ([], false)
      end
  end.

Definition save_data (data : pyval) : M unit :=
  fun _ =>
    match write_chunks (iterencode 0 data) with
    | (bytes, true) => (Ok tt, Some bytes)
    | (bytes, false) => (Raise UnicodeEncodeError, Some bytes)
    end.

(** ** The Python operations the store uses *)

(** [o[k]] for a [str] key *)
Definition getitem (o : pyval) (k : pystr) : outcome pyval :=
  match o with
  | PDict d =>
      match dict_get d k with
      | Some v => Ok v
      | None => Raise KeyError
      end
  | _ => Raise TypeError
  end.

(** [o[k] = v] for a [str] key *)
Definition setitem (o : pyval) (k : pystr) (v : pyval) : outcome pyval :=
  match o with
  | PDict d => Ok (PDict (dict_set d k v))
  | _ => Raise TypeError
  end.

(** [o.get(k, default)] *)
Definition py_get (o : pyval) (k : pystr) (default : pyval) : outcome pyval :=
  match o with
  | PDict d =>
      match dict_get d k with
      | Some v => Ok v
      | None => Ok default
      end
  | _ => Raise AttributeError
  end.

(** [o.append(x)] *)
Definition py_append (o : pyval) (x : pyval) : outcome pyval :=
  match o with
  | PList l => Ok (PList (l ++ [x]))
  | _ => Raise AttributeError
  end.

Fixpoint is_prefix (p s : pystr) : bool :=
  match p, s with
  | [], _ => true
  | x :: p', y :: s' => (x =? y) && is_prefix p' s'
  | _ :: _, [] => false
  end.

Fixpoint is_infix (p s : pystr) : bool :=
  is_prefix p s || match s with [] => false | _ :: s' => is_infix p s' end.

(** [k in o] for a [str] [k] *)
Definition py_contains (k : pystr) (o : pyval) : outcome bool :=
  match o with
  | PDict d => Ok (match dict_get d k with Some _ => true | None => false end)
  | PList l =>
      Ok (existsb (fun x => match x with PStr s => str_eqb s k | _ => false end) l)
  | PStr s => Ok (is_infix k s)
  | _ => Raise TypeError
  end.

(** What [for x in o] runs over. *)
Definition py_iter (o : pyval) : outcome (list pyval) :=
  match o with
  | PList l => Ok l
  | PDict d => Ok (map (fun kv => PStr (fst kv)) d)
  | PStr s => Ok (map (fun c => PStr [c]) s)
  | _ => Raise TypeError
  end.

(** [v == n] for an [int] [n]; [True == 1] and [False == 0] hold. *)
Definition py_eq_int (v : pyval) (n : Z) : bool :=
  match v with
  | PInt z => z =? n
  | PBool b => (if b then 1 else 0) =? n
  | _ => false
  end.

(** [not o] is [negb (truthy o)] *)
Definition truthy (o : pyval) : bool :=
  match o with
  | PNone => false
  | PBool b => b
  | PInt z => negb (z =? 0)
  | PStr s => match s with [] => false | _ => true end
  | PList l => match l with [] => false | _ => true end
  | PDict d => match d with [] => false | _ => true end
  end.

Definition obind {A B : Type} (r : outcome A) (k : A -> outcome B) : outcome B :=
  match r with
  | Ok a => k a
  | Raise e => Raise e
  end.

Notation "x <~ r ;; k" := (obind r (fun x => k))
  (at level 61, r at next level, right associativity).

(** ** The record store *)

Definition opt_str (s : option pystr) : pyval :=
  match s with
  | Some t => PStr t
  | None => PNone
  end.

(** [username] is the transport's [user.username]: a [str], or [None]
    for an account without one. *)
Definition get_or_create_user (tg_user_id : Z) (username : option pystr) : M pyval :=
  data <- load_data ;;
  users <- lift (getitem data (lit "users")) ;;
  present <- lift (py_contains (intstr tg_user_id) users) ;;
  if negb present then
    users' <- lift (setitem users (intstr tg_user_id)
                      (PDict [(lit "username", opt_str username);
                              (lit "records", PList [])])) ;;
    data' <- lift (setitem data (lit "users") users') ;;
    save_data data' ;;;
    lift (getitem users' (intstr tg_user_id))
  else
    lift (getitem users (intstr tg_user_id)).

(** [now_ts] is [int(datetime.now().timestamp())] and [now_iso] is
    [datetime.now().isoformat()], both read after the load. *)
Definition save_voice_record (user_id : Z) (audio_path raw_text summary_text : pystr)
    (now_ts : Z) (now_iso : pystr) : M Z :=
  data <- load_data ;;
  let record :=
    PDict [(lit "id", PInt now_ts);
           (lit "audio_path", PStr audio_path);
           (lit "raw_text", PStr raw_text);
           (lit "summary_text", PStr summary_text);
           (lit "created_at", PStr now_iso)] in
  users <- lift (getitem data (lit "users")) ;;
  user <- lift (getitem users (intstr user_id)) ;;
  recs <- lift (getitem user (lit "records")) ;;
  recs' <- lift (py_append recs record) ;;
  user' <- lift (setitem user (lit "records") recs') ;;
  users' <- lift (setitem users (intstr user_id) user') ;;
  data' <- lift (setitem data (lit "users") users') ;;
  save_data data' ;;;
  ret now_ts.

Definition get_user_records (user_id : Z) : M pyval :=
  data <- load_data ;;
  users <- lift (getitem data (lit "users")) ;;
  user <- lift (py_get users (intstr user_id) (PDict [])) ;;
  lift (py_get user (lit "records") (PList [])).

(** [for rec in records: if rec["id"] == record_id: return rec] *)
Fixpoint find_record (recs : list pyval) (record_id : Z) : outcome pyval :=
  match recs with
  | [] => Ok PNone
  | rec :: rest =>
      idv <~ getitem rec (lit "id") ;;
      if py_eq_int idv record_id then Ok rec else find_record rest record_id
  end.

Definition get_record_by_id (user_id record_id : Z) : M pyval :=
  records <- get_user_records user_id ;;
  items <- lift (py_iter records) ;;
  lift (find_record items record_id).

(** The loop of [update_summary_text]: the first record whose id matches
    gets the new summary, and the loop stops there. *)
Fixpoint replace_summary (recs : list pyval) (record_id : Z) (new_summary : pystr)
  : outcome (list pyval) :=
  match recs with
  | [] => Ok []
  | rec :: rest =>
      idv <~ getitem rec (lit "id") ;;
      if py_eq_int idv record_id then
        rec' <~ setitem rec (lit "summary_text") (PStr new_summary) ;;
        Ok (rec' :: rest)
      else
        rest' <~ replace_summary rest record_id new_summary ;;
        Ok (rec :: rest')
  end.

Definition update_summary_text (user_id record_id : Z) (new_summary : pystr) : M unit :=
  data <- load_data ;;
  users <- lift (getitem data (lit "users")) ;;
  user <- lift (getitem users (intstr user_id)) ;;
  recs <- lift (getitem user (lit "records")) ;;
  items <- lift (py_iter recs) ;;
  items' <- lift (replace_summary items record_id new_summary) ;;
  (* the matching record is mutated in place, inside [data]; a dict or a
     str as [recs] is left as it is: the loop over its keys or characters
     raises TypeError at the first one, and does nothing when there is
     none *)
  let recs' := match recs with PList _ => PList items' | _ => recs end in
  user' <- lift (setitem user (lit "records") recs') ;;
  users' <- lift (setitem users (intstr user_id) user') ;;
  data' <- lift (setitem data (lit "users") users') ;;
  save_data data'.

(** ** The model stages *)

Definition AUDIO_DIR : pystr := lit "audio".

(** [load_models()] swallows every exception, so a stage starts with
    whatever handle it returns; [whisper] and [summarizer] stand for the
    whole model call on that handle, a missing model included. *)
Definition transcribe_audio (whisper : pystr -> outcome pystr) (audio_path : pystr)
  : pystr :=
  match whisper audio_path with
  | Ok text => text
  | Raise _ => lit "Не удалось понять тебя, родной"
  end.

Definition summarize_text (summarizer : pystr -> outcome pystr) (text : pystr)
  : pystr :=
  if (length text <? 50)%nat then text
  else
    match summarizer text with
    | Ok summary => summary
    | Raise _ =>
        if (100 <? length text)%nat then firstn 100 text ++ lit "..." else text
    end.

(** ** Voice ingestion *)

(** [os.path.join(a, b)] on POSIX, for an [a] that does not end in a slash *)
Definition path_join (a b : pystr) : pystr :=
  match b with
  | 47 :: _ => b
  | _ => a ++ 47 :: b
  end.

(** What one voice message meets outside the store. *)
Record voice_env : Type := {
  download : outcome unit;   (* get_file, download_to_drive, the first reply *)
  whisper : pystr -> outcome pystr;
  summarizer : pystr -> outcome pystr;
  now_ts : Z;
  now_iso : pystr
}.

Inductive voice_reply : Type :=
| Heard (summary_text : pystr)
| VoiceFailed.

Definition handle_voice (env : voice_env) (user_id : Z) (username : option pystr)
    (file_id : pystr) : M voice_reply :=
  get_or_create_user user_id username ;;;
  let audio_path := path_join AUDIO_DIR (file_id ++ lit ".ogg") in
  try_except
    (lift (download env) ;;;
     let raw_text := transcribe_audio (whisper env) audio_path in
     let summary_text := summarize_text (summarizer env) raw_text in
     save_voice_record user_id audio_path raw_text summary_text
                       (now_ts env) (now_iso env) ;;;
     ret (Heard summary_text))
    (fun _ => ret VoiceFailed).

(** ** The record listing *)

(** [a < b] on [str]: by code point, a proper prefix first. *)
Fixpoint str_ltb (a b : pystr) : bool :=
  match a, b with
  | _, [] => false
  | [], _ :: _ => true
  | x :: a', y :: b' => (x <? y) || ((x =? y) && str_ltb a' b')
  end.

Section Sorted.

Variable A : Type.

(** [sorted(xs, key=.., reverse=True)] on [str] keys: descending, and
    stable (equal keys stay in their original order). *)
Fixpoint insert_desc (x : pystr * A) (l : list (pystr * A)) : list (pystr * A) :=
  match l with
  | [] => [x]
  | y :: l' =>
      if str_ltb (fst x) (fst y) then y :: insert_desc x l' else x :: l
  end.

Definition sorted_desc (l : list (pystr * A)) : list (pystr * A) :=
  fold_right insert_desc [] l.

(** [x] may stand before [y]: its key is not smaller. *)
Definition by_key (x y : pystr * A) : Prop := str_ltb (fst x) (fst y) = false.

End Sorted.

(** The sort key of one record.  Keys are only compared when there are
    two records or more, and then they must be [str]s here. *)
Definition created_key (alone : bool) (rec : pyval) : outcome (pystr * pyval) :=
  k <~ getitem rec (lit "created_at") ;;
  match k with
  | PStr s => Ok (s, rec)
  | _ => if alone then Ok ([], rec) else Raise Unmodelled
  end.

Fixpoint map_outcome {A B : Type} (f : A -> outcome B) (l : list A) : outcome (list B) :=
  match l with
  | [] => Ok []
  | x :: l' =>
      y <~ f x ;;
      ys <~ map_outcome f l' ;;
      Ok (y :: ys)
  end.

(** [sorted(records, key=lambda r: r["created_at"], reverse=True)[:10]] *)
Definition recent_records (records : list pyval) : outcome (list pyval) :=
  keyed <~ map_outcome (created_key (length records <=? 1)%nat) records ;;
  Ok (firstn 10 (map snd (sorted_desc keyed))).

(** The text a value takes inside an f-string. *)
Definition format_value (v : pyval) : outcome pystr :=
  match v with
  | PInt z => Ok (intstr z)
  | PStr s => Ok s
  | PNone => Ok (lit "None")
  | PBool true => Ok (lit "True")
  | PBool false => Ok (lit "False")
  | _ => Raise Unmodelled
  end.

Inductive listing_reply : Type :=
| NoRecords
| Keyboard (rows : list (pystr * pystr)).   (* button text, callback data *)

Section Listing.

(** [datetime.fromisoformat(s).strftime('%d.%m %H:%M')] *)
Variable strftime_iso : pystr -> outcome pystr.

Definition record_button (rec : pyval) : outcome (pystr * pystr) :=
  created <~ getitem rec (lit "created_at") ;;
  date_str <~ match created with
              | PStr s => strftime_iso s
              | _ => Raise TypeError
              end ;;
  summary <~ getitem rec (lit "summary_text") ;;
  head <~ match summary with
          | PStr s => Ok (firstn 30 s)
          | PList _ => Raise Unmodelled
          | _ => Raise TypeError
          end ;;
  idv <~ getitem rec (lit "id") ;;
  id_str <~ format_value idv ;;
  Ok (date_str ++ lit " — " ++ head ++ lit "...", lit "select_" ++ id_str).

Definition back_button : pystr * pystr := (lit "↩️ Назад", lit "start").

Definition create_document_button (user_id : Z) : M listing_reply :=
  records <- get_user_records user_id ;;
  if negb (truthy records) then ret NoRecords
  else
    items <- lift (py_iter records) ;;
    shown <- lift (recent_records items) ;;
    rows <- lift (map_outcome record_button shown) ;;
    ret (Keyboard (rows ++ [back_button])).

End Listing.

(** ** The store as typed data *)

Record record : Type := {
  rec_id : Z;
  audio_path : pystr;
  raw_text : pystr;
  summary_text : pystr;
  created_at : pystr
}.

Record user : Type := {
  username : option pystr;
  records : list record
}.

(** User entries by key, in the order the keys were first written. *)
Definition store : Type := list (pystr * user).

Definition encode_record (r : record) : pyval :=
  PDict [(lit "id", PInt (rec_id r));
         (lit "audio_path", PStr (audio_path r));
         (lit "raw_text", PStr (raw_text r));
         (lit "summary_text", PStr (summary_text r));
         (lit "created_at", PStr (created_at r))].

Definition encode_user (u : user) : pyval :=
  PDict [(lit "username", opt_str (username u));
         (lit "records", PList (map encode_record (records u)))].

Definition encode_users (st : store) : list (pystr * pyval) :=
  map (fun ku => (fst ku, encode_user (snd ku))) st.

Definition encode_store (st : store) : pyval :=
  PDict [(lit "users", PDict (encode_users st))].

(** The entry of key [k] becomes [u]; a new key goes last. *)
Fixpoint set_user (st : store) (k : pystr) (u : user) : store :=
  match st with
  | [] => [(k, u)]
  | (k', u') :: st' =>
      if str_eqb k k' then (k', u) :: st' else (k', u') :: set_user st' k u
  end.

Definition with_records (u : user) (rs : list record) : user :=
  {| username := username u; records := rs |}.

Definition with_summary (r : record) (new_summary : pystr) : record :=
  {| rec_id := rec_id r; audio_path := audio_path r; raw_text := raw_text r;
     summary_text := new_summary; created_at := created_at r |}.

(** The first record with the given id. *)
Fixpoint find_first (rs : list record) (record_id : Z) : option record :=
  match rs with
  | [] => None
  | r :: rs' => if rec_id r =? record_id then Some r else find_first rs' record_id
  end.

(** The first record with the given id gets a new summary. *)
Fixpoint replace_first (rs : list record) (record_id : Z) (new_summary : pystr)
  : list record :=
  match rs with
  | [] => []
  | r :: rs' =>
      if rec_id r =? record_id then with_summary r new_summary :: rs'
      else r :: replace_first rs' record_id new_summary
  end.

Fixpoint lookup_user (st : store) (k : pystr) : option user :=
  match st with
  | [] => None
  | (k', u) :: st' => if str_eqb k k' then Some u else lookup_user st' k
  end.

Definition valid_record (r : record) : Prop :=
  valid_text (audio_path r) /\ valid_text (raw_text r)
  /\ valid_text (summary_text r) /\ valid_text (created_at r).

Definition valid_user (u : user) : Prop :=
  match username u with Some s => valid_text s | None => True end
  /\ Forall valid_record (records u).

(** A store the file can hold: one entry per key, every string Unicode
    text. *)
Definition valid_store (st : store) : Prop :=
  NoDup (map fst st)
  /\ Forall (fun ku => valid_text (fst ku) /\ valid_user (snd ku)) st.

(** The file [d] holds the store [st]. *)
Definition holds (d : disk) (st : store) : Prop :=
  load_data d = (Ok (encode_store st), d).

(** ** Vocabulary of the statements *)

(** Number of nodes of a value. *)
Fixpoint size (v : pyval) : nat :=
  match v with
  | PList l => S (list_sum (map size l))
  | PDict d => S (list_sum (map (fun kv => size (snd kv)) d))
  | _ => 1
  end.

(** A value the file can hold and give back: every string is Unicode
    text and no dictionary repeats a key. *)
#[warnings="-register-all"]
Inductive storable : pyval -> Prop :=
| storable_none : storable PNone
| storable_bool (b : bool) : storable (PBool b)
| storable_int (z : Z) : storable (PInt z)
| storable_str (s : pystr) : valid_text s -> storable (PStr s)
| storable_list (l : list pyval) : Forall storable l -> storable (PList l)
| storable_dict (d : list (pystr * pyval)) :
    NoDup (map fst d) ->
    Forall (fun kv => valid_text (fst kv) /\ storable (snd kv)) d ->
    storable (PDict d).

(** What may follow a value inside a dumped document: nothing, a comma
    or a line break. *)
Definition stop (rest : pystr) : Prop :=
  match rest with
  | [] => True
  | c :: _ => c = 44 \/ c = 10
  end.

Definition nondigit_head (rest : pystr) : Prop :=
  match rest with
  | [] => True
  | c :: _ => digit c = false
  end.

(** Scanning the dumped text of [v] gives [v] back, whatever the level
    of indentation and whatever follows. *)
Definition scans_back (v : pyval) : Prop :=
  forall (f level : nat) (rest : pystr),
    (size v < f)%nat -> stop rest ->
    scan_once f (text level v ++ rest) = Parsed v rest.

(** The records of a user; none for a user the store does not know. *)
Definition user_records (st : store) (user_id : Z) : list record :=
  match lookup_user st (intstr user_id) with
  | Some u => records u
  | None => []
  end.

Definition new_user (name : option pystr) : user :=
  {| username := name; records := [] |}.

Definition valid_name (name : option pystr) : Prop :=
  match name with
  | Some s => valid_text s
  | None => True
  end.

Definition new_record (ts : Z) (path raw summary iso : pystr) : record :=
  {| rec_id := ts; audio_path := path; raw_text := raw;
     summary_text := summary; created_at := iso |}.

(** ** The handlers that write the store, as events *)

Inductive event : Type :=
| Start (user_id : Z) (username : option pystr)
| Voice (env : voice_env) (user_id : Z) (username : option pystr) (file_id : pystr)
| Edit (user_id record_id : Z) (new_summary : pystr).

(** [start], [handle_voice], and [edit_summary] with the record id the
    session holds and the stripped message text. *)
Definition handle (ev : event) : M unit :=
  match ev with
  | Start user_id name => get_or_create_user user_id name ;;; ret tt
  | Voice env user_id name file_id => handle_voice env user_id name file_id ;;; ret tt
  | Edit user_id record_id new_summary =>
      update_summary_text user_id record_id new_summary
  end.

(** The file after an event; a handler that raises leaves what it wrote. *)
Definition step (d : disk) (ev : event) : disk := snd (handle ev d).

Definition run_events (evs : list event) (d : disk) : disk := fold_left step evs d.

(** The transport and the models hand over Unicode text, and what the
    transport raises is a Python exception. *)
Definition valid_env (env : voice_env) : Prop :=
  (forall p t, whisper env p = Ok t -> valid_text t)
  /\ (forall s t, summarizer env s = Ok t -> valid_text t)
  /\ valid_text (now_iso env)
  /\ download env <> Raise Unmodelled.

Definition valid_event (ev : event) : Prop :=
  match ev with
  | Start _ name => valid_name name
  | Voice env _ name file_id => valid_env env /\ valid_name name /\ valid_text file_id
  | Edit _ _ new_summary => valid_text new_summary
  end.

(** A state of the file the bot can get to from a fresh start. *)
Definition reachable (d : disk) : Prop :=
  exists evs, Forall valid_event evs /\ run_events evs None = d.


(** The typed reading of [recent_records]. *)
Definition recent (rs : list record) : list record :=
  firstn 10 (map snd (sorted_desc (map (fun r => (created_at r, r)) rs))).

(** [a >= b] on [str] *)
Definition str_ge (a b : pystr) : Prop := str_ltb a b = false.


(** Every string of the value, keys included, is Unicode text: it holds
    no lone surrogate. *)
#[warnings="-register-all"]
Inductive unicode_text : pyval -> Prop :=
| unicode_none : unicode_text PNone
| unicode_bool (b : bool) : unicode_text (PBool b)
| unicode_int (z : Z) : unicode_text (PInt z)
| unicode_str (s : pystr) : valid_text s -> unicode_text (PStr s)
| unicode_list (l : list pyval) : Forall unicode_text l -> unicode_text (PList l)
| unicode_dict (d : list (pystr * pyval)) :
    Forall (fun kv => valid_text (fst kv) /\ unicode_text (snd kv)) d ->
    unicode_text (PDict d).

(** The bytes of an ASCII text in which a single quote stands for the
    double quote. *)
Definition quoted (s : string) : list byte :=
  map (fun b => if Byte.eqb b x27 then x22 else b) (list_byte_of_string s).

(** ** A sample store for the worked cases *)

Definition sample_record : record :=
  {| rec_id := 42;
     audio_path := lit "audio/a.ogg";
     raw_text := lit "старый текст";
     summary_text := lit "old";
     created_at := lit "2024-01-01T10:00:00" |}.

Definition sample_store : store :=
  [(lit "7", {| username := Some (lit "ann"); records := [sample_record] |})].

Definition sample_disk : disk :=
  Some (quoted "{'users': {'7': {'username': 'ann', 'records': [{'id': 42, 'audio_path': 'audio/a.ogg', 'raw_text': 'старый текст', 'summary_text': 'old', 'created_at': '2024-01-01T10:00:00'}]}}}").

(** The store once [get_or_create_user] has run. *)
Definition ensure_user (st : store) (user_id : Z) (name : option pystr) : store :=
  match lookup_user st (intstr user_id) with
  | Some _ => st
  | None => st ++ [(intstr user_id, new_user name)]
  end.

(** The record [handle_voice] saves. *)
Definition voice_record (env : voice_env) (file_id : pystr) : record :=
  let path := path_join AUDIO_DIR (file_id ++ lit ".ogg") in
  let raw := transcribe_audio (whisper env) path in
  new_record (now_ts env) path raw (summarize_text (summarizer env) raw) (now_iso env).

(** The store after one event. *)
Definition store_after (st : store) (ev : event) : store :=
  match ev with
  | Start uid name => ensure_user st uid name
  | Voice env uid name file_id =>
      let st1 := ensure_user st uid name in
      match download env with
      | Ok _ =>
          match lookup_user st1 (intstr uid) with
          | Some u =>
              set_user st1 (intstr uid)
                (with_records u (records u ++ [voice_record env file_id]))
          | None => st1
          end
      | Raise _ => st1
      end
  | Edit uid rid text =>
      match lookup_user st (intstr uid) with
      | Some u => set_user st (intstr uid) (with_records u (replace_first (records u) rid text))
      | None => st
      end
  end.


(** A voice note of silence: Whisper succeeds with the empty text. *)
Definition silent_env : voice_env :=
  {| download := Ok tt;
     whisper := fun _ => Ok [];
     summarizer := fun _ => Raise ExternalError;
     now_ts := 1700000000;
     now_iso := lit "2023-11-14T22:13:20" |}.

(** A voice note whose transcription fails. *)
Definition deaf_env (ts : Z) : voice_env :=
  {| download := Ok tt;
     whisper := fun _ => Raise ExternalError;
     summarizer := fun _ => Raise ExternalError;
     now_ts := ts;
     now_iso := lit "2023-11-14T22:13:20.500000" |}.

(** A voice note that cannot be fetched. *)
Definition offline_env : voice_env :=
  {| download := Raise ExternalError;
     whisper := fun _ => Raise ExternalError;
     summarizer := fun _ => Raise ExternalError;
     now_ts := 1700000000;
     now_iso := lit "2023-11-14T22:13:20" |}.


(** Two voice notes of user 7 a second apart. *)
Definition apart_notes : list event :=
  [Voice (deaf_env 1700000000) 7 None (lit "a");
   Voice (deaf_env 1700000001) 7 None (lit "b")].



(** ** The models, loaded on demand *)

Section Models.

(** The handles of the Whisper model and of the summarization pipeline. *)
Variables whisper_t pipeline_t : Type.

(** The globals [whisper_model] and [summarizer_pipeline]: [None] until
    loaded. *)
Record models : Type := {
  whisper_model : option whisper_t;
  summarizer_pipeline : option pipeline_t
}.

(** What the two libraries do during one stage call. *)
Record model_libs : Type := {
  (* import whisper; whisper.load_model("tiny", device="cpu") *)
  load_whisper : outcome whisper_t;
  (* from transformers import pipeline; pipeline("summarization", ...) *)
  load_summarizer : outcome pipeline_t;
  (* model.transcribe(audio_path, language="ru")["text"] *)
  transcribe : whisper_t -> pystr -> outcome pystr;
  (* pipe(text, max_length=150, min_length=30, do_sample=False)[0]['summary_text'] *)
  summarize : pipeline_t -> pystr -> outcome pystr
}.

(** [load_models()]: the globals after the call, which are also the pair
    it returns.  One [try] covers both loads, so a failure of the first
    skips the second; an assignment already made stays. *)
Definition load_models (l : model_libs) (g : models) : models :=
  let after_whisper :=
    match whisper_model g with
    | Some _ => Some g
    | None =>
        match load_whisper l with
        | Ok m => Some {| whisper_model := Some m;
                          summarizer_pipeline := summarizer_pipeline g |}
        | Raise _ => None
        end
    end in
  match after_whisper with
  | None => g
  | Some g1 =>
      match summarizer_pipeline g1 with
      | Some _ => g1
      | None =>
          match load_summarizer l with
          | Ok p => {| whisper_model := whisper_model g1;
                       summarizer_pipeline := Some p |}
          | Raise _ => g1
          end
      end
  end.

(** The model calls on the handles [load_models] returned; a handle that
    is still [None] has no [transcribe] and cannot be called. *)
Definition whisper_call (l : model_libs) (g : models) (audio_path : pystr)
  : outcome pystr :=
  match whisper_model g with
  | Some m => transcribe l m audio_path
  | None => Raise AttributeError
  end.

Definition summarizer_call (l : model_libs) (g : models) (text : pystr)
  : outcome pystr :=
  match summarizer_pipeline g with
  | Some p => summarize l p text
  | None => Raise TypeError
  end.

(** [transcribe_audio] and [summarize_text] with their first line,
    [load_models()]: the text returned and the globals after the call. *)
Definition transcribe_stage (l : model_libs) (audio_path : pystr) (g : models)
  : pystr * models :=
  let g' := load_models l g in
  (transcribe_audio (whisper_call l g') audio_path, g').

Definition summarize_stage (l : model_libs) (text : pystr) (g : models)
  : pystr * models :=
  let g' := load_models l g in
  (summarize_text (summarizer_call l g') text, g').

End Models.

(** ** More [str] operations *)

(** [s.replace(old, new)] for a non-empty [old]: the occurrences of [old]
    met from left to right, without overlap.  [skip] counts the characters
    of the occurrence just replaced that are still to be passed over. *)
Fixpoint replace_from (skip : nat) (old new s : pystr) : pystr :=
  match s with
  | [] => []
  | c :: s' =>
      match skip with
      | S k => replace_from k old new s'
      | O =>
          if is_prefix old s
          then new ++ replace_from (length old - 1) old new s'
          else c :: replace_from O old new s'
      end
  end.

Definition py_replace (old new s : pystr) : pystr := replace_from 0 old new s.

(** [c.isspace()] *)
Definition is_space (c : Z) : bool :=
  ((9 <=? c) && (c <=? 13)) || ((28 <=? c) && (c <=? 32))
  || (c =? 133) || (c =? 160) || (c =? 5760)
  || ((8192 <=? c) && (c <=? 8202))
  || (c =? 8232) || (c =? 8233) || (c =? 8239) || (c =? 8287) || (c =? 12288).

Fixpoint lstrip (s : pystr) : pystr :=
  match s with
  | c :: s' => if is_space c then lstrip s' else s
  | [] => []
  end.

(** [s.strip()] *)
Definition py_strip (s : pystr) : pystr := rev (lstrip (rev (lstrip s))).

(** [s.split(sep)] for a separator of one character *)
Fixpoint py_split (sep : Z) (s : pystr) : list pystr :=
  match s with
  | [] => [[]]
  | c :: s' =>
      if c =? sep then [] :: py_split sep s'
      else
        match py_split sep s' with
        | piece :: pieces => (c :: piece) :: pieces
        | [] => [[c]]
        end
  end.

(** A run of digits in which single underscores may stand between two
    digits; the digits are returned. *)
Fixpoint grouped_digits (after_digit : bool) (s : pystr) : option pystr :=
  match s with
  | [] => if after_digit then Some [] else None
  | c :: t =>
      if digit c then option_map (cons c) (grouped_digits true t)
      else if (c =? 95) && after_digit then grouped_digits false t
      else None
  end.

Inductive int_result : Type :=
| IntOf (z : Z)
| NotInt        (* ValueError *)
| NonAscii.     (* a character beyond ASCII, which may be a digit or a
                   space of another script: not modelled *)

(** The white space [int] passes over in an ASCII text. *)
Definition c_space (c : Z) : bool := ((9 <=? c) && (c <=? 13)) || (c =? 32).

Fixpoint skip_c_space (s : pystr) : pystr :=
  match s with
  | c :: s' => if c_space c then skip_c_space s' else s
  | [] => []
  end.

(** [int(s)] for a [str]: white space around an optional sign and a run
    of decimal digits. *)
Definition py_int (s : pystr) : int_result :=
  if negb (forallb (fun c => (0 <=? c) && (c <? 128)) s) then NonAscii
  else
    let body := rev (skip_c_space (rev (skip_c_space s))) in
    let neg := match body with c :: _ => c =? 45 | [] => false end in
    let signed := match body with c :: _ => (c =? 45) || (c =? 43) | [] => false end in
    match grouped_digits false (if signed then tl body else body) with
    | Some ds =>
        let u := fst (scan_digits ds) in
        IntOf (Z.of_int (if neg then Neg u else Pos u))
    | None => NotInt
    end.

(** ** The report document *)

Definition TEMPLATE_PATH : pystr := lit "templates/template.docx".

(** The paragraphs of the template the program writes at start-up when
    [TEMPLATE_PATH] does not exist: a heading and three paragraphs. *)
Definition default_template : list pystr :=
  [lit "Отчет по аудиозаписи";
   lit "Дата создания: [DATE]";
   lit "Содержание:";
   lit "[SUMMARY_TEXT]"].

(** python-docx and the clock, as [generate_docx] meets them.  A document
    is seen through the texts of its paragraphs only. *)
Record docx_env : Type := {
  (* Document(path).paragraphs, as their texts *)
  open_document : pystr -> outcome (list pystr);
  (* paragraph.text = s, add_heading(s, 0), add_paragraph(s): the text the
     paragraph reads afterwards, or the exception of the assignment *)
  set_text : pystr -> outcome pystr;
  (* doc.save(path) *)
  save_document : list pystr -> pystr -> outcome unit;
  (* datetime.now().strftime("%d.%m.%Y %H:%M") while the paragraph at a
     given position is filled, and in the handler of the exception *)
  date_at : nat -> pystr;
  date_late : pystr
}.

(** The body of the loop for the paragraph at position [i]. *)
Definition fill_paragraph (env : docx_env) (summary_text : pystr) (i : nat)
    (text : pystr) : outcome pystr :=
  text1 <~ (if is_infix (lit "[SUMMARY_TEXT]") text
            then set_text env (py_replace (lit "[SUMMARY_TEXT]") summary_text text)
            else Ok text) ;;
  if is_infix (lit "[DATE]") text1
  then set_text env (py_replace (lit "[DATE]") (date_at env i) text1)
  else Ok text1.

Fixpoint fill_paragraphs (env : docx_env) (summary_text : pystr) (i : nat)
    (paragraphs : list pystr) : outcome (list pystr) :=
  match paragraphs with
  | [] => Ok []
  | text :: rest =>
      text' <~ fill_paragraph env summary_text i text ;;
      rest' <~ fill_paragraphs env summary_text (S i) rest ;;
      Ok (text' :: rest')
  end.

(** The document of the [except] branch. *)
Definition plain_report (env : docx_env) (summary_text output_path : pystr)
  : outcome (list pystr) :=
  heading <~ set_text env (lit "Отчет") ;;
  date <~ set_text env (lit "Дата: " ++ date_late env) ;;
  body <~ set_text env summary_text ;;
  _ <~ save_document env [heading; date; body] output_path ;;
  Ok [heading; date; body].

(** [generate_docx]: the paragraphs of the document saved at
    [output_path], or the exception that leaves the [except] branch. *)
Definition generate_docx (env : docx_env) (summary_text output_path : pystr)
  : outcome (list pystr) :=
  match
    (doc <~ open_document env TEMPLATE_PATH ;;
     doc' <~ fill_paragraphs env summary_text 0 doc ;;
     _ <~ save_document env doc' output_path ;;
     Ok doc')
  with
  | Ok doc' => Ok doc'
  | Raise _ => plain_report env summary_text output_path
  end.

(** ** Choosing a record and editing its summary *)

(** [context.user_data]: the two keys the handlers write. *)
Record session : Type := {
  selected_record_id : option Z;
  current_summary : option pyval
}.

(** [context.user_data.clear()] *)
Definition cleared : session :=
  {| selected_record_id := None; current_summary := None |}.

Inductive conv_state : Type :=
| EDITING_SUMMARY
| END.            (* ConversationHandler.END *)

(** What leaves a handler: a store or value exception, or the exception
    of reading the callback data. *)
Inductive handler_exn : Type :=
| StoreError (e : exn)
| IndexError
| ValueError
| OutsideModel.

Inductive handled (A : Type) : Type :=
| Done (a : A)
| Failed (e : handler_exn).
Arguments Failed {A}.

Inductive select_reply : Type :=
| RecordNotFound
| RecordChosen (raw_head summary : pystr).

(** [v[:100]] *)
Definition head100 (v : pyval) : outcome pystr :=
  match v with
  | PStr s => Ok (firstn 100 s)
  | PList _ => Raise Unmodelled
  | _ => Raise TypeError
  end.

(** [select_record], the calls of the transport taken to succeed: the
    reply with the next state of the conversation, the session and the
    file after the handler. *)
Definition select_record (data : pystr) (user_id : Z) (ud : session) (d : disk)
  : handled (select_reply * conv_state) * session * disk :=
  match nth_error (py_split 95 data) 1 with
  | None => (Failed IndexError, ud, d)
  | Some piece =>
      match py_int piece with
      | NotInt => (Failed ValueError, ud, d)
      | NonAscii => (Failed OutsideModel, ud, d)
      | IntOf record_id =>
          match get_record_by_id user_id record_id d with
          | (Raise e, d') => (Failed (StoreError e), ud, d')
          | (Ok record, d') =>
              if negb (truthy record) then (Done (RecordNotFound, END), ud, d')
              else
                let ud1 := {| selected_record_id := Some record_id;
                              current_summary := current_summary ud |} in
                match getitem record (lit "summary_text") with
                | Raise e => (Failed (StoreError e), ud1, d')
                | Ok summary =>
                    let ud2 := {| selected_record_id := Some record_id;
                                  current_summary := Some summary |} in
                    match
                      (raw <~ getitem record (lit "raw_text") ;;
                       raw_head <~ head100 raw ;;
                       shown <~ format_value summary ;;
                       Ok (RecordChosen raw_head shown))
                    with
                    | Raise e => (Failed (StoreError e), ud2, d')
                    | Ok reply => (Done (reply, EDITING_SUMMARY), ud2, d')
                    end
                end
          end
      end
  end.

(** What [edit_summary] meets outside the store. *)
Record edit_env : Type := {
  docx : docx_env;
  (* open(output_path, "rb") and reply_document *)
  send_document : pystr -> list pystr -> outcome unit;
  (* the closing reply_text *)
  send_done : outcome unit
}.

Inductive edit_reply : Type :=
| NothingSelected
| DocumentSent (paragraphs : list pystr).

(** [edit_summary] for the text of a message. *)
Definition edit_summary (env : edit_env) (text : pystr) (user_id : Z)
    (ud : session) (d : disk)
  : outcome (edit_reply * conv_state) * session * disk :=
  let new_summary := py_strip text in
  match selected_record_id ud with
  | None => (Ok (NothingSelected, END), ud, d)
  | Some record_id =>
      if record_id =? 0 then (Ok (NothingSelected, END), ud, d)
      else
        match update_summary_text user_id record_id new_summary d with
        | (Raise e, d') => (Raise e, ud, d')
        | (Ok _, d') =>
            let ud1 := {| selected_record_id := selected_record_id ud;
                          current_summary := Some (PStr new_summary) |} in
            let output_path :=
              path_join AUDIO_DIR (lit "report_" ++ intstr record_id ++ lit ".docx") in
            match
              (doc <~ generate_docx (docx env) new_summary output_path ;;
               _ <~ send_document env output_path doc ;;
               Ok doc)
            with
            | Raise e => (Raise e, ud1, d')
            | Ok doc =>
                match send_done env with
                | Raise e => (Raise e, cleared, d')
                | Ok _ => (Ok (DocumentSent doc, END), cleared, d')
                end
            end
        end
  end.

(** [cancel] *)
Definition cancel (ud : session) : session * conv_state := (cleared, END).

(** ** Sample collaborators for the worked cases *)

(** Whisper cannot be imported; the summarizer could be loaded. *)
Definition no_whisper_libs : model_libs unit unit :=
  {| load_whisper := Raise ExternalError;
     load_summarizer := Ok tt;
     transcribe := fun _ _ => Ok (lit "text");
     summarize := fun _ _ => Ok (lit "summary") |}.

Definition nothing_loaded : models unit unit :=
  {| whisper_model := None; summarizer_pipeline := None |}.

(** python-docx with the program's own template in place, a text given
    back as it was set, and a clock that stands still. *)
Definition plain_docx_env : docx_env :=
  {| open_document := fun _ => Ok default_template;
     set_text := fun s => Ok s;
     save_document := fun _ _ => Ok tt;
     date_at := fun _ => lit "03.11.2026 13:00";
     date_late := lit "03.11.2026 13:00" |}.

(** The template is missing. *)
Definition no_template_env : docx_env :=
  {| open_document := fun _ => Raise ExternalError;
     set_text := fun s => Ok s;
     save_document := fun _ _ => Ok tt;
     date_at := fun _ => lit "03.11.2026 13:00";
     date_late := lit "03.11.2026 13:00" |}.

(** python-docx refuses a text with a character XML cannot hold, here the
    form feed. *)
Definition strict_docx_env : docx_env :=
  {| open_document := fun _ => Ok default_template;
     set_text := fun s => if existsb (Z.eqb 12) s then Raise ExternalError else Ok s;
     save_document := fun _ _ => Ok tt;
     date_at := fun _ => lit "03.11.2026 13:00";
     date_late := lit "03.11.2026 13:00" |}.

(** The document cannot be sent. *)
Definition unsent_env : edit_env :=
  {| docx := plain_docx_env;
     send_document := fun _ _ => Raise ExternalError;
     send_done := Ok tt |}.

Definition chosen (record_id : Z) : session :=
  {| selected_record_id := Some record_id; current_summary := None |}.

(** ** A larger store for the worked cases *)

(** A formatter for creation times of the shape [YYYY-MM-DDTHH:MM:SS],
    giving [DD.MM HH:MM]. *)
Definition day_month_time (s : pystr) : outcome pystr :=
  Ok (firstn 2 (skipn 8 s) ++ [46] ++ firstn 2 (skipn 5 s) ++ [32]
      ++ firstn 5 (skipn 11 s)).

(** A record of a day of January 2024. *)
Definition note (id : Z) (day summary : string) : record :=
  {| rec_id := id;
     audio_path := lit "audio/" ++ lit summary ++ lit ".ogg";
     raw_text := lit "raw " ++ lit summary;
     summary_text := lit summary;
     created_at := lit "2024-01-" ++ lit day ++ lit "T10:00:00" |}.

(** User 7 has twelve records, two of them with the id 42 and two of the
    same day; user 8 has one record, with the id 42 as well. *)
Definition busy_user : user :=
  {| username := Some (lit "ann");
     records := [note 41 "05" "a"; note 42 "03" "b"; note 42 "12" "c";
                 note 44 "01" "d"; note 45 "09" "e"; note 46 "09" "f";
                 note 47 "02" "g"; note 48 "11" "h"; note 49 "04" "i";
                 note 50 "08" "j"; note 51 "07" "k"; note 52 "06" "l"] |}.

Definition busy_store : store :=
  [(lit "7", busy_user);
   (lit "8", {| username := None; records := [note 42 "01" "z"] |})].

(** The file [save_data] writes for it. *)
Definition busy_disk : disk := snd (save_data (encode_store busy_store) None).

(** A file some other tool wrote: user 1 has a lone surrogate, escaped,
    for a name; user 7 has one record. *)
Definition mixed_disk : disk :=
  Some (quoted "{'users': {'1': {'username': '\ud800', 'records': []}, '7': {'username': 'ann', 'records': [{'id': 42, 'audio_path': 'audio/a.ogg', 'raw_text': 'raw', 'summary_text': 'old', 'created_at': '2024-01-01T10:00:00'}]}}}").

Definition mixed_record : pyval :=
  PDict [(lit "id", PInt 42); (lit "audio_path", PStr (lit "audio/a.ogg"));
         (lit "raw_text", PStr (lit "raw")); (lit "summary_text", PStr (lit "old"));
         (lit "created_at", PStr (lit "2024-01-01T10:00:00"))].

Definition mixed_value : pyval :=
  PDict [(lit "users",
          PDict [(lit "1", PDict [(lit "username", PStr [55296]);
                                  (lit "records", PList [])]);
                 (lit "7", PDict [(lit "username", PStr (lit "ann"));
                                  (lit "records", PList [mixed_record])])])].

(** ** Limits of the interpreter, as conditions on a text or a store *)

(** No run of decimal digits of the text is longer than [n]. *)
Fixpoint digit_runs_within (n run : nat) (s : pystr) : bool :=
  match s with
  | [] => true
  | c :: t =>
      if digit c then (S run <=? n)%nat && digit_runs_within n (S run) t
      else digit_runs_within n 0 t
  end.

(** The number of opening brackets and braces of the text, which bounds
    its nesting. *)
Definition openings (s : pystr) : nat :=
  length (filter (fun c => (c =? 91) || (c =? 123)) s).

(** Every record id of the store can be written by [int.__repr__]: it has
    at most 4300 decimal digits. *)
Definition ids_writable (st : store) : Prop :=
  Forall (fun ku => Forall (fun r => Z.abs (rec_id r) < 10 ^ 4300) (records (snd ku))) st.

(** ** Tactics *)

(** Case analysis on every comparison of the goal. *)
Ltac decide_cmp :=
  repeat match goal with
  | |- context [?a <? ?b] =>
      let E := fresh in destruct (Z.ltb_spec a b) as [E|E]; try lia; clear E
  | |- context [?a <=? ?b] =>
      let E := fresh in destruct (Z.leb_spec a b) as [E|E]; try lia; clear E
  end.

(** String literals of the goal, evaluated. *)
Ltac eval_lits :=
  repeat match goal with
  | |- context [lit ?s] =>
      let v := eval vm_compute in (lit s) in change (lit s) with v
  end.
(** * Proofs *)

Unset Implicit Arguments.

(** ** UTF-8 *)

Lemma Z_of_byte_of_Z (z : Z) : 0 <= z < 256 -> Z_of_byte (byte_of_Z z) = z.
Proof.
  intros Hz. unfold Z_of_byte, byte_of_Z.
  destruct (Byte.of_N (Z.to_N z)) as [b|] eqn:E.
  - apply Byte.to_of_N in E. rewrite E. lia.
  - apply Byte.of_N_None_iff in E. lia.
Qed.

Lemma Z_of_byte_range (b : byte) : 0 <= Z_of_byte b < 256.
Proof.
  unfold Z_of_byte. pose proof (Byte.to_N_bounded b). lia.
Qed.

Lemma scalar_range (c : Z) :
  scalar c = true -> 0 <= c < 1114112 /\ (c < 55296 \/ 57343 < c).
Proof.
  unfold scalar. intros H.
  apply andb_true_iff in H as [H H3]. apply andb_true_iff in H as [H1 H2].
  apply negb_true_iff, andb_false_iff in H3. lia.
Qed.

Lemma utf8_decode_1 (c : Z) (rest : list byte) :
  0 <= c < 128 ->
  utf8_decode (byte_of_Z c :: rest) = cons_opt c (utf8_decode rest).
Proof.
  intros Hc. cbn [utf8_decode]. rewrite Z_of_byte_of_Z by lia.
  now decide_cmp.
Qed.

Lemma utf8_decode_2 (c : Z) (rest : list byte) :
  128 <= c < 2048 ->
  utf8_decode (byte_of_Z (192 + c / 64) :: byte_of_Z (128 + c mod 64) :: rest)
  = cons_opt c (utf8_decode rest).
Proof.
  intros Hc.
  assert (2 <= c / 64 < 32)
    by (split; [apply Z.div_le_lower_bound | apply Z.div_lt_upper_bound]; lia).
  pose proof (Z.mod_pos_bound c 64 ltac:(lia)).
  cbn [utf8_decode]. unfold is_cont, cont.
  rewrite !Z_of_byte_of_Z by lia.
  replace ((192 + c / 64 - 192) * 64 + (128 + c mod 64 - 128)) with c
    by (pose proof (Z.div_mod c 64 ltac:(lia)); lia).
  now decide_cmp.
Qed.

Lemma utf8_decode_3 (c : Z) (rest : list byte) :
  2048 <= c < 65536 -> scalar c = true ->
  utf8_decode (byte_of_Z (224 + c / 4096) :: byte_of_Z (128 + (c / 64) mod 64)
               :: byte_of_Z (128 + c mod 64) :: rest)
  = cons_opt c (utf8_decode rest).
Proof.
  intros Hc Hs.
  assert (0 <= c / 4096 < 16)
    by (split; [apply Z.div_le_lower_bound | apply Z.div_lt_upper_bound]; lia).
  pose proof (Z.mod_pos_bound c 64 ltac:(lia)).
  pose proof (Z.mod_pos_bound (c / 64) 64 ltac:(lia)).
  cbn [utf8_decode]. unfold is_cont, cont.
  rewrite !Z_of_byte_of_Z by lia.
  replace ((224 + c / 4096 - 224) * 4096 + (128 + (c / 64) mod 64 - 128) * 64
           + (128 + c mod 64 - 128)) with c.
  2:{ pose proof (Z.div_mod c 64 ltac:(lia)).
      pose proof (Z.div_mod (c / 64) 64 ltac:(lia)).
      rewrite Z.div_div in * by lia. change (64 * 64) with 4096 in *. lia. }
  rewrite Hs. now decide_cmp.
Qed.

Lemma utf8_decode_4 (c : Z) (rest : list byte) :
  65536 <= c < 1114112 -> scalar c = true ->
  utf8_decode (byte_of_Z (240 + c / 262144) :: byte_of_Z (128 + (c / 4096) mod 64)
               :: byte_of_Z (128 + (c / 64) mod 64) :: byte_of_Z (128 + c mod 64)
               :: rest)
  = cons_opt c (utf8_decode rest).
Proof.
  intros Hc Hs.
  assert (0 <= c / 262144 < 8)
    by (split; [apply Z.div_le_lower_bound | apply Z.div_lt_upper_bound]; lia).
  pose proof (Z.mod_pos_bound c 64 ltac:(lia)).
  pose proof (Z.mod_pos_bound (c / 64) 64 ltac:(lia)).
  pose proof (Z.mod_pos_bound (c / 4096) 64 ltac:(lia)).
  cbn [utf8_decode]. unfold is_cont, cont.
  rewrite !Z_of_byte_of_Z by lia.
  replace ((240 + c / 262144 - 240) * 262144 + (128 + (c / 4096) mod 64 - 128) * 4096
           + (128 + (c / 64) mod 64 - 128) * 64 + (128 + c mod 64 - 128)) with c.
  2:{ pose proof (Z.div_mod c 64 ltac:(lia)).
      pose proof (Z.div_mod (c / 64) 64 ltac:(lia)).
      pose proof (Z.div_mod (c / 64 / 64) 64 ltac:(lia)).
      rewrite !Z.div_div in * by lia.
      change (64 * 64) with 4096 in *. change (4096 * 64) with 262144 in *. lia. }
  rewrite Hs. now decide_cmp.
Qed.

Lemma utf8_decode_char (c : Z) (b : list byte) (rest : list byte) :
  utf8_encode_char c = Some b ->
  utf8_decode (b ++ rest) = cons_opt c (utf8_decode rest).
Proof.
  unfold utf8_encode_char. intros H.
  destruct (scalar c) eqn:Hs; [|discriminate]. cbn [negb] in H.
  pose proof (scalar_range _ Hs) as [Hr Hsur].
  destruct (Z.ltb_spec c 128).
  { assert (b = [byte_of_Z c]) as -> by congruence.
    apply utf8_decode_1; lia. }
  destruct (Z.ltb_spec c 2048).
  { assert (b = [byte_of_Z (192 + c / 64); byte_of_Z (128 + c mod 64)]) as ->
      by congruence.
    apply utf8_decode_2; lia. }
  destruct (Z.ltb_spec c 65536).
  { assert (b = [byte_of_Z (224 + c / 4096); byte_of_Z (128 + (c / 64) mod 64);
                 byte_of_Z (128 + c mod 64)]) as -> by congruence.
    apply utf8_decode_3; [lia | assumption]. }
  assert (b = [byte_of_Z (240 + c / 262144); byte_of_Z (128 + (c / 4096) mod 64);
               byte_of_Z (128 + (c / 64) mod 64); byte_of_Z (128 + c mod 64)]) as ->
    by congruence.
  apply utf8_decode_4; [lia | assumption].
Qed.

Lemma utf8_decode_encode (s : pystr) (bs : list byte) :
  utf8_encode s = Some bs -> utf8_decode bs = Some s.
Proof.
  revert bs. induction s as [|c s IH]; intros bs H; cbn [utf8_encode] in H.
  - now injection H as <-.
  - destruct (utf8_encode_char c) as [b|] eqn:Ec; [|discriminate].
    destruct (utf8_encode s) as [bs'|] eqn:Es; [|discriminate].
    injection H as <-.
    rewrite (utf8_decode_char _ _ _ Ec), (IH _ eq_refl). reflexivity.
Qed.

Lemma utf8_encode_valid (s : pystr) :
  valid_text s -> exists bs, utf8_encode s = Some bs.
Proof.
  induction 1 as [|c s Hc _ [bs IH]]; cbn [utf8_encode].
  - now exists [].
  - unfold utf8_encode_char. rewrite Hc, IH. cbn [negb].
    repeat match goal with |- context [if ?b then _ else _] => destruct b end;
      eexists; reflexivity.
Qed.


(** ** Strings and dictionaries *)

Lemma str_eqb_eq (a b : pystr) : str_eqb a b = true <-> a = b.
Proof.
  revert b. induction a as [|x a IH]; intros [|y b]; cbn [str_eqb];
    try (split; [discriminate | discriminate]); try tauto.
  rewrite andb_true_iff, Z.eqb_eq, IH. split.
  - now intros [-> ->].
  - intros H. injection H as -> ->. auto.
Qed.

Lemma str_eqb_refl (a : pystr) : str_eqb a a = true.
Proof. now apply str_eqb_eq. Qed.

Lemma str_eqb_neq (a b : pystr) : a <> b -> str_eqb a b = false.
Proof.
  intros H. destruct (str_eqb a b) eqn:E; [|reflexivity].
  apply str_eqb_eq in E. contradiction.
Qed.

Lemma dict_set_fresh (d : list (pystr * pyval)) (k : pystr) (v : pyval) :
  ~ In k (map fst d) -> dict_set d k v = d ++ [(k, v)].
Proof.
  induction d as [|[k' v'] d IH]; cbn [dict_set map fst In app]; intros H.
  - reflexivity.
  - rewrite str_eqb_neq by (intros ->; apply H; now left).
    rewrite IH by tauto. reflexivity.
Qed.

Lemma dict_of_pairs_nodup (d : list (pystr * pyval)) :
  NoDup (map fst d) -> dict_of_pairs d = d.
Proof.
  unfold dict_of_pairs.
  enough (G : forall acc, NoDup (map fst (acc ++ d)) ->
              fold_left (fun d0 kv => dict_set d0 (fst kv) (snd kv)) d acc = acc ++ d)
    by (intros H; apply (G [] H)).
  induction d as [|[k v] d IH]; intros acc H; cbn [fold_left fst snd].
  - now rewrite app_nil_r.
  - rewrite dict_set_fresh.
    + rewrite IH; rewrite <- app_assoc; [reflexivity | exact H].
    + rewrite map_app in H. cbn [map fst] in H.
      apply NoDup_remove_2 in H. intros Hin. apply H.
      apply in_or_app. now left.
Qed.

Lemma dict_get_set_same (d : list (pystr * pyval)) (k : pystr) (v : pyval) :
  dict_get (dict_set d k v) k = Some v.
Proof.
  induction d as [|[k' v'] d IH]; cbn [dict_set dict_get].
  - now rewrite str_eqb_refl.
  - destruct (str_eqb k k') eqn:E; cbn [dict_get]; rewrite E; auto.
Qed.

Lemma dict_get_set_other (d : list (pystr * pyval)) (k k0 : pystr) (v : pyval) :
  k0 <> k -> dict_get (dict_set d k v) k0 = dict_get d k0.
Proof.
  intros Hne. induction d as [|[k' v'] d IH]; cbn [dict_set dict_get].
  - now rewrite str_eqb_neq.
  - destruct (str_eqb k k') eqn:E; cbn [dict_get].
    + apply str_eqb_eq in E. subst k'. now rewrite str_eqb_neq.
    + now rewrite IH.
Qed.



(** ** Scanning what the encoder wrote *)

Lemma pyval_induction (P : pyval -> Prop) :
  P PNone ->
  (forall b, P (PBool b)) ->
  (forall z, P (PInt z)) ->
  (forall s, P (PStr s)) ->
  (forall l, Forall P l -> P (PList l)) ->
  (forall d, Forall (fun kv => P (snd kv)) d -> P (PDict d)) ->
  forall v, P v.
Proof.
  intros HN HB HI HS HL HD.
  fix IH 1. intros [ | b | z | s | l | d ].
  - exact HN.
  - apply HB.
  - apply HI.
  - apply HS.
  - apply HL. induction l as [|x l IHl]; constructor; [apply IH | exact IHl].
  - apply HD. induction d as [|[k x] d IHd]; constructor; [apply IH | exact IHd].
Qed.

Lemma hex_escape (c : Z) (rest : pystr) :
  0 <= c < 32 ->
  scanstring (92 :: 117 :: 48 :: 48 :: hexdigit (c / 16) :: hexdigit (c mod 16) :: rest)
  = pmap (cons c) (scanstring rest).
Proof.
  intros Hc.
  assert (H : In c (map Z.of_nat (seq 0 32))).
  { replace c with (Z.of_nat (Z.to_nat c)) by lia.
    apply in_map, in_seq. lia. }
  cbn in H.
  repeat (destruct H as [<-|H]; [reflexivity|]). contradiction.
Qed.

Lemma scanstring_escape_char (c : Z) (rest : pystr) :
  0 <= c -> scanstring (escape_char c ++ rest) = pmap (cons c) (scanstring rest).
Proof.
  intros Hc. unfold escape_char.
  destruct (Z.eqb_spec c 34) as [->|]; [reflexivity|].
  destruct (Z.eqb_spec c 92) as [->|]; [reflexivity|].
  destruct (Z.eqb_spec c 10) as [->|]; [reflexivity|].
  destruct (Z.eqb_spec c 13) as [->|]; [reflexivity|].
  destruct (Z.eqb_spec c 9) as [->|]; [reflexivity|].
  destruct (Z.eqb_spec c 8) as [->|]; [reflexivity|].
  destruct (Z.eqb_spec c 12) as [->|]; [reflexivity|].
  destruct (Z.leb_spec 0 c); [|lia].
  destruct (Z.ltb_spec c 32); cbn [andb].
  - apply hex_escape. lia.
  - cbn [List.app scanstring].
    destruct (Z.eqb_spec c 34); [lia|]. destruct (Z.eqb_spec c 92); [lia|].
    destruct (Z.leb_spec 0 c); [|lia]. destruct (Z.ltb_spec c 32); [lia|].
    reflexivity.
Qed.

Lemma scanstring_escape (s rest : pystr) :
  Forall (fun c => 0 <= c) s ->
  scanstring (flat_map escape_char s ++ 34 :: rest) = Parsed s rest.
Proof.
  induction 1 as [|c s Hc _ IH]; cbn [flat_map].
  - reflexivity.
  - rewrite <- app_assoc, scanstring_escape_char, IH by assumption. reflexivity.
Qed.

Lemma valid_text_nonneg (s : pystr) : valid_text s -> Forall (fun c => 0 <= c) s.
Proof.
  unfold valid_text. apply Forall_impl. intros c Hc.
  apply scalar_range in Hc. lia.
Qed.

Lemma scan_string (f : nat) (s rest : pystr) :
  Forall (fun c => 0 <= c) s ->
  scan_once (S f) (encode_basestring s ++ rest) = Parsed (PStr s) rest.
Proof.
  intros H. unfold encode_basestring. cbn [List.app scan_once].
  rewrite <- app_assoc. cbn [List.app Z.eqb Pos.eqb].
  now rewrite scanstring_escape.
Qed.

Lemma stop_nondigit (rest : pystr) : stop rest -> nondigit_head rest.
Proof. destruct rest as [|c r]; [easy|]. cbn. now intros [->| ->]. Qed.

Lemma stop_no_float (rest : pystr) : stop rest -> float_follows rest = false.
Proof.
  destruct rest as [|c [|d r]]; [easy | easy |]. cbn [stop float_follows].
  now intros [->| ->].
Qed.

Lemma scan_digits_uint (u : uint) (rest : pystr) :
  nondigit_head rest -> scan_digits (uint_chars u ++ rest) = (u, rest).
Proof.
  intros Hr. induction u; cbn [uint_chars List.app];
    try (cbn [scan_digits]; rewrite IHu; reflexivity).
  destruct rest as [|c r]; [reflexivity|]. cbn [scan_digits]. cbn in Hr.
  now rewrite Hr.
Qed.

Lemma unorm_head (u u' : uint) : unorm u = D0 u' -> u' = Nil.
Proof.
  induction u; cbn [unorm]; intros H; try discriminate; auto.
  now injection H as <-.
Qed.

Lemma to_uint_head (p : positive) :
  exists c t, uint_chars (Pos.to_uint p) = c :: t
              /\ digit c = true /\ c <> 48 /\ c <> 45.
Proof.
  assert (Hn : unorm (Pos.to_uint p) = Pos.to_uint p).
  { rewrite <- (DecimalPos.Unsigned.to_of (Pos.to_uint p)).
    now rewrite DecimalPos.Unsigned.of_to. }
  pose proof (DecimalPos.Unsigned.to_uint_nonzero p) as Hz.
  pose proof (DecimalPos.Unsigned.to_uint_nonnil p) as Hnil.
  destruct (Pos.to_uint p) as [|u|u|u|u|u|u|u|u|u|u]; [contradiction| |..];
    try (cbn [uint_chars]; do 2 eexists; repeat split; try reflexivity; lia).
  apply unorm_head in Hn. subst u. now elim Hz.
Qed.

Lemma match_number_intstr (z : Z) (rest : pystr) :
  stop rest -> match_number (intstr z ++ rest) = Parsed (PInt z) rest.
Proof.
  intros Hr. pose proof (stop_no_float _ Hr) as Hf.
  pose proof (stop_nondigit _ Hr) as Hd.
  unfold intstr. destruct z as [|p|p]; cbn [Z.to_int].
  - cbn. unfold finish_number. now rewrite Hf.
  - destruct (to_uint_head p) as (c & t & E & Hc & H48 & H45).
    unfold match_number. rewrite E. cbn [List.app tl].
    destruct (Z.eqb_spec c 45); [contradiction|].
    destruct (Z.eqb_spec c 48); [contradiction|]. rewrite Hc.
    change (c :: t ++ rest) with ((c :: t) ++ rest). rewrite <- E.
    rewrite scan_digits_uint by assumption.
    unfold finish_number. rewrite Hf.
    change (Z.of_int (Pos (Pos.to_uint p))) with (Z.of_int (Z.to_int (Z.pos p))).
    now rewrite DecimalZ.of_to.
  - destruct (to_uint_head p) as (c & t & E & Hc & H48 & H45).
    unfold match_number. cbn [List.app tl Z.eqb Pos.eqb]. rewrite E.
    cbn [List.app]. destruct (Z.eqb_spec c 48); [contradiction|]. rewrite Hc.
    change (c :: t ++ rest) with ((c :: t) ++ rest). rewrite <- E.
    rewrite scan_digits_uint by assumption.
    unfold finish_number. rewrite Hf.
    change (Z.of_int (Neg (Pos.to_uint p))) with (Z.of_int (Z.to_int (Z.neg p))).
    now rewrite DecimalZ.of_to.
Qed.

Lemma intstr_head (z : Z) :
  exists c t, intstr z = c :: t /\ (digit c = true \/ c = 45).
Proof.
  unfold intstr. destruct z as [|p|p]; cbn [Z.to_int].
  - cbn. eauto.
  - destruct (to_uint_head p) as (c & t & E & Hc & _). rewrite E. eauto.
  - cbn. eauto.
Qed.

Lemma scan_int (f : nat) (z : Z) (rest : pystr) :
  stop rest -> scan_once (S f) (intstr z ++ rest) = Parsed (PInt z) rest.
Proof.
  intros Hr. pose proof (match_number_intstr z rest Hr) as Hm.
  destruct (intstr_head z) as (c & t & E & Hc). rewrite E in *.
  cbn [List.app] in *. cbn [scan_once]. eval_lits. cbn [starts_with].
  assert (Hcs : (c =? 34) = false /\ (c =? 123) = false /\ (c =? 91) = false
                /\ (110 =? c) = false /\ (116 =? c) = false /\ (102 =? c) = false).
  { unfold digit in Hc. repeat split; apply Z.eqb_neq; lia. }
  destruct Hcs as (-> & -> & -> & -> & -> & ->). now rewrite Hm.
Qed.

Lemma skip_ws_stay (c : Z) (r : pystr) : is_ws c = false -> skip_ws (c :: r) = c :: r.
Proof. intros H. cbn [skip_ws]. now rewrite H. Qed.

Lemma skip_ws_spaces (n : nat) (r : pystr) : skip_ws (repeat 32 n ++ r) = skip_ws r.
Proof. induction n as [|n IH]; [reflexivity|]. cbn [repeat List.app skip_ws]. exact IH. Qed.

Lemma skip_ws_newline_indent (n : nat) (r : pystr) :
  skip_ws (newline_indent n ++ r) = skip_ws r.
Proof. unfold newline_indent. cbn [List.app skip_ws]. apply skip_ws_spaces. Qed.

Lemma atom_iterencode (level : nat) (v : pyval) (t : pystr) :
  atom v = Some t -> iterencode level v = [t].
Proof.
  destruct v as [ | [|] | z | s | l | d ]; cbn [atom iterencode]; intros H;
    try discriminate; now injection H as <-.
Qed.

Lemma text_atom (level : nat) (v : pyval) (t : pystr) :
  atom v = Some t -> text level v = t.
Proof.
  intros H. unfold text. rewrite (atom_iterencode level v t H).
  cbn [concat]. apply app_nil_r.
Qed.

Lemma concat_value_chunks (level : nat) (buf : pystr) (v : pyval) :
  concat (value_chunks (iterencode level) buf v) = buf ++ text level v.
Proof.
  unfold value_chunks, text. destruct (atom v) as [t|] eqn:E.
  - rewrite (atom_iterencode level v t E). cbn [concat]. now rewrite !app_nil_r.
  - reflexivity.
Qed.

Lemma concat_list_chunks (level : nat) (nl : pystr) (first : bool)
    (x : pyval) (xs : list pyval) :
  concat (list_chunks (iterencode level) nl first (x :: xs))
  = ((if first then 91 else 44) :: nl) ++ text level x
    ++ concat (list_chunks (iterencode level) nl false xs).
Proof.
  cbn [list_chunks]. rewrite concat_app, concat_value_chunks.
  now rewrite <- app_assoc.
Qed.

Lemma concat_dict_chunks (level : nat) (nl : pystr) (first : bool)
    (k : pystr) (x : pyval) (xs : list (pystr * pyval)) :
  concat (dict_chunks (iterencode level) nl first ((k, x) :: xs))
  = (if first then [] else 44 :: nl) ++ encode_basestring k ++ 58 :: 32
    :: text level x ++ concat (dict_chunks (iterencode level) nl false xs).
Proof.
  cbn [dict_chunks]. rewrite concat_app. f_equal.
  - destruct first; [reflexivity|]. cbn [concat]. apply app_nil_r.
  - cbn [concat]. f_equal. f_equal. rewrite concat_app. f_equal.
    unfold text. destruct (atom x) as [t|] eqn:E; [|reflexivity].
    now rewrite (atom_iterencode level x t E).
Qed.

Lemma text_list (level : nat) (x : pyval) (xs : list pyval) :
  text level (PList (x :: xs))
  = 91 :: newline_indent (S level) ++ text (S level) x
    ++ concat (list_chunks (iterencode (S level)) (newline_indent (S level)) false xs)
    ++ newline_indent level ++ [93].
Proof.
  unfold text at 1. cbn [iterencode].
  rewrite concat_app, concat_list_chunks. cbn [concat].
  rewrite app_nil_r. rewrite <- !app_assoc. reflexivity.
Qed.

Lemma text_dict (level : nat) (k : pystr) (x : pyval) (xs : list (pystr * pyval)) :
  text level (PDict ((k, x) :: xs))
  = 123 :: newline_indent (S level) ++ encode_basestring k ++ 58 :: 32
    :: text (S level) x
    ++ concat (dict_chunks (iterencode (S level)) (newline_indent (S level)) false xs)
    ++ newline_indent level ++ [125].
Proof.
  unfold text at 1. cbn [iterencode concat].
  rewrite concat_app, concat_dict_chunks. cbn [concat List.app].
  rewrite <- !app_assoc. cbn [List.app]. rewrite <- !app_assoc. reflexivity.
Qed.

(** A dumped value starts with a character that is neither white space
    nor a closing bracket. *)
Lemma text_head (level : nat) (v : pyval) :
  exists c t, text level v = c :: t
              /\ is_ws c = false /\ c <> 93 /\ c <> 125.
Proof.
  destruct v as [ | [|] | z | s | [|x l] | [|[k x] d] ];
    try (unfold text; cbn [iterencode]; eval_lits; cbn [concat List.app];
         do 2 eexists; split; [reflexivity|]; repeat split; discriminate).
  - destruct (intstr_head z) as (c & t & E & Hc).
    exists c, t. rewrite (text_atom level (PInt z) _ eq_refl). split; [exact E|].
    unfold digit, is_ws in *.
    destruct Hc as [Hc|Hc];
      [|subst c; repeat split; first [reflexivity | discriminate]].
    apply andb_true_iff in Hc as [H1 H2]. apply Z.leb_le in H1, H2.
    repeat split; lia.
  - rewrite text_list. do 2 eexists. split; [reflexivity|].
    repeat split; discriminate.
Qed.

Lemma scan_atom (f : nat) (v : pyval) (t rest : pystr) :
  atom v = Some t -> storable v -> stop rest ->
  scan_once (S f) (t ++ rest) = Parsed v rest.
Proof.
  intros Ha Hs Hr.
  destruct v as [ | [|] | z | s | l | d ]; cbn [atom] in Ha; try discriminate;
    injection Ha as <-.
  - reflexivity.
  - reflexivity.
  - reflexivity.
  - now apply scan_int.
  - apply scan_string. inversion Hs; subst. now apply valid_text_nonneg.
Qed.

Lemma skip_ws_text (level : nat) (v : pyval) (r : pystr) :
  skip_ws (text level v ++ r) = text level v ++ r.
Proof.
  destruct (text_head level v) as (c & t & E & Hc & _). rewrite E.
  cbn [List.app]. now apply skip_ws_stay.
Qed.

Lemma list_chunks_stop (level n : nat) (nl : pystr) (xs : list pyval) (r : pystr) :
  stop (concat (list_chunks (iterencode level) nl false xs) ++ newline_indent n ++ r).
Proof.
  destruct xs as [|y ys]; [now right|].
  rewrite concat_list_chunks. now left.
Qed.

Lemma dict_chunks_stop (level n : nat) (nl : pystr) (xs : list (pystr * pyval))
    (r : pystr) :
  stop (concat (dict_chunks (iterencode level) nl false xs) ++ newline_indent n ++ r).
Proof.
  destruct xs as [|[k y] ys]; [now right|].
  rewrite concat_dict_chunks. now left.
Qed.

Lemma array_items_text (f level level' : nat) (xs : list pyval) :
  forall (x : pyval) (n : nat) (rest : pystr),
    Forall scans_back (x :: xs) ->
    Forall (fun y => (size y < f)%nat) (x :: xs) ->
    (length (x :: xs) <= n)%nat ->
    array_items (scan_once f) n
      (text level x
       ++ concat (list_chunks (iterencode level) (newline_indent level) false xs)
       ++ newline_indent level' ++ 93 :: rest)
    = Parsed (x :: xs) rest.
Proof.
  induction xs as [|y ys IH]; intros x n rest Hb Hs Hn;
    (destruct n as [|n]; [cbn in Hn; lia|]);
    inversion Hb as [|? ? Hx Hb']; inversion Hs as [|? ? Hsx Hs']; subst;
    cbn [array_items].
  - rewrite (Hx f level _ Hsx (list_chunks_stop level _ _ [] _)).
    cbn [list_chunks concat List.app].
    rewrite skip_ws_newline_indent. now rewrite skip_ws_stay.
  - rewrite (Hx f level _ Hsx (list_chunks_stop level _ _ (y :: ys) _)).
    rewrite concat_list_chunks. rewrite <- !app_assoc. cbn [List.app].
    rewrite skip_ws_stay by reflexivity.
    cbn [Z.eqb Pos.eqb]. rewrite skip_ws_newline_indent, skip_ws_text.
    rewrite IH; [reflexivity | assumption | assumption | cbn in *; lia].
Qed.

Lemma object_items_step (f n : nat) (k : pystr) (x : pyval) (level : nat)
    (r : pystr) :
  valid_text k -> scans_back x -> (size x < f)%nat -> stop r ->
  object_items (scan_once f) (S n) (encode_basestring k ++ 58 :: 32 :: text level x ++ r)
  = match skip_ws r with
    | c2 :: r3 =>
        if c2 =? 125 then Parsed [(k, x)] r3
        else if c2 =? 44
             then pmap (cons (k, x)) (object_items (scan_once f) n (skip_ws r3))
             else Malformed
    | [] => Malformed
    end.
Proof.
  intros Hk Hx Hs Hr. unfold encode_basestring.
  cbn [object_items List.app Z.eqb Pos.eqb].
  rewrite <- app_assoc. cbn [List.app].
  rewrite scanstring_escape by (now apply valid_text_nonneg).
  cbn [skip_ws is_ws Z.eqb Pos.eqb orb].
  rewrite skip_ws_text. now rewrite (Hx f level r Hs Hr).
Qed.

Lemma object_items_text (f level level' : nat) (xs : list (pystr * pyval)) :
  forall (k : pystr) (x : pyval) (n : nat) (rest : pystr),
    Forall (fun kv => scans_back (snd kv)) ((k, x) :: xs) ->
    Forall (fun kv => (size (snd kv) < f)%nat) ((k, x) :: xs) ->
    Forall (fun kv => valid_text (fst kv)) ((k, x) :: xs) ->
    (length ((k, x) :: xs) <= n)%nat ->
    object_items (scan_once f) n
      (encode_basestring k ++ 58 :: 32 :: text level x
       ++ concat (dict_chunks (iterencode level) (newline_indent level) false xs)
       ++ newline_indent level' ++ 125 :: rest)
    = Parsed ((k, x) :: xs) rest.
Proof.
  induction xs as [|[k' y] ys IH]; intros k x n rest Hb Hs Hk Hn;
    (destruct n as [|n]; [cbn in Hn; lia|]);
    inversion Hb as [|? ? Hx Hb']; inversion Hs as [|? ? Hsx Hs'];
    inversion Hk as [|? ? Hkx Hk']; subst; cbn [fst snd] in *;
    rewrite object_items_step by (auto using dict_chunks_stop).
  - cbn [dict_chunks concat List.app].
    rewrite skip_ws_newline_indent. now rewrite skip_ws_stay.
  - rewrite concat_dict_chunks. rewrite <- !app_assoc. cbn [List.app].
    rewrite skip_ws_stay by reflexivity.
    cbn [Z.eqb Pos.eqb]. rewrite skip_ws_newline_indent.
    unfold encode_basestring at 1. cbn [List.app].
    rewrite skip_ws_stay by reflexivity.
    change (34 :: (flat_map escape_char k' ++ [34]) ++ ?r)
      with (encode_basestring k' ++ r).
    rewrite <- !app_assoc.
    rewrite IH; [reflexivity | assumption | assumption | assumption | cbn in *; lia].
Qed.

Lemma size_le_sum (x : pyval) (l : list pyval) :
  In x l -> (size x <= list_sum (map size l))%nat.
Proof.
  unfold list_sum. induction l as [|y l IH]; cbn [In map fold_right]; [easy|].
  intros [->|H]; [lia | specialize (IH H); lia].
Qed.

Lemma size_pos (v : pyval) : (1 <= size v)%nat.
Proof. destruct v; cbn [size]; lia. Qed.

Lemma length_le_sum (l : list pyval) : (length l <= list_sum (map size l))%nat.
Proof.
  unfold list_sum. induction l as [|y l IH]; cbn [length map fold_right]; [lia|].
  pose proof (size_pos y). lia.
Qed.

Lemma size_le_sum_snd (k : pystr) (x : pyval) (d : list (pystr * pyval)) :
  In (k, x) d -> (size x <= list_sum (map (fun kv => size (snd kv)) d))%nat.
Proof.
  unfold list_sum. induction d as [|[k0 y] d IH]; cbn [In map fold_right snd]; [easy|].
  intros [H|H]; [injection H as -> ->; lia | specialize (IH H); lia].
Qed.

Lemma length_le_sum_snd (d : list (pystr * pyval)) :
  (length d <= list_sum (map (fun kv => size (snd kv)) d))%nat.
Proof.
  unfold list_sum. induction d as [|[k0 y] d IH]; cbn [length map fold_right snd]; [lia|].
  pose proof (size_pos y). lia.
Qed.

Lemma scan_text (v : pyval) : storable v -> scans_back v.
Proof.
  induction v as [ | b | z | s | l IH | d IH ] using pyval_induction;
    intros Hst f level rest Hf Hr.
  1-4: destruct f as [|f]; [cbn in Hf; lia|].
  2: destruct b.
  1-5: match goal with |- context [text _ ?v] =>
         rewrite (text_atom level v _ eq_refl);
         apply (scan_atom f v); [reflexivity | assumption | assumption]
       end.
  - destruct f as [|f]; [cbn in Hf; lia|].
    destruct l as [|x xs]; [reflexivity|].
    cbn [size] in Hf. inversion Hst as [ | | | | ? Hl | ]; subst.
    rewrite text_list. cbn [List.app scan_once Z.eqb Pos.eqb].
    rewrite <- !app_assoc. cbn [List.app].
    unfold parse_array. rewrite skip_ws_newline_indent, skip_ws_text.
    destruct (text_head (S level) x) as (c & t & E & _ & H93 & _).
    rewrite E at 1. cbn [List.app].
    destruct (Z.eqb_spec c 93); [contradiction|].
    change (c :: t ++ ?r) with ((c :: t) ++ r). rewrite <- E.
    cbn [List.app].
    rewrite array_items_text with (level' := level); [reflexivity | | | ].
    + clear - IH Hl. induction IH as [|y l Hy _ IHl]; [constructor|].
      inversion Hl; subst. constructor; auto.
    + apply Forall_forall. intros y Hy.
      pose proof (size_le_sum y (x :: xs) Hy). lia.
    + pose proof (length_le_sum (x :: xs)). lia.
  - destruct f as [|f]; [cbn in Hf; lia|].
    destruct d as [|[k x] xs]; [reflexivity|].
    cbn [size] in Hf. inversion Hst as [ | | | | | ? Hnd Hd ]; subst.
    rewrite text_dict. cbn [List.app scan_once Z.eqb Pos.eqb].
    rewrite <- !app_assoc. cbn [List.app].
    unfold parse_object. rewrite skip_ws_newline_indent.
    unfold encode_basestring at 1. cbn [List.app].
    rewrite skip_ws_stay by reflexivity. cbn [Z.eqb Pos.eqb].
    change (34 :: (flat_map escape_char k ++ [34]) ++ ?r)
      with (encode_basestring k ++ r).
    rewrite <- !app_assoc. cbn [List.app].
    rewrite object_items_text with (level' := level).
    + cbn [pmap]. now rewrite dict_of_pairs_nodup.
    + clear - IH Hd. induction IH as [|y l Hy _ IHl]; [constructor|].
      inversion Hd as [|? ? [_ ?] ?]; subst. constructor; auto.
    + apply Forall_forall. intros [k' y] Hy. cbn [snd].
      pose proof (size_le_sum_snd _ _ _ Hy). lia.
    + eapply Forall_impl; [|exact Hd]. now intros kv [H _].
    + pose proof (length_le_sum_snd ((k, x) :: xs)). lia.
Qed.

(** ** The file gives back what was saved *)

Lemma length_list_chunks (level : nat) (nl : pystr) (first : bool) (xs : list pyval) :
  Forall (fun x => (size x <= length (text level x))%nat) xs ->
  (list_sum (map size xs)
   <= length (concat (list_chunks (iterencode level) nl first xs)))%nat.
Proof.
  intros H. revert first. unfold list_sum.
  induction H as [|x xs Hx _ IH]; intros first; [cbn; lia|].
  rewrite concat_list_chunks. cbn [map fold_right].
  rewrite !length_app. specialize (IH false). lia.
Qed.

Lemma length_dict_chunks (level : nat) (nl : pystr) (first : bool)
    (xs : list (pystr * pyval)) :
  Forall (fun kv => (size (snd kv) <= length (text level (snd kv)))%nat) xs ->
  (list_sum (map (fun kv => size (snd kv)) xs)
   <= length (concat (dict_chunks (iterencode level) nl first xs)))%nat.
Proof.
  intros H. revert first. unfold list_sum.
  induction H as [|[k x] xs Hx _ IH]; intros first; [cbn; lia|].
  rewrite concat_dict_chunks. cbn [map fold_right snd] in *.
  rewrite !length_app. cbn [length]. rewrite length_app.
  specialize (IH false). lia.
Qed.

Lemma size_le_length (v : pyval) : forall level, (size v <= length (text level v))%nat.
Proof.
  induction v as [ | b | z | s | l IH | d IH ] using pyval_induction; intros level.
  1-4: match goal with |- context [text _ ?v] =>
         destruct (text_head level v) as (c & t & E & _); rewrite E; cbn; lia
       end.
  - destruct l as [|x xs]; [cbn; lia|].
    rewrite text_list. cbn [size length]. rewrite !length_app.
    pose proof (length_list_chunks (S level) (newline_indent (S level)) false xs) as Hc.
    inversion IH as [|? ? Hx Hxs]; subst. specialize (Hx (S level)).
    unfold list_sum in *. cbn [map fold_right].
    assert (Forall (fun x0 => (size x0 <= length (text (S level) x0))%nat) xs)
      by (eapply Forall_impl; [|exact Hxs]; cbn; auto).
    specialize (Hc H). lia.
  - destruct d as [|[k x] xs]; [cbn; lia|].
    rewrite text_dict. cbn [size length]. rewrite !length_app. cbn [length].
    rewrite !length_app.
    pose proof (length_dict_chunks (S level) (newline_indent (S level)) false xs) as Hc.
    inversion IH as [|? ? Hx Hxs]; subst. cbn [snd] in Hx. specialize (Hx (S level)).
    unfold list_sum in *. cbn [map fold_right snd].
    assert (Forall (fun kv : pystr * pyval =>
                      (size (snd kv) <= length (text (S level) (snd kv)))%nat) xs)
      by (eapply Forall_impl; [|exact Hxs]; cbn; auto).
    specialize (Hc H). lia.
Qed.

Lemma loads_dumps (v : pyval) : storable v -> loads (dumps v) = Parsed v [].
Proof.
  intros Hs. unfold loads, dumps.
  rewrite <- (app_nil_r (text 0 v)) at 2. rewrite skip_ws_text.
  rewrite (scan_text v Hs); [reflexivity | | exact I].
  pose proof (size_le_length v 0). lia.
Qed.

Lemma valid_text_app (a b : pystr) : valid_text a -> valid_text b -> valid_text (a ++ b).
Proof. unfold valid_text. intros. now apply Forall_app. Qed.

Lemma valid_text_cons (c : Z) (s : pystr) :
  scalar c = true -> valid_text s -> valid_text (c :: s).
Proof. unfold valid_text. now constructor. Qed.

Lemma scalar_ascii (c : Z) : 0 <= c < 128 -> scalar c = true.
Proof. intros H. unfold scalar. lia. Qed.

Lemma hexdigit_ascii (n : Z) : 0 <= n < 16 -> 0 <= hexdigit n < 128.
Proof. intros H. unfold hexdigit. destruct (n <? 10); lia. Qed.

Lemma valid_escape_char (c : Z) : scalar c = true -> valid_text (escape_char c).
Proof.
  intros Hc. unfold escape_char.
  repeat match goal with
  | |- context [if ?a =? ?b then _ else _] =>
      destruct (Z.eqb_spec a b); [repeat constructor|]
  end.
  destruct ((0 <=? c) && (c <? 32)) eqn:E.
  - apply andb_true_iff in E as [H1 H2]. apply Z.leb_le in H1. apply Z.ltb_lt in H2.
    assert (0 <= c / 16 < 16)
      by (split; [apply Z.div_pos | apply Z.div_lt_upper_bound]; lia).
    pose proof (Z.mod_pos_bound c 16 ltac:(lia)).
    repeat (apply valid_text_cons; [apply scalar_ascii; try lia; now apply hexdigit_ascii|]).
    constructor.
  - repeat constructor. exact Hc.
Qed.

Lemma valid_encode_basestring (s : pystr) :
  valid_text s -> valid_text (encode_basestring s).
Proof.
  intros H. unfold encode_basestring.
  apply valid_text_cons; [reflexivity|]. apply valid_text_app; [|repeat constructor].
  induction H as [|c s Hc _ IH]; cbn [flat_map]; [constructor|].
  apply valid_text_app; [now apply valid_escape_char | exact IH].
Qed.

Lemma valid_uint_chars (u : uint) : valid_text (uint_chars u).
Proof. induction u; cbn [uint_chars]; try constructor; auto. Qed.

Lemma valid_intstr (z : Z) : valid_text (intstr z).
Proof.
  unfold intstr. destruct (Z.to_int z); [|apply valid_text_cons; [reflexivity|]];
    apply valid_uint_chars.
Qed.

Lemma valid_newline_indent (n : nat) : valid_text (newline_indent n).
Proof.
  unfold newline_indent. apply valid_text_cons; [reflexivity|].
  induction (2 * n)%nat; cbn [repeat]; constructor; auto.
Qed.

Lemma valid_atom (v : pyval) (t : pystr) :
  storable v -> atom v = Some t -> valid_text t.
Proof.
  intros Hs Ha.
  destruct v as [ | [|] | z | s | l | d ]; cbn [atom] in Ha; try discriminate;
    injection Ha as <-.
  - eval_lits. repeat constructor.
  - eval_lits. repeat constructor.
  - eval_lits. repeat constructor.
  - apply valid_intstr.
  - apply valid_encode_basestring. now inversion Hs.
Qed.

Lemma valid_iterencode (v : pyval) :
  storable v -> forall level, Forall valid_text (iterencode level v).
Proof.
  induction v as [ | b | z | s | l IH | d IH ] using pyval_induction;
    intros Hs level.
  2: destruct b.
  1-5: match goal with |- context [iterencode _ ?v] =>
         rewrite (atom_iterencode level v _ eq_refl);
         constructor; [exact (valid_atom v _ Hs eq_refl) | constructor]
       end.
  - inversion Hs as [ | | | | ? Hl | ]; subst.
    destruct l as [|x xs]; [cbn [iterencode]; eval_lits; repeat constructor|].
    cbn [iterencode]. apply Forall_app. split.
    2:{ constructor; [apply valid_newline_indent|]. repeat constructor. }
    generalize true. clear Hs. revert IH Hl. generalize (x :: xs). clear x xs.
    induction l as [|x xs IHl]; intros IH Hl first; [constructor|].
    inversion IH; inversion Hl; subst. cbn [list_chunks]. apply Forall_app. split; [|auto].
    unfold value_chunks.
    assert (Hbuf : valid_text ((if first then 91 else 44) :: newline_indent (S level)))
      by (apply valid_text_cons; [now destruct first | apply valid_newline_indent]).
    destruct (atom x) as [t|] eqn:Ea.
    + constructor; [|constructor]. apply valid_text_app; [exact Hbuf|].
      eapply valid_atom; eassumption.
    + constructor; auto.
  - inversion Hs as [ | | | | | ? Hnd Hd ]; subst.
    destruct d as [|kx xs]; [cbn [iterencode]; eval_lits; repeat constructor|].
    cbn [iterencode]. constructor; [repeat constructor|].
    constructor; [apply valid_newline_indent|]. apply Forall_app. split.
    2:{ constructor; [apply valid_newline_indent|]. repeat constructor. }
    generalize true. clear Hnd Hs. revert IH Hd. generalize (kx :: xs). clear kx xs.
    induction l as [|[k x] xs IHl]; intros IH Hd first; [constructor|].
    inversion IH as [|? ? Hx IH']; inversion Hd as [|? ? [Hk Hsx] Hd']; subst.
    cbn [fst snd] in *. cbn [dict_chunks]. apply Forall_app. split.
    { destruct first; [constructor|]. constructor; [|constructor].
      apply valid_text_cons; [reflexivity | apply valid_newline_indent]. }
    constructor; [now apply valid_encode_basestring|].
    constructor; [repeat constructor|].
    apply Forall_app. split; [|auto].
    destruct (atom x) as [t|] eqn:Ea; [|auto].
    constructor; [|constructor]. eapply valid_atom; eassumption.
Qed.

Lemma write_chunks_valid (chunks : list pystr) :
  Forall valid_text chunks ->
  exists bs, write_chunks chunks = (bs, true) /\ utf8_encode (concat chunks) = Some bs.
Proof.
  induction 1 as [|ch chunks Hc _ (bs & Hw & He)]; cbn [write_chunks concat].
  - now exists [].
  - destruct (utf8_encode_valid _ Hc) as [b Hb]. rewrite Hb, Hw.
    exists (b ++ bs). split; [reflexivity|].
    clear - Hb He. revert b Hb. induction ch as [|c ch IH]; intros b Hb.
    + cbn in Hb. injection Hb as <-. exact He.
    + cbn [utf8_encode List.app] in *.
      destruct (utf8_encode_char c) as [bc|]; [|discriminate].
      destruct (utf8_encode ch) as [bch|]; [|discriminate].
      injection Hb as <-. rewrite (IH _ eq_refl). now rewrite app_assoc.
Qed.

(** Saving a storable value always succeeds, and the file then reads
    back as that value. *)
Lemma save_then_read (v : pyval) (d : disk) :
  storable v ->
  exists bs, save_data v d = (Ok tt, Some bs) /\ read_json bs = Ok v.
Proof.
  intros Hs. unfold save_data, read_json.
  destruct (write_chunks_valid _ (valid_iterencode v Hs 0)) as (bs & Hw & He).
  exists bs. rewrite Hw. split; [reflexivity|].
  rewrite (utf8_decode_encode _ _ He).
  change (concat (iterencode 0 v)) with (dumps v).
  now rewrite loads_dumps.
Qed.

Lemma load_after_save (v : pyval) (d : disk) :
  storable v ->
  exists d', save_data v d = (Ok tt, d') /\ load_data d' = (Ok v, d').
Proof.
  intros Hs. destruct (save_then_read v d Hs) as (bs & Hw & Hr).
  exists (Some bs). split; [exact Hw|]. unfold load_data. now rewrite Hr.
Qed.

(** ** The store operations on a typed store *)

Lemma dict_get_encode_users (st : store) (k : pystr) :
  dict_get (encode_users st) k = option_map encode_user (lookup_user st k).
Proof.
  induction st as [|[k' u] st IH]; cbn [encode_users map dict_get lookup_user fst snd];
    [reflexivity|].
  destruct (str_eqb k k'); [reflexivity | exact IH].
Qed.

Lemma dict_set_encode_users (st : store) (k : pystr) (u : user) :
  dict_set (encode_users st) k (encode_user u) = encode_users (set_user st k u).
Proof.
  induction st as [|[k' u'] st IH]; cbn [encode_users map dict_set set_user fst snd];
    [reflexivity|].
  destruct (str_eqb k k'); cbn [map fst snd]; [reflexivity|].
  f_equal. exact IH.
Qed.

Lemma getitem_users (st : store) :
  getitem (encode_store st) (lit "users") = Ok (PDict (encode_users st)).
Proof. unfold encode_store, getitem. cbn [dict_get]. now rewrite str_eqb_refl. Qed.

Lemma setitem_users (st st' : store) :
  setitem (encode_store st) (lit "users") (PDict (encode_users st'))
  = Ok (encode_store st').
Proof. unfold encode_store, setitem. cbn [dict_set]. now rewrite str_eqb_refl. Qed.

Lemma getitem_records (u : user) :
  getitem (encode_user u) (lit "records")
  = Ok (PList (map encode_record (records u))).
Proof. reflexivity. Qed.

Lemma setitem_records (u : user) (rs : list record) :
  setitem (encode_user u) (lit "records") (PList (map encode_record rs))
  = Ok (encode_user (with_records u rs)).
Proof. reflexivity. Qed.

Lemma getitem_id (r : record) : getitem (encode_record r) (lit "id") = Ok (PInt (rec_id r)).
Proof. reflexivity. Qed.

Lemma setitem_summary (r : record) (s : pystr) :
  setitem (encode_record r) (lit "summary_text") (PStr s)
  = Ok (encode_record (with_summary r s)).
Proof. reflexivity. Qed.

Lemma getitem_summary (r : record) :
  getitem (encode_record r) (lit "summary_text") = Ok (PStr (summary_text r)).
Proof. reflexivity. Qed.

Lemma find_record_encode (rs : list record) (rid : Z) :
  find_record (map encode_record rs) rid
  = Ok (match find_first rs rid with
        | Some r => encode_record r
        | None => PNone
        end).
Proof.
  induction rs as [|r rs IH]; cbn [map find_record find_first]; [reflexivity|].
  rewrite getitem_id. cbn [obind py_eq_int].
  destruct (rec_id r =? rid); [reflexivity | exact IH].
Qed.

Lemma replace_summary_encode (rs : list record) (rid : Z) (s : pystr) :
  replace_summary (map encode_record rs) rid s
  = Ok (map encode_record (replace_first rs rid s)).
Proof.
  induction rs as [|r rs IH]; cbn [map replace_summary replace_first]; [reflexivity|].
  rewrite getitem_id. cbn [obind py_eq_int].
  destruct (rec_id r =? rid).
  - now rewrite setitem_summary.
  - now rewrite IH.
Qed.

Lemma forallb_valid (s : pystr) : forallb scalar s = true -> valid_text s.
Proof.
  intros H. apply Forall_forall. rewrite forallb_forall in H. exact H.
Qed.

Lemma storable_encode_record (r : record) : valid_record r -> storable (encode_record r).
Proof.
  intros (Ha & Hr & Hs & Hc). unfold encode_record. constructor.
  - cbn [map fst]. eval_lits.
    repeat (constructor; [cbn [In]; intuition discriminate|]). constructor.
  - repeat (constructor; [cbn [fst snd]; split;
                          [apply forallb_valid; reflexivity | now constructor]|]).
    constructor.
Qed.

Lemma storable_encode_user (u : user) : valid_user u -> storable (encode_user u).
Proof.
  intros [Hn Hr]. unfold encode_user. constructor.
  - cbn [map fst]. eval_lits.
    repeat (constructor; [cbn [In]; intuition discriminate|]). constructor.
  - constructor; [|constructor; [|constructor]]; cbn [fst snd];
      (split; [apply forallb_valid; reflexivity|]).
    + destruct (username u); cbn [opt_str]; now constructor.
    + constructor. apply Forall_map.
      eapply Forall_impl; [|exact Hr]. apply storable_encode_record.
Qed.

Lemma keys_encode_users (st : store) : map fst (encode_users st) = map fst st.
Proof. unfold encode_users. rewrite map_map. reflexivity. Qed.

Lemma storable_encode_store (st : store) : valid_store st -> storable (encode_store st).
Proof.
  intros [Hnd Hv]. unfold encode_store. constructor.
  - cbn [map fst]. constructor; [easy | constructor].
  - constructor; [|constructor]. cbn [fst snd].
    split; [apply forallb_valid; reflexivity|]. constructor.
    + now rewrite keys_encode_users.
    + unfold encode_users. apply Forall_map.
      eapply Forall_impl; [|exact Hv]. cbn [fst snd].
      intros [k u] [Hk Hu]. split; [exact Hk | now apply storable_encode_user].
Qed.

Lemma lookup_user_None (st : store) (k : pystr) :
  lookup_user st k = None <-> ~ In k (map fst st).
Proof.
  induction st as [|[k' u] st IH]; cbn [lookup_user map fst In]; [tauto|].
  destruct (str_eqb k k') eqn:E.
  - apply str_eqb_eq in E. subst. split; [discriminate | intros H; exfalso; auto].
  - rewrite IH. split.
    + intros H [->|H']; [now rewrite str_eqb_refl in E | auto].
    + tauto.
Qed.

Lemma lookup_user_In (st : store) (k : pystr) (u : user) :
  lookup_user st k = Some u -> In (k, u) st.
Proof.
  induction st as [|[k' u'] st IH]; cbn [lookup_user In]; [discriminate|].
  destruct (str_eqb k k') eqn:E.
  - apply str_eqb_eq in E. intros H. injection H as ->. subst. now left.
  - auto.
Qed.

Lemma set_user_fresh (st : store) (k : pystr) (u : user) :
  lookup_user st k = None -> set_user st k u = st ++ [(k, u)].
Proof.
  induction st as [|[k' u'] st IH]; cbn [lookup_user set_user List.app];
    [reflexivity|].
  destruct (str_eqb k k'); [discriminate|]. intros H. now rewrite IH.
Qed.

Lemma set_user_keys (st : store) (k : pystr) (u u0 : user) :
  lookup_user st k = Some u0 -> map fst (set_user st k u) = map fst st.
Proof.
  induction st as [|[k' u'] st IH]; cbn [lookup_user set_user map fst];
    [discriminate|].
  destruct (str_eqb k k'); cbn [map fst]; [reflexivity|].
  intros H. now rewrite IH.
Qed.

Lemma lookup_set_user_same (st : store) (k : pystr) (u : user) :
  lookup_user (set_user st k u) k = Some u.
Proof.
  induction st as [|[k' u'] st IH]; cbn [set_user lookup_user].
  - now rewrite str_eqb_refl.
  - destruct (str_eqb k k') eqn:E; cbn [lookup_user]; rewrite E; auto.
Qed.

Lemma lookup_set_user_other (st : store) (k k0 : pystr) (u : user) :
  k0 <> k -> lookup_user (set_user st k u) k0 = lookup_user st k0.
Proof.
  intros Hne. induction st as [|[k' u'] st IH]; cbn [set_user lookup_user].
  - now rewrite str_eqb_neq.
  - destruct (str_eqb k k') eqn:E; cbn [lookup_user].
    + apply str_eqb_eq in E. subst k'. now rewrite str_eqb_neq.
    + now rewrite IH.
Qed.

Lemma valid_store_lookup (st : store) (k : pystr) (u : user) :
  valid_store st -> lookup_user st k = Some u -> valid_text k /\ valid_user u.
Proof.
  intros [_ Hv] H. apply lookup_user_In in H.
  rewrite Forall_forall in Hv. exact (Hv _ H).
Qed.

Lemma valid_store_set_user (st : store) (k : pystr) (u : user) :
  valid_store st -> valid_text k -> valid_user u -> valid_store (set_user st k u).
Proof.
  intros [Hnd Hv] Hk Hu. destruct (lookup_user st k) as [u0|] eqn:E.
  - split; [now rewrite (set_user_keys _ _ u u0 E)|].
    clear - Hv Hk Hu. induction st as [|[k' u'] st IH]; cbn [set_user].
    + constructor; [split; assumption | constructor].
    + inversion Hv as [|? ? [Hk' Hu'] Hv']; subst. cbn [fst snd] in *.
      destruct (str_eqb k k'); constructor; auto.
  - rewrite (set_user_fresh _ _ u E). split.
    + rewrite map_app. cbn [map fst].
      apply lookup_user_None in E.
      apply NoDup_app; [exact Hnd | repeat constructor; easy |].
      intros x Hx [<-|[]]. contradiction.
    + apply Forall_app. split; [exact Hv|].
      constructor; [split; assumption | constructor].
Qed.

(** Two saved stores that read the same are the same. *)
Lemma encode_record_inj (r r' : record) : encode_record r = encode_record r' -> r = r'.
Proof.
  destruct r, r'. unfold encode_record. cbn. intros H. now injection H as -> -> -> -> ->.
Qed.

Lemma encode_user_inj (u u' : user) : encode_user u = encode_user u' -> u = u'.
Proof.
  destruct u as [n rs], u' as [n' rs']. unfold encode_user. cbn [username records].
  intros H. injection H as Hn Hr. f_equal.
  - destruct n, n'; cbn in Hn; congruence.
  - revert rs' Hr. induction rs as [|r rs IH]; intros [|r' rs'] Hr;
      cbn [map] in Hr; try discriminate; [reflexivity|].
    injection Hr as Hr1 Hr2. f_equal; [|auto].
    apply encode_record_inj. unfold encode_record. congruence.
Qed.

Lemma encode_store_inj (st st' : store) : encode_store st = encode_store st' -> st = st'.
Proof.
  unfold encode_store. intros H. injection H as H.
  revert st' H. induction st as [|[k u] st IH]; intros [|[k' u'] st'] H;
    cbn [encode_users map fst snd] in H; try discriminate; [reflexivity|].
  remember (encode_user u) as eu eqn:Eu. remember (encode_user u') as eu' eqn:Eu'.
  injection H as -> Hu H. subst eu eu'.
  now rewrite (encode_user_inj _ _ Hu), (IH _ H).
Qed.

Lemma holds_unique (d : disk) (st st' : store) : holds d st -> holds d st' -> st = st'.
Proof.
  unfold holds. intros H H'. apply encode_store_inj. congruence.
Qed.

Lemma save_holds (st : store) (d : disk) :
  valid_store st ->
  exists d', save_data (encode_store st) d = (Ok tt, d') /\ holds d' st.
Proof.
  intros Hv. apply load_after_save. now apply storable_encode_store.
Qed.

Lemma get_or_create_user_present (d : disk) (st : store) (uid : Z)
    (name : option pystr) (u : user) :
  holds d st -> lookup_user st (intstr uid) = Some u ->
  get_or_create_user uid name d = (Ok (encode_user u), d).
Proof.
  intros Hd Hu. unfold get_or_create_user, bind, lift. rewrite Hd.
  rewrite getitem_users. cbn [py_contains getitem].
  rewrite dict_get_encode_users, Hu. reflexivity.
Qed.

Lemma get_or_create_user_new (d : disk) (st : store) (uid : Z) (name : option pystr) :
  holds d st -> valid_store st -> valid_name name ->
  lookup_user st (intstr uid) = None ->
  exists d',
    get_or_create_user uid name d = (Ok (encode_user (new_user name)), d')
    /\ holds d' (st ++ [(intstr uid, new_user name)]).
Proof.
  intros Hd Hv Hn Hu. unfold get_or_create_user, bind, lift. rewrite Hd.
  rewrite getitem_users. cbn [py_contains setitem getitem].
  rewrite dict_get_encode_users, Hu. cbn [option_map negb].
  change (PDict [(lit "username", opt_str name); (lit "records", PList [])])
    with (encode_user (new_user name)).
  rewrite dict_set_encode_users.
  change (PDict [(lit "users", PDict (encode_users st))]) with (encode_store st).
  rewrite setitem_users.
  assert (Hv' : valid_store (set_user st (intstr uid) (new_user name))).
  { apply valid_store_set_user; [assumption | apply valid_intstr|].
    split; [exact Hn | constructor]. }
  destruct (save_holds _ d Hv') as (d' & Hs & Hd'). rewrite Hs.
  exists d'. rewrite dict_get_encode_users, lookup_set_user_same. cbn [option_map].
  split; [reflexivity|]. now rewrite <- (set_user_fresh _ _ _ Hu).
Qed.

Lemma save_voice_record_ok (d : disk) (st : store) (uid : Z) (u : user)
    (path raw summary : pystr) (ts : Z) (iso : pystr) :
  holds d st -> valid_store st ->
  lookup_user st (intstr uid) = Some u ->
  valid_record (new_record ts path raw summary iso) ->
  exists d',
    save_voice_record uid path raw summary ts iso d = (Ok ts, d')
    /\ holds d' (set_user st (intstr uid)
                   (with_records u (records u ++ [new_record ts path raw summary iso]))).
Proof.
  intros Hd Hv Hu Hr. unfold save_voice_record, bind, lift, ret. rewrite Hd.
  rewrite getitem_users. cbn [getitem].
  rewrite dict_get_encode_users, Hu. cbn [option_map].
  fold (getitem (encode_user u) (lit "records")). rewrite getitem_records.
  cbn [py_append].
  change (PDict [(lit "id", PInt ts); (lit "audio_path", PStr path);
                 (lit "raw_text", PStr raw); (lit "summary_text", PStr summary);
                 (lit "created_at", PStr iso)])
    with (encode_record (new_record ts path raw summary iso)).
  change [encode_record (new_record ts path raw summary iso)]
    with (map encode_record [new_record ts path raw summary iso]).
  rewrite <- map_app. rewrite setitem_records.
  cbn [setitem]. rewrite dict_set_encode_users.
  change (PDict [(lit "users", PDict (encode_users st))]) with (encode_store st).
  rewrite setitem_users.
  match goal with |- context [save_data (encode_store ?s)] =>
    assert (Hv' : valid_store s) end.
  { destruct (valid_store_lookup _ _ _ Hv Hu) as [Hk [Hn Hrs]].
    apply valid_store_set_user; [assumption | assumption |].
    split; [exact Hn|]. cbn [with_records records].
    apply Forall_app. split; [exact Hrs | constructor; [exact Hr | constructor]]. }
  destruct (save_holds _ d Hv') as (d' & Hs & Hd'). rewrite Hs.
  exists d'. split; [reflexivity | exact Hd'].
Qed.

Lemma get_user_records_ok (d : disk) (st : store) (uid : Z) :
  holds d st ->
  get_user_records uid d = (Ok (PList (map encode_record (user_records st uid))), d).
Proof.
  intros Hd. unfold get_user_records, bind, lift. rewrite Hd.
  rewrite getitem_users. cbn [py_get]. rewrite dict_get_encode_users.
  unfold user_records. destruct (lookup_user st (intstr uid)) as [u|];
    reflexivity.
Qed.

Lemma get_record_by_id_ok (d : disk) (st : store) (uid rid : Z) :
  holds d st ->
  get_record_by_id uid rid d
  = (Ok (match find_first (user_records st uid) rid with
         | Some r => encode_record r
         | None => PNone
         end), d).
Proof.
  intros Hd. unfold get_record_by_id, bind, lift.
  rewrite (get_user_records_ok d st uid Hd). cbn [py_iter].
  now rewrite find_record_encode.
Qed.

Lemma valid_replace_first (rs : list record) (rid : Z) (s : pystr) :
  valid_text s -> Forall valid_record rs -> Forall valid_record (replace_first rs rid s).
Proof.
  intros Hs. induction 1 as [|r rs Hr Hrs IH]; cbn [replace_first]; [constructor|].
  destruct (rec_id r =? rid); constructor; try assumption.
  destruct Hr as (Ha & Hw & _ & Hc). unfold valid_record, with_summary.
  cbn [audio_path raw_text summary_text created_at]. tauto.
Qed.

Lemma update_summary_text_ok (d : disk) (st : store) (uid rid : Z) (u : user)
    (s : pystr) :
  holds d st -> valid_store st -> valid_text s ->
  lookup_user st (intstr uid) = Some u ->
  exists d',
    update_summary_text uid rid s d = (Ok tt, d')
    /\ holds d' (set_user st (intstr uid)
                   (with_records u (replace_first (records u) rid s))).
Proof.
  intros Hd Hv Hs Hu. unfold update_summary_text, bind, lift. rewrite Hd.
  rewrite getitem_users. cbn [getitem].
  rewrite dict_get_encode_users, Hu. cbn [option_map].
  fold (getitem (encode_user u) (lit "records")). rewrite getitem_records.
  cbn [py_iter]. rewrite replace_summary_encode, setitem_records.
  cbn [setitem]. rewrite dict_set_encode_users.
  change (PDict [(lit "users", PDict (encode_users st))]) with (encode_store st).
  rewrite setitem_users.
  apply save_holds.
  destruct (valid_store_lookup _ _ _ Hv Hu) as [Hk [Hn Hrs]].
  apply valid_store_set_user; [assumption | assumption |].
  split; [exact Hn|]. cbn [with_records records]. now apply valid_replace_first.
Qed.

(** ** Records of a typed store *)

Lemma user_records_set_same (st : store) (uid : Z) (u : user) :
  user_records (set_user st (intstr uid) u) uid = records u.
Proof. unfold user_records. now rewrite lookup_set_user_same. Qed.

Lemma find_first_replace_first (rs : list record) (rid : Z) (s : pystr) :
  find_first (replace_first rs rid s) rid
  = option_map (fun r => with_summary r s) (find_first rs rid).
Proof.
  induction rs as [|r rs IH]; cbn [replace_first find_first]; [reflexivity|].
  destruct (rec_id r =? rid) eqn:E; cbn [find_first with_summary rec_id];
    rewrite E; [reflexivity | exact IH].
Qed.

Lemma replace_first_absent (rs : list record) (rid : Z) (s : pystr) :
  find_first rs rid = None -> replace_first rs rid s = rs.
Proof.
  induction rs as [|r rs IH]; cbn [replace_first find_first]; [reflexivity|].
  destruct (rec_id r =? rid); [discriminate|]. intros H. now rewrite IH.
Qed.

Lemma length_replace_first (rs : list record) (rid : Z) (s : pystr) :
  length (replace_first rs rid s) = length rs.
Proof.
  induction rs as [|r rs IH]; cbn [replace_first]; [reflexivity|].
  destruct (rec_id r =? rid); cbn [length]; congruence.
Qed.

(** Position by position: [replace_first] keeps every record, except
    that the first one with the id has the new summary. *)
Lemma nth_replace_first (rs : list record) (rid : Z) (s : pystr) (i : nat) (r : record) :
  nth_error rs i = Some r ->
  (rec_id r = rid /\ (forall j q, (j < i)%nat -> nth_error rs j = Some q -> rec_id q <> rid)
   /\ nth_error (replace_first rs rid s) i = Some (with_summary r s))
  \/ nth_error (replace_first rs rid s) i = Some r.
Proof.
  revert i. induction rs as [|q rs IH]; intros [|i] H; cbn [nth_error] in H;
    try discriminate; cbn [replace_first].
  - injection H as ->. destruct (Z.eqb_spec (rec_id r) rid) as [E|E].
    + left. split; [exact E|]. split; [intros j q Hj; lia | reflexivity].
    + now right.
  - destruct (Z.eqb_spec (rec_id q) rid) as [E|E]; [now right|].
    cbn [nth_error]. destruct (IH i H) as [(Hid & Hbefore & Hn)|Hn]; [left | now right].
    split; [exact Hid|]. split; [|exact Hn].
    intros [|j] q' Hj Hq'; cbn [nth_error] in Hq'.
    + now injection Hq' as <-.
    + apply (Hbefore j q'); [lia | exact Hq'].
Qed.

Lemma set_user_same (st : store) (k : pystr) (u : user) :
  lookup_user st k = Some u -> set_user st k u = st.
Proof.
  induction st as [|[k' u'] st IH]; cbn [lookup_user set_user]; [discriminate|].
  destruct (str_eqb k k'); intros H.
  - now injection H as ->.
  - now rewrite IH.
Qed.

(** ** The handlers on a typed store *)

Lemma lookup_user_app_fresh (st : store) (k k0 : pystr) (u : user) :
  lookup_user st k = None ->
  lookup_user (st ++ [(k, u)]) k0
  = if str_eqb k0 k then match lookup_user st k0 with Some u0 => Some u0 | None => Some u end
    else lookup_user st k0.
Proof.
  intros Hk. induction st as [|[k' u'] st IH]; cbn [lookup_user List.app].
  - now destruct (str_eqb k0 k).
  - cbn [lookup_user] in Hk. destruct (str_eqb k k') eqn:E; [discriminate|].
    destruct (str_eqb k0 k') eqn:E0.
    + now destruct (str_eqb k0 k).
    + now apply IH.
Qed.

Lemma ensure_user_lookup (st : store) (uid : Z) (name : option pystr) :
  exists u, lookup_user (ensure_user st uid name) (intstr uid) = Some u
            /\ records u = user_records st uid.
Proof.
  unfold ensure_user, user_records.
  destruct (lookup_user st (intstr uid)) as [u|] eqn:Hu.
  - exists u. now rewrite Hu.
  - exists (new_user name). rewrite lookup_user_app_fresh by exact Hu.
    now rewrite str_eqb_refl, Hu.
Qed.

Lemma ensure_user_other (st : store) (uid : Z) (name : option pystr) (k : pystr) :
  k <> intstr uid -> lookup_user (ensure_user st uid name) k = lookup_user st k.
Proof.
  intros Hk. unfold ensure_user.
  destruct (lookup_user st (intstr uid)) as [u|] eqn:Hu; [reflexivity|].
  rewrite lookup_user_app_fresh by exact Hu. now rewrite str_eqb_neq.
Qed.

Lemma ensure_user_valid (st : store) (uid : Z) (name : option pystr) :
  valid_store st -> valid_name name -> valid_store (ensure_user st uid name).
Proof.
  intros Hv Hn. unfold ensure_user.
  destruct (lookup_user st (intstr uid)) as [u|] eqn:Hu; [exact Hv|].
  rewrite <- (set_user_fresh _ _ _ Hu).
  apply valid_store_set_user; [exact Hv | apply valid_intstr|].
  split; [exact Hn | constructor].
Qed.

Lemma get_or_create_user_ensure (d : disk) (st : store) (uid : Z) (name : option pystr) :
  holds d st -> valid_store st -> valid_name name ->
  exists d' u,
    get_or_create_user uid name d = (Ok (encode_user u), d')
    /\ holds d' (ensure_user st uid name).
Proof.
  intros Hd Hv Hn. unfold ensure_user.
  destruct (lookup_user st (intstr uid)) as [u|] eqn:Hu.
  - exists d, u. split; [|exact Hd]. now apply get_or_create_user_present with (st := st).
  - destruct (get_or_create_user_new d st uid name Hd Hv Hn Hu) as (d' & Hg & Hd').
    now exists d', (new_user name).
Qed.

Lemma valid_transcribe (w : pystr -> outcome pystr) (p : pystr) :
  (forall q t, w q = Ok t -> valid_text t) -> valid_text (transcribe_audio w p).
Proof.
  intros Hw. unfold transcribe_audio. destruct (w p) as [t|e] eqn:E.
  - exact (Hw p t E).
  - apply forallb_valid. reflexivity.
Qed.

Lemma valid_firstn (n : nat) (s : pystr) : valid_text s -> valid_text (firstn n s).
Proof.
  unfold valid_text. intros H. revert n.
  induction H as [|c s Hc _ IH]; intros [|n]; cbn [firstn]; constructor; auto.
Qed.

Lemma valid_summarize (sm : pystr -> outcome pystr) (text : pystr) :
  (forall s t, sm s = Ok t -> valid_text t) -> valid_text text ->
  valid_text (summarize_text sm text).
Proof.
  intros Hs Ht. unfold summarize_text.
  destruct (length text <? 50)%nat; [exact Ht|].
  destruct (sm text) as [t|e] eqn:E; [exact (Hs text t E)|].
  destruct (100 <? length text)%nat; [|exact Ht].
  apply valid_text_app; [now apply valid_firstn | apply forallb_valid; reflexivity].
Qed.

Lemma valid_path_join (file_id : pystr) :
  valid_text file_id -> valid_text (path_join AUDIO_DIR (file_id ++ lit ".ogg")).
Proof.
  intros Hf.
  assert (Hb : valid_text (file_id ++ lit ".ogg"))
    by (apply valid_text_app; [exact Hf | apply forallb_valid; reflexivity]).
  unfold path_join. destruct (file_id ++ lit ".ogg") as [|c t] eqn:E; [|destruct c as [|p|p]].
  1,2,4: apply valid_text_app; [apply forallb_valid; reflexivity|];
         apply valid_text_cons; [reflexivity | exact Hb].
  repeat (destruct p as [p|p|]; try (apply valid_text_app; [apply forallb_valid; reflexivity|];
         apply valid_text_cons; [reflexivity | exact Hb])).
  exact Hb.
Qed.

Lemma valid_voice_record (env : voice_env) (file_id : pystr) :
  valid_env env -> valid_text file_id -> valid_record (voice_record env file_id).
Proof.
  intros (Hw & Hs & Hi & _) Hf. unfold voice_record, valid_record, new_record.
  cbn [audio_path raw_text summary_text created_at].
  split; [now apply valid_path_join|].
  split; [now apply valid_transcribe|].
  split; [apply valid_summarize; [exact Hs | now apply valid_transcribe] | exact Hi].
Qed.

Lemma handle_voice_ok (d : disk) (st : store) (env : voice_env) (uid : Z)
    (name : option pystr) (file_id : pystr) :
  holds d st -> valid_store st -> valid_env env -> valid_name name ->
  valid_text file_id ->
  exists d',
    handle_voice env uid name file_id d
    = (Ok (match download env with
           | Ok _ => Heard (summary_text (voice_record env file_id))
           | Raise _ => VoiceFailed
           end), d')
    /\ holds d' (store_after st (Voice env uid name file_id)).
Proof.
  intros Hd Hv He Hn Hf.
  destruct (get_or_create_user_ensure d st uid name Hd Hv Hn) as (d1 & u1 & Hg & Hd1).
  pose proof (ensure_user_valid st uid name Hv Hn) as Hv1.
  unfold handle_voice, bind at 1. rewrite Hg. cbn [store_after].
  unfold try_except, bind, lift, ret.
  destruct (download env) as [[]|e] eqn:Edl.
  - destruct (ensure_user_lookup st uid name) as (u & Hu & _). rewrite Hu.
    destruct (save_voice_record_ok d1 _ uid u
                (path_join AUDIO_DIR (file_id ++ lit ".ogg"))
                (transcribe_audio (whisper env) (path_join AUDIO_DIR (file_id ++ lit ".ogg")))
                (summarize_text (summarizer env)
                   (transcribe_audio (whisper env)
                      (path_join AUDIO_DIR (file_id ++ lit ".ogg"))))
                (now_ts env) (now_iso env) Hd1 Hv1 Hu
                (valid_voice_record env file_id He Hf)) as (d' & Hs & Hd').
    rewrite Hs. exists d'. split; [reflexivity | exact Hd'].
  - exists d1. split; [|exact Hd1].
    destruct He as (_ & _ & _ & Hdl). now destruct e.
Qed.

Lemma update_summary_text_unknown (d : disk) (st : store) (uid rid : Z) (s : pystr) :
  holds d st -> lookup_user st (intstr uid) = None ->
  update_summary_text uid rid s d = (Raise KeyError, d).
Proof.
  intros Hd Hu. unfold update_summary_text, bind, lift. rewrite Hd.
  rewrite getitem_users. cbn [getitem]. now rewrite dict_get_encode_users, Hu.
Qed.

Lemma store_after_valid (st : store) (ev : event) :
  valid_store st -> valid_event ev -> valid_store (store_after st ev).
Proof.
  intros Hv He. destruct ev as [uid name | env uid name fid | uid rid text];
    cbn [store_after valid_event] in *.
  - now apply ensure_user_valid.
  - destruct He as (He & Hn & Hf).
    pose proof (ensure_user_valid st uid name Hv Hn) as Hv1.
    destruct (download env); [|exact Hv1].
    destruct (lookup_user (ensure_user st uid name) (intstr uid)) as [u|] eqn:Hu;
      [|exact Hv1].
    destruct (valid_store_lookup _ _ _ Hv1 Hu) as [Hk [Hun Hrs]].
    apply valid_store_set_user; [exact Hv1 | exact Hk|].
    split; [exact Hun|]. cbn [with_records records].
    apply Forall_app. split; [exact Hrs|].
    constructor; [now apply valid_voice_record | constructor].
  - destruct (lookup_user st (intstr uid)) as [u|] eqn:Hu; [|exact Hv].
    destruct (valid_store_lookup _ _ _ Hv Hu) as [Hk [Hun Hrs]].
    apply valid_store_set_user; [exact Hv | exact Hk|].
    split; [exact Hun|]. now apply valid_replace_first.
Qed.

Lemma step_holds (d : disk) (st : store) (ev : event) :
  holds d st -> valid_store st -> valid_event ev ->
  holds (step d ev) (store_after st ev).
Proof.
  intros Hd Hv He. unfold step.
  destruct ev as [uid name | env uid name fid | uid rid text];
    cbn [handle valid_event store_after] in *.
  - destruct (get_or_create_user_ensure d st uid name Hd Hv He) as (d' & u & Hg & Hd').
    unfold bind. now rewrite Hg.
  - destruct He as (He & Hn & Hf).
    destruct (handle_voice_ok d st env uid name fid Hd Hv He Hn Hf) as (d' & Hh & Hd').
    unfold bind. now rewrite Hh.
  - destruct (lookup_user st (intstr uid)) as [u|] eqn:Hu.
    + destruct (update_summary_text_ok d st uid rid u text Hd Hv He Hu) as (d' & Hup & Hd').
      now rewrite Hup.
    + now rewrite (update_summary_text_unknown d st uid rid text Hd Hu).
Qed.

Lemma run_events_holds (evs : list event) :
  forall (d : disk) (st : store),
    holds d st -> valid_store st -> Forall valid_event evs ->
    holds (run_events evs d) (fold_left store_after evs st)
    /\ valid_store (fold_left store_after evs st).
Proof.
  induction evs as [|ev evs IH]; intros d st Hd Hv He; cbn [run_events fold_left].
  - now split.
  - inversion He as [|? ? Hev Hevs]; subst. apply IH.
    + now apply step_holds.
    + now apply store_after_valid.
    + exact Hevs.
Qed.

Lemma holds_fresh : holds None [].
Proof. reflexivity. Qed.

Lemma valid_store_nil : valid_store [].
Proof. split; constructor. Qed.

Lemma intstr_inj (a b : Z) : intstr a = intstr b -> a = b.
Proof.
  intros H. pose proof (match_number_intstr a [] I) as Ha.
  rewrite H, (match_number_intstr b [] I) in Ha. now injection Ha as <-.
Qed.



Lemma user_records_ensure (st : store) (uid uid' : Z) (name : option pystr) :
  user_records (ensure_user st uid' name) uid = user_records st uid.
Proof.
  destruct (Z.eq_dec uid uid') as [->|Hne].
  - destruct (ensure_user_lookup st uid' name) as (u & Hu & Hr).
    unfold user_records at 1. now rewrite Hu.
  - unfold user_records. rewrite ensure_user_other; [reflexivity|].
    intros H. apply Hne. now apply intstr_inj.
Qed.






Lemma sample_holds : holds sample_disk sample_store.
Proof. vm_compute. reflexivity. Qed.

Lemma sample_valid : valid_store sample_store.
Proof.
  split; [repeat constructor; cbn; tauto|].
  constructor; [|constructor]. cbn [fst snd].
  split; [apply forallb_valid; reflexivity|].
  split; [apply forallb_valid; reflexivity|].
  constructor; [|constructor].
  repeat split; apply forallb_valid; reflexivity.
Qed.

(** ** The listing *)

Lemma str_ltb_irrefl (a : pystr) : str_ltb a a = false.
Proof.
  induction a as [|x a IH]; cbn [str_ltb]; [reflexivity|].
  rewrite Z.ltb_irrefl, Z.eqb_refl, IH. reflexivity.
Qed.

(** If [a < c] then [a < b] or [b < c]: so [>=] is transitive. *)
Lemma str_ltb_cotrans (a b c : pystr) :
  str_ltb a c = true -> str_ltb a b = true \/ str_ltb b c = true.
Proof.
  revert b c. induction a as [|x a IH]; intros b c.
  - destruct c as [|z c]; [discriminate|]. intros _.
    destruct b as [|y b]; [now right | now left].
  - destruct c as [|z c]; [discriminate|].
    destruct b as [|y b]; [now right|]. cbn [str_ltb]. intros H.
    apply orb_true_iff in H as [H|H].
    + apply Z.ltb_lt in H.
      destruct (Z.ltb_spec x y) as [Hxy|Hxy]; [now left|].
      right. apply orb_true_iff. left. apply Z.ltb_lt. lia.
    + apply andb_true_iff in H as [Hxz H]. apply Z.eqb_eq in Hxz. subst z.
      destruct (Z.ltb_spec x y) as [Hxy|Hxy]; [now left|].
      destruct (Z.ltb_spec y x) as [Hyx|Hyx]; [now right|].
      assert (y = x) by lia. subst y. rewrite Z.eqb_refl. cbn [orb andb].
      now apply IH.
Qed.

Lemma str_ge_trans (a b c : pystr) : str_ge a b -> str_ge b c -> str_ge a c.
Proof.
  unfold str_ge. intros Hab Hbc. destruct (str_ltb a c) eqn:E; [|reflexivity].
  destruct (str_ltb_cotrans a b c E); congruence.
Qed.

Lemma str_ltb_asym (a b : pystr) : str_ltb a b = true -> str_ge b a.
Proof.
  unfold str_ge. intros H. destruct (str_ltb b a) eqn:E; [|reflexivity].
  exfalso. revert b H E. induction a as [|x a IH]; intros [|y b]; cbn [str_ltb];
    try discriminate.
  intros H1 H2. apply orb_true_iff in H1, H2.
  destruct H1 as [H1|H1], H2 as [H2|H2];
    try apply Z.ltb_lt in H1; try apply Z.ltb_lt in H2;
    try apply andb_true_iff in H1 as [E1 H1]; try apply andb_true_iff in H2 as [E2 H2];
    try apply Z.eqb_eq in E1; try apply Z.eqb_eq in E2; try lia.
  exact (IH b H1 H2).
Qed.

Section SortedFacts.

Variable A : Type.

Lemma insert_desc_perm (x : pystr * A) (l : list (pystr * A)) :
  Permutation (insert_desc x l) (x :: l).
Proof.
  induction l as [|y l IH]; cbn [insert_desc]; [reflexivity|].
  destruct (str_ltb (fst x) (fst y)); [|reflexivity].
  rewrite IH. apply perm_swap.
Qed.

Lemma sorted_desc_perm (l : list (pystr * A)) : Permutation (sorted_desc l) l.
Proof.
  induction l as [|x l IH]; cbn [sorted_desc fold_right]; [reflexivity|].
  fold (sorted_desc l). rewrite insert_desc_perm. now constructor.
Qed.

Lemma insert_desc_sorted (x : pystr * A) (l : list (pystr * A)) :
  StronglySorted (@by_key A) l -> StronglySorted (@by_key A) (insert_desc x l).
Proof.
  induction 1 as [|y l Hl IH Hy]; cbn [insert_desc].
  - repeat constructor.
  - destruct (str_ltb (fst x) (fst y)) eqn:E.
    + constructor; [exact IH|].
      apply Forall_forall. intros z Hz.
      apply (Permutation_in _ (insert_desc_perm x l)) in Hz.
      destruct Hz as [<-|Hz]; [now apply str_ltb_asym|].
      rewrite Forall_forall in Hy. now apply Hy.
    + constructor; [now constructor|].
      constructor; [exact E|].
      eapply Forall_impl; [|exact Hy]. intros z Hz.
      unfold by_key in *. now apply (str_ge_trans _ (fst y)).
Qed.

Lemma sorted_desc_sorted (l : list (pystr * A)) : StronglySorted (@by_key A) (sorted_desc l).
Proof.
  induction l as [|x l IH]; cbn [sorted_desc fold_right]; [constructor|].
  now apply insert_desc_sorted.
Qed.

Lemma firstn_sorted (R : A -> A -> Prop) (n : nat) (l : list A) :
  StronglySorted R l -> StronglySorted R (firstn n l).
Proof.
  intros H. revert n. induction H as [|x l Hl IH Hx]; intros [|n]; cbn [firstn];
    try constructor; auto.
  rewrite Forall_forall in *. intros y Hy. apply Hx.
  rewrite <- (firstn_skipn n l). apply in_or_app. now left.
Qed.

End SortedFacts.

Lemma insert_desc_map (A B : Type) (f : A -> B) (x : pystr * A) (l : list (pystr * A)) :
  insert_desc (fst x, f (snd x)) (map (fun p => (fst p, f (snd p))) l)
  = map (fun p => (fst p, f (snd p))) (insert_desc x l).
Proof.
  induction l as [|y l IH]; cbn [insert_desc map fst]; [reflexivity|].
  destruct (str_ltb (fst x) (fst y)); cbn [map]; [|reflexivity].
  now rewrite IH.
Qed.

Lemma sorted_desc_map (A B : Type) (f : A -> B) (l : list (pystr * A)) :
  sorted_desc (map (fun p => (fst p, f (snd p))) l)
  = map (fun p => (fst p, f (snd p))) (sorted_desc l).
Proof.
  induction l as [|x l IH]; cbn [sorted_desc fold_right map]; [reflexivity|].
  fold (sorted_desc l) (sorted_desc (map (fun p : pystr * A => (fst p, f (snd p))) l)).
  now rewrite IH, insert_desc_map.
Qed.

Lemma created_key_encode (alone : bool) (r : record) :
  created_key alone (encode_record r) = Ok (created_at r, encode_record r).
Proof. reflexivity. Qed.

Lemma map_outcome_ok (A B : Type) (f : A -> outcome B) (g : A -> B) (l : list A) :
  (forall x, f x = Ok (g x)) -> map_outcome f l = Ok (map g l).
Proof.
  intros H. induction l as [|x l IH]; cbn [map_outcome map]; [reflexivity|].
  now rewrite H, IH.
Qed.

Lemma map_outcome_length (A B : Type) (f : A -> outcome B) (l : list A) (ys : list B) :
  map_outcome f l = Ok ys -> length ys = length l.
Proof.
  revert ys. induction l as [|x l IH]; intros ys; cbn [map_outcome].
  - now intros [= <-].
  - destruct (f x) as [y|e]; [|discriminate]. cbn [obind].
    destruct (map_outcome f l) as [ys'|e]; [|discriminate]. cbn [obind].
    intros [= <-]. cbn [length]. now rewrite (IH ys' eq_refl).
Qed.

Lemma keyed_encode (alone : bool) (rs : list record) :
  map_outcome (created_key alone) (map encode_record rs)
  = Ok (map (fun p => (fst p, encode_record (snd p)))
            (map (fun r => (created_at r, r)) rs)).
Proof.
  induction rs as [|r rs IH]; cbn [map map_outcome]; [reflexivity|].
  now rewrite created_key_encode, IH.
Qed.

Lemma firstn_map_comm (A B : Type) (f : A -> B) (n : nat) (l : list A) :
  firstn n (map f l) = map f (firstn n l).
Proof.
  revert n. induction l as [|x l IH]; intros [|n]; cbn [firstn map]; try reflexivity.
  now rewrite IH.
Qed.

Lemma recent_records_encode (rs : list record) :
  recent_records (map encode_record rs) = Ok (map encode_record (recent rs)).
Proof.
  unfold recent_records, recent. rewrite keyed_encode. cbn [obind].
  rewrite sorted_desc_map, map_map. cbn [snd].
  rewrite <- (map_map snd encode_record). now rewrite firstn_map_comm.
Qed.

Lemma recent_length (rs : list record) : (length (recent rs) <= 10)%nat.
Proof. unfold recent. apply firstn_le_length. Qed.

Lemma recent_sorted (rs : list record) :
  StronglySorted (fun a b => str_ge (created_at a) (created_at b)) (recent rs).
Proof.
  unfold recent. apply firstn_sorted.
  pose proof (sorted_desc_sorted record (map (fun r => (created_at r, r)) rs)) as Hs.
  pose proof (sorted_desc_perm record (map (fun r => (created_at r, r)) rs)) as Hp.
  assert (Hk : Forall (fun p => fst p = created_at (snd p))
                 (sorted_desc (map (fun r => (created_at r, r)) rs))).
  { apply Forall_forall. intros p Hp'.
    apply (Permutation_in _ Hp) in Hp'. apply in_map_iff in Hp' as (r & <- & _).
    reflexivity. }
  clear Hp.
  induction Hs as [|p l Hl IH Hp']; cbn [map]; [constructor|].
  inversion Hk as [|? ? Hkp Hkl]; subst.
  constructor.
  - apply IH. exact Hkl.
  - apply Forall_map. rewrite Forall_forall in *. intros q Hq.
    specialize (Hp' q Hq). unfold by_key in Hp'. unfold str_ge.
    now rewrite Hkp, (Hkl q Hq) in Hp'.
Qed.

(** The records shown are records of the user, each shown once. *)
Lemma recent_perm (rs : list record) :
  exists rest, Permutation (recent rs ++ rest) rs.
Proof.
  unfold recent.
  exists (skipn 10 (map snd (sorted_desc (map (fun r => (created_at r, r)) rs)))).
  rewrite firstn_skipn.
  rewrite (Permutation_map snd (sorted_desc_perm record _)).
  rewrite map_map. cbn [snd]. now rewrite map_id.
Qed.

(** ** What the scanner builds *)

Lemma pmap_Parsed (A B : Type) (f : A -> B) (r : presult A) (b : B) (rest : pystr) :
  pmap f r = Parsed b rest -> exists a, r = Parsed a rest /\ b = f a.
Proof.
  destruct r as [a rest'| | |]; cbn [pmap]; try discriminate.
  intros [= <- <-]. now exists a.
Qed.

Section ScanInvariant.

Variable P : pyval -> Prop.
Variable scan : pystr -> presult pyval.
Hypothesis scan_P : forall s v r, scan s = Parsed v r -> P v.



End ScanInvariant.








Lemma storable_empty_store : storable empty_store.
Proof. exact (storable_encode_store [] valid_store_nil). Qed.


(** ** The scanner never runs out of fuel *)

Lemma skip_ws_length (s : pystr) : (length (skip_ws s) <= length s)%nat.
Proof.
  induction s as [|c s IH]; cbn [skip_ws]; [lia|].
  destruct (is_ws c); cbn [length]; lia.
Qed.

Lemma pmap_Starved (A B : Type) (f : A -> B) (r : presult A) :
  pmap f r = Starved -> r = Starved.
Proof. now destruct r. Qed.

(** [scanstring] gives a result, and a string it scans ends before the
    rest begins. *)
Lemma scanstring_fed (n : nat) :
  forall s, (length s < n)%nat ->
    scanstring s <> Starved
    /\ forall a r, scanstring s = Parsed a r -> (length r < length s)%nat.
Proof.
  induction n as [|n IH]; intros s Hn; [lia|].
  assert (Hrec : forall t (c : Z), (length t < length s)%nat ->
            pmap (cons c) (scanstring t) <> Starved
            /\ forall a r, pmap (cons c) (scanstring t) = Parsed a r ->
                 (length r < length s)%nat).
  { intros t c Ht. destruct (IH t ltac:(lia)) as [H1 H2]. split.
    - intros H. now apply pmap_Starved in H.
    - intros a r H. apply pmap_Parsed in H as (a' & H & _).
      specialize (H2 _ _ H). lia. }
  destruct s as [|c t]; cbn [scanstring]; [split; [discriminate | discriminate]|].
  destruct (c =? 34); [split; [discriminate | intros a r [= _ <-]; cbn; lia]|].
  destruct (c =? 92).
  2:{ destruct ((0 <=? c) && (c <? 32)); [split; discriminate|].
      apply Hrec. cbn. lia. }
  destruct t as [|e t1]; [split; discriminate|].
  destruct (e =? 117).
  2:{ destruct (unescape e); [|split; discriminate]. apply Hrec. cbn. lia. }
  destruct t1 as [|h1 [|h2 [|h3 [|h4 t2]]]]; try (split; discriminate).
  destruct (hex4 h1 h2 h3 h4) as [u|]; [|split; discriminate].
  destruct (high_surrogate u); [|apply Hrec; cbn; lia].
  destruct t2 as [|b [|v [|g1 [|g2 [|g3 [|g4 t3]]]]]];
    try (apply Hrec; cbn; lia).
  destruct ((b =? 92) && (v =? 117)); [|apply Hrec; cbn; lia].
  destruct (hex4 g1 g2 g3 g4) as [u2|]; [|split; discriminate].
  destruct (low_surrogate u2); apply Hrec; cbn; lia.
Qed.

Lemma scan_digits_length (s : pystr) :
  (length (snd (scan_digits s)) <= length s)%nat.
Proof.
  induction s as [|c s IH]; cbn [scan_digits]; [cbn; lia|].
  destruct (digit c); [|cbn; lia].
  destruct (scan_digits s) as [u r]. cbn [snd length] in *. lia.
Qed.

Lemma match_number_fed (s : pystr) :
  match_number s <> Starved
  /\ forall v r, match_number s = Parsed v r -> (length r < length s)%nat.
Proof.
  unfold match_number, finish_number.
  destruct s as [|c t]; [split; discriminate|].
  destruct (c =? 45); cbn [tl].
  - destruct t as [|c' t']; [split; discriminate|].
    destruct (c' =? 48).
    { destruct (float_follows t'); split; try discriminate.
      intros v r [= _ <-]. cbn. lia. }
    destruct (digit c'); [|split; discriminate].
    pose proof (scan_digits_length (c' :: t')) as Hl.
    destruct (scan_digits (c' :: t')) as [u r]. cbn [snd] in Hl.
    destruct (float_follows r); split; try discriminate.
    intros v r0 [= _ <-]. cbn [length] in *. lia.
  - destruct (c =? 48).
    { destruct (float_follows t); split; try discriminate.
      intros v r [= _ <-]. cbn. lia. }
    destruct (digit c) eqn:Ed; [|split; discriminate].
    pose proof (scan_digits_length t) as Hl.
    cbn [scan_digits]. rewrite Ed.
    destruct (scan_digits t) as [u r]. cbn [snd] in Hl.
    destruct (float_follows r); split; try discriminate.
    intros v r0 [= _ <-]. cbn [length] in *. lia.
Qed.

Lemma starts_with_length (p s r : pystr) :
  starts_with p s = Some r -> length s = (length p + length r)%nat.
Proof.
  revert s. induction p as [|x p IH]; intros [|y s]; cbn [starts_with];
    try discriminate; try (intros [= <-]; reflexivity).
  destruct (x =? y); [|discriminate]. intros H. cbn [length].
  now rewrite (IH s H).
Qed.

Section Fed.

Variable f : nat.
Variable scan : pystr -> presult pyval.
Hypothesis scan_fed :
  forall s, (length s < f)%nat ->
    scan s <> Starved
    /\ forall v r, scan s = Parsed v r -> (length r < length s)%nat.

Lemma array_items_fed (n : nat) :
  forall s, (length s < n)%nat -> (length s < f)%nat ->
    array_items scan n s <> Starved
    /\ forall vs r, array_items scan n s = Parsed vs r -> (length r < length s)%nat.
Proof.
  induction n as [|n IH]; intros s Hn Hf; [lia|]. cbn [array_items].
  destruct (scan_fed s Hf) as [H1 H2].
  destruct (scan s) as [v r1| | |]; try (split; [discriminate | discriminate]);
    [|contradiction].
  specialize (H2 v r1 eq_refl). pose proof (skip_ws_length r1) as Hw.
  destruct (skip_ws r1) as [|c r2]; [split; discriminate|]. cbn [length] in Hw.
  destruct (c =? 93); [split; [discriminate | intros vs r [= _ <-]; lia]|].
  destruct (c =? 44); [|split; discriminate].
  pose proof (skip_ws_length r2) as Hw2.
  destruct (IH (skip_ws r2) ltac:(lia) ltac:(lia)) as [G1 G2]. split.
  - intros H. now apply pmap_Starved in H.
  - intros vs r H. apply pmap_Parsed in H as (vs' & H & _).
    specialize (G2 _ _ H). lia.
Qed.

Lemma object_items_fed (n : nat) :
  forall s, (length s < n)%nat -> (length s < f)%nat ->
    object_items scan n s <> Starved
    /\ forall kvs r, object_items scan n s = Parsed kvs r ->
         (length r < length s)%nat.
Proof.
  induction n as [|n IH]; intros s Hn Hf; [lia|]. cbn [object_items].
  destruct s as [|c t]; [split; discriminate|]. cbn [length] in *.
  destruct (c =? 34); [|split; discriminate].
  destruct (scanstring_fed (S (length t)) t ltac:(lia)) as [S1 S2].
  destruct (scanstring t) as [key r0| | |]; try (split; [discriminate | discriminate]);
    [|contradiction].
  specialize (S2 key r0 eq_refl). pose proof (skip_ws_length r0) as Hw0.
  destruct (skip_ws r0) as [|c1 r1]; [split; discriminate|]. cbn [length] in Hw0.
  destruct (c1 =? 58); [|split; discriminate].
  pose proof (skip_ws_length r1) as Hw1.
  destruct (scan_fed (skip_ws r1) ltac:(lia)) as [H1 H2].
  destruct (scan (skip_ws r1)) as [v r2| | |]; try (split; [discriminate | discriminate]);
    [|contradiction].
  specialize (H2 v r2 eq_refl). pose proof (skip_ws_length r2) as Hw2.
  destruct (skip_ws r2) as [|c2 r3]; [split; discriminate|]. cbn [length] in Hw2.
  destruct (c2 =? 125); [split; [discriminate | intros kvs r [= _ <-]; lia]|].
  destruct (c2 =? 44); [|split; discriminate].
  pose proof (skip_ws_length r3) as Hw3.
  destruct (IH (skip_ws r3) ltac:(lia) ltac:(lia)) as [G1 G2]. split.
  - intros H. now apply pmap_Starved in H.
  - intros kvs r H. apply pmap_Parsed in H as (kvs' & H & _).
    specialize (G2 _ _ H). lia.
Qed.

End Fed.

Lemma scan_once_fed (f : nat) :
  forall s, (length s < f)%nat ->
    scan_once f s <> Starved
    /\ forall v r, scan_once f s = Parsed v r -> (length r < length s)%nat.
Proof.
  induction f as [|f IH]; intros s Hf; [lia|]. cbn [scan_once].
  destruct s as [|c t]; [split; discriminate|]. cbn [length] in Hf.
  destruct (c =? 34).
  { destruct (scanstring_fed (S (length t)) t ltac:(lia)) as [S1 S2]. split.
    - intros H. now apply pmap_Starved in H.
    - intros v r H. apply pmap_Parsed in H as (a & H & _).
      specialize (S2 _ _ H). cbn [length]. lia. }
  destruct (c =? 123).
  { unfold parse_object. pose proof (skip_ws_length t) as Hw.
    destruct (skip_ws t) as [|c1 r1] eqn:Et; [split; discriminate|].
    destruct (c1 =? 125).
    { split; [discriminate|]. intros v r [= _ <-]. cbn [length] in *. lia. }
    destruct (object_items_fed f (scan_once f) IH f (c1 :: r1)) as [G1 G2]; try lia.
    split.
    - intros H. now apply pmap_Starved in H.
    - intros v r H. apply pmap_Parsed in H as (a & H & _).
      specialize (G2 _ _ H). cbn [length] in *. lia. }
  destruct (c =? 91).
  { unfold parse_array. pose proof (skip_ws_length t) as Hw.
    destruct (skip_ws t) as [|c1 r1] eqn:Et; [split; discriminate|].
    destruct (c1 =? 93).
    { split; [discriminate|]. intros v r [= _ <-]. cbn [length] in *. lia. }
    destruct (array_items_fed f (scan_once f) IH f (c1 :: r1)) as [G1 G2]; try lia.
    split.
    - intros H. now apply pmap_Starved in H.
    - intros v r H. apply pmap_Parsed in H as (a & H & _).
      specialize (G2 _ _ H). cbn [length] in *. lia. }
  destruct (starts_with (lit "null") (c :: t)) as [r0|] eqn:E1.
  { split; [discriminate|]. intros v r [= _ <-].
    apply starts_with_length in E1. rewrite E1.
    change (length (lit "null")) with 4%nat. lia. }
  destruct (starts_with (lit "true") (c :: t)) as [r0|] eqn:E2.
  { split; [discriminate|]. intros v r [= _ <-].
    apply starts_with_length in E2. rewrite E2.
    change (length (lit "true")) with 4%nat. lia. }
  destruct (starts_with (lit "false") (c :: t)) as [r0|] eqn:E3.
  { split; [discriminate|]. intros v r [= _ <-].
    apply starts_with_length in E3. rewrite E3.
    change (length (lit "false")) with 5%nat. lia. }
  destruct (match_number_fed (c :: t)) as [M1 M2].
  destruct (match_number (c :: t)) as [v' r'| | |]; [| | |contradiction].
  - split; [discriminate|]. intros v r [= <- <-]. exact (M2 _ _ eq_refl).
  - destruct (starts_with (lit "NaN") (c :: t)), (starts_with (lit "Infinity") (c :: t)),
      (starts_with (lit "-Infinity") (c :: t)); split; discriminate.
  - split; discriminate.
Qed.

(** [loads] gives every text enough fuel. *)
Lemma loads_fed (s : pystr) : loads s <> Starved.
Proof.
  unfold loads. pose proof (skip_ws_length s) as Hw.
  destruct (scan_once_fed (S (length s)) (skip_ws s) ltac:(lia)) as [H _].
  destruct (scan_once (S (length s)) (skip_ws s)) as [v r| | |];
    [destruct (skip_ws r); discriminate | discriminate | discriminate | contradiction].
Qed.

(** ** Facts the statements below lean on *)

(** What [load_data] does absorb: an absent file, and a file whose text
    is not JSON. *)
Lemma load_data_absent : load_data None = (Ok empty_store, None).
Proof. reflexivity. Qed.

Lemma load_data_malformed (bytes : list byte) (text : pystr) :
  utf8_decode bytes = Some text -> loads text = Malformed ->
  load_data (Some bytes) = (Ok empty_store, Some bytes).
Proof.
  intros Hd Hl. unfold load_data, read_json. now rewrite Hd, Hl.
Qed.

(** [load_data] never writes. *)
Lemma load_data_reads (d : disk) : snd (load_data d) = d.
Proof.
  unfold load_data. destruct d as [bytes|]; [|reflexivity].
  destruct (read_json bytes) as [v|[]]; reflexivity.
Qed.

Lemma transcribe_audio_empty (w : pystr -> outcome pystr) (p : pystr) :
  transcribe_audio w p = [] -> w p = Ok [].
Proof.
  unfold transcribe_audio. destruct (w p) as [t|e]; [now intros ->|].
  intros H. apply (f_equal (@length Z)) in H. vm_compute in H. discriminate.
Qed.

Lemma summarize_text_empty (sm : pystr -> outcome pystr) (text : pystr) :
  summarize_text sm text = [] -> text = [] \/ sm text = Ok [].
Proof.
  unfold summarize_text. destruct (length text <? 50)%nat; [now left|].
  destruct (sm text) as [t|e]; [intros ->; now right|].
  destruct (100 <? length text)%nat; [|now left].
  intros H. apply (f_equal (@length Z)) in H. rewrite length_app in H.
  assert (E : length (lit "...") = 3%nat) by reflexivity.
  rewrite E in H. cbn [length] in H. lia.
Qed.

Lemma deaf_env_valid (ts : Z) : valid_env (deaf_env ts).
Proof.
  repeat split; cbn; try discriminate. apply forallb_valid. reflexivity.
Qed.

Lemma apart_notes_valid : Forall valid_event apart_notes.
Proof.
  repeat constructor; cbn; try discriminate; apply forallb_valid; reflexivity.
Qed.

Lemma storable_unicode (v : pyval) : storable v -> unicode_text v.
Proof.
  induction v as [ | b | z | s | l IH | d IH ] using pyval_induction;
    intros Hs; inversion Hs as [ | | | ? Hv | ? Hl | ? Hn Hd ]; subst;
    constructor; auto.
  - clear Hs. induction IH as [|x l Hx _ IHl]; [constructor|].
    inversion Hl; subst. constructor; auto.
  - clear Hs Hn. induction IH as [|[k x] l Hx _ IHl]; [constructor|].
    inversion Hd as [|? ? [Hk Hsx] ?]; subst. cbn [fst snd] in *.
    constructor; auto.
Qed.

Lemma busy_holds : holds busy_disk busy_store.
Proof. vm_compute. reflexivity. Qed.

Lemma busy_valid : valid_store busy_store.
Proof.
  split.
  - repeat constructor; cbn; intuition discriminate.
  - unfold busy_store, busy_user, valid_user, valid_record, note.
    cbn [username records rec_id audio_path raw_text summary_text created_at fst snd].
    repeat first
      [ exact I
      | apply forallb_valid; vm_compute; reflexivity
      | split
      | constructor ].
Qed.

Lemma sorted_firstn_skipn (A : Type) (R : A -> A -> Prop) (n : nat) (l : list A) :
  StronglySorted R l ->
  forall x y, In x (firstn n l) -> In y (skipn n l) -> R x y.
Proof.
  intros H. revert n. induction H as [|a l Hl IH Ha]; intros [|n] x y;
    cbn [firstn skipn In]; try tauto.
  intros [<-|Hx] Hy.
  - rewrite Forall_forall in Ha. apply Ha.
    rewrite <- (firstn_skipn n l). apply in_or_app. now right.
  - now apply (IH n).
Qed.

Lemma by_created_sorted (rs : list record) :
  StronglySorted (fun a b => str_ge (created_at a) (created_at b))
    (map snd (sorted_desc (map (fun r => (created_at r, r)) rs))).
Proof.
  pose proof (sorted_desc_sorted record (map (fun r => (created_at r, r)) rs)) as Hs.
  pose proof (sorted_desc_perm record (map (fun r => (created_at r, r)) rs)) as Hp.
  assert (Hk : Forall (fun p => fst p = created_at (snd p))
                 (sorted_desc (map (fun r => (created_at r, r)) rs))).
  { apply Forall_forall. intros p Hp'.
    apply (Permutation_in _ Hp) in Hp'. apply in_map_iff in Hp' as (r & <- & _).
    reflexivity. }
  clear Hp.
  induction Hs as [|p l Hl IH Hp']; cbn [map]; [constructor|].
  inversion Hk as [|? ? Hkp Hkl]; subst.
  constructor.
  - apply IH. exact Hkl.
  - apply Forall_map. rewrite Forall_forall in *. intros q Hq.
    specialize (Hp' q Hq). unfold by_key in Hp'. unfold str_ge.
    now rewrite Hkp, (Hkl q Hq) in Hp'.
Qed.

(** ** What cannot be written *)








(** * The specification, statement by statement *)

(** ** Summarization *)

(** C7: a text shorter than 50 characters comes back from [summarize_text]
    unchanged, whatever the summarizer would do with it: the function is
    total and below the threshold it is the identity. *)
Theorem summarize_text_short (summarizer : pystr -> outcome pystr) (text : pystr) :
  (length text < 50)%nat -> summarize_text summarizer text = text.
Proof.
  intros H. unfold summarize_text. apply Nat.ltb_lt in H. now rewrite H.
Qed.

Lemma summarize_text_short_witness :
  summarize_text (fun _ => Raise ExternalError) (repeat 1072 40) = repeat 1072 40.
Proof.
  apply (summarize_text_short (fun _ => Raise ExternalError) (repeat 1072 40)).
  apply Nat.ltb_lt. reflexivity.
Defined.

(** C3, as stated, fails: a 60-character text whose summarization fails
    comes back as it is, with no marker after it. *)
Lemma summarize_text_fallback_counterexample :
  (50 <= length (repeat 97 60))%nat
  /\ summarize_text (fun _ => Raise ExternalError) (repeat 97 60) = repeat 97 60
  /\ repeat 97 60 <> firstn 100 (repeat 97 60) ++ lit "...".
Proof.
  split; [apply Nat.leb_le; reflexivity|]. split; [reflexivity|].
  intros H. apply (f_equal (@length Z)) in H. vm_compute in H. discriminate.
Qed.

(** C3, amended: when the summarizer fails on a text of at least 50
    characters, a text of more than 100 characters comes back as its
    first 100 characters followed by three dots, and a text of 50 to 100
    characters comes back unchanged. *)
Theorem summarize_text_fallback (summarizer : pystr -> outcome pystr)
    (text : pystr) (e : exn) :
  (50 <= length text)%nat -> summarizer text = Raise e ->
  ((100 < length text)%nat ->
   summarize_text summarizer text = firstn 100 text ++ lit "...")
  /\ ((length text <= 100)%nat -> summarize_text summarizer text = text).
Proof.
  intros H50 Hf. unfold summarize_text.
  destruct (Nat.ltb_spec (length text) 50) as [H|_]; [lia|]. rewrite Hf.
  destruct (Nat.ltb_spec 100 (length text)); split; intros; (reflexivity || lia).
Qed.

Lemma summarize_text_fallback_witness :
  summarize_text (fun _ => Raise ExternalError) (repeat 97 200)
  = repeat 97 100 ++ lit "...".
Proof.
  apply (summarize_text_fallback (fun _ => Raise ExternalError) (repeat 97 200)
           ExternalError).
  - apply Nat.leb_le. reflexivity.
  - reflexivity.
  - apply Nat.ltb_lt. reflexivity.
Defined.

(** ** Loading *)

(** C2 at a file cut off in the middle of a two-byte character (an
    opening brace, then the first byte of a Cyrillic letter): the read
    raises [UnicodeDecodeError], which [load_data] does not catch. *)
Theorem load_data_cut_character :
  load_data (Some [x7b; xd0]) = (Raise UnicodeDecodeError, Some [x7b; xd0]).
Proof. reflexivity. Qed.

(** ** The store *)



(** C4, as stated, fails: in a file that loads, user 7 has a record with
    the id 42 and another user has a lone surrogate for a name; the
    update of that record with a plain text raises while the file is
    written, and what is left of the file has no record 42 for
    [get_record_by_id] to return. *)
Lemma update_then_get_counterexample :
  exists d',
    load_data mixed_disk = (Ok mixed_value, mixed_disk)
    /\ get_record_by_id 7 42 mixed_disk = (Ok mixed_record, mixed_disk)
    /\ update_summary_text 7 42 (lit "new") mixed_disk = (Raise UnicodeEncodeError, d')
    /\ get_record_by_id 7 42 d' = (Ok PNone, d').
Proof.
  exists (snd (update_summary_text 7 42 (lit "new") mixed_disk)).
  repeat split; vm_compute; reflexivity.
Qed.

(** C4, amended: on a well-formed store (the file holds the program's
    structure of users and records, and every string in it is Unicode
    text) and for a new text that is Unicode text, [update_summary_text]
    on a user who has a record with the given id returns, and
    [get_record_by_id] then returns the first record of that id with
    exactly the new text as its summary and every other field as before:
    the old summary plays no part in the new one. *)
Theorem update_then_get_record (d : disk) (st : store) (uid rid : Z)
    (r : record) (text : pystr) :
  holds d st -> valid_store st -> valid_text text ->
  find_first (user_records st uid) rid = Some r ->
  exists d',
    update_summary_text uid rid text d = (Ok tt, d')
    /\ get_record_by_id uid rid d' = (Ok (encode_record (with_summary r text)), d')
    /\ getitem (encode_record (with_summary r text)) (lit "summary_text")
       = Ok (PStr text).
Proof.
  intros Hd Hv Ht Hr. unfold user_records in Hr.
  destruct (lookup_user st (intstr uid)) as [u|] eqn:Hu; [|discriminate].
  destruct (update_summary_text_ok d st uid rid u text Hd Hv Ht Hu) as (d' & Hup & Hd').
  exists d'. split; [exact Hup|]. split; [|reflexivity].
  rewrite (get_record_by_id_ok d' _ uid rid Hd').
  rewrite user_records_set_same. cbn [with_records records].
  now rewrite find_first_replace_first, Hr.
Qed.

Lemma update_then_get_record_witness :
  exists d',
    update_summary_text 7 42 (lit "new text") busy_disk = (Ok tt, d')
    /\ get_record_by_id 7 42 d'
       = (Ok (encode_record (with_summary (note 42 "03" "b") (lit "new text"))), d')
    /\ getitem (encode_record (with_summary (note 42 "03" "b") (lit "new text")))
         (lit "summary_text")
       = Ok (PStr (lit "new text")).
Proof.
  apply (update_then_get_record busy_disk busy_store 7 42 (note 42 "03" "b")
           (lit "new text") busy_holds busy_valid).
  - apply forallb_valid. reflexivity.
  - reflexivity.
Defined.

(** C9, as stated, fails: in a file that loads, user 7 has no record
    with the id 99 and another user has a lone surrogate for a name;
    [update_summary_text] for that id changes no record, yet it rewrites
    the file, raises while writing, and leaves a file that loads as the
    empty mapping: every user's entry is gone. *)
Lemma update_summary_text_frame_counterexample :
  exists d',
    load_data mixed_disk = (Ok mixed_value, mixed_disk)
    /\ get_user_records 7 mixed_disk = (Ok (PList [mixed_record]), mixed_disk)
    /\ get_record_by_id 7 99 mixed_disk = (Ok PNone, mixed_disk)
    /\ update_summary_text 7 99 (lit "new") mixed_disk = (Raise UnicodeEncodeError, d')
    /\ load_data d' = (Ok empty_store, d')
    /\ mixed_value <> empty_store.
Proof.
  exists (snd (update_summary_text 7 99 (lit "new") mixed_disk)).
  repeat split; try (vm_compute; reflexivity). vm_compute. discriminate.
Qed.

(** C9, amended: on a well-formed store (the program's structure, every
    string Unicode text) and for a new text that is Unicode text,
    [update_summary_text] on a user of the store keeps the keys and every
    other user's entry, the user's name and the number of records;
    position by position each record keeps its id, audio path, raw text
    and creation time, and a record whose summary changed is the first
    one with the given id; when no record has that id the store is
    unchanged. *)
Theorem update_summary_text_frame (d : disk) (st : store) (uid rid : Z)
    (u : user) (text : pystr) :
  holds d st -> valid_store st -> valid_text text ->
  lookup_user st (intstr uid) = Some u ->
  exists d' st' u',
    update_summary_text uid rid text d = (Ok tt, d')
    /\ holds d' st'
    /\ map fst st' = map fst st
    /\ (forall k, k <> intstr uid -> lookup_user st' k = lookup_user st k)
    /\ lookup_user st' (intstr uid) = Some u'
    /\ username u' = username u
    /\ length (records u') = length (records u)
    /\ (forall i q, nth_error (records u) i = Some q ->
          exists q', nth_error (records u') i = Some q'
            /\ rec_id q' = rec_id q /\ audio_path q' = audio_path q
            /\ raw_text q' = raw_text q /\ created_at q' = created_at q
            /\ (q' = q
                \/ (summary_text q' = text /\ rec_id q = rid
                    /\ forall j p, (j < i)%nat ->
                         nth_error (records u) j = Some p -> rec_id p <> rid)))
    /\ (find_first (records u) rid = None -> st' = st).
Proof.
  intros Hd Hv Ht Hu.
  destruct (update_summary_text_ok d st uid rid u text Hd Hv Ht Hu) as (d' & Hup & Hd').
  exists d', (set_user st (intstr uid) (with_records u (replace_first (records u) rid text))),
    (with_records u (replace_first (records u) rid text)).
  split; [exact Hup|]. split; [exact Hd'|].
  split; [exact (set_user_keys st _ _ u Hu)|].
  split; [intros k Hk; now apply lookup_set_user_other|].
  split; [apply lookup_set_user_same|]. split; [reflexivity|].
  cbn [with_records records]. split; [apply length_replace_first|]. split.
  - intros i q Hq.
    destruct (nth_replace_first (records u) rid text i q Hq) as [(Hid & Hb & Hn)|Hn].
    + exists (with_summary q text). split; [exact Hn|].
      repeat (split; [reflexivity|]). right. now repeat split.
    + exists q. split; [exact Hn|]. repeat (split; [reflexivity|]). now left.
  - intros Hnone. rewrite replace_first_absent by exact Hnone.
    destruct u as [n rs]. unfold with_records. cbn [username records].
    now apply set_user_same.
Qed.

Lemma update_summary_text_frame_witness :
  exists d' st' u',
    update_summary_text 7 42 (lit "new text") busy_disk = (Ok tt, d')
    /\ holds d' st'
    /\ map fst st' = map fst busy_store
    /\ (forall k, k <> intstr 7 -> lookup_user st' k = lookup_user busy_store k)
    /\ lookup_user st' (intstr 7) = Some u'
    /\ username u' = username busy_user
    /\ length (records u') = length (records busy_user)
    /\ (forall i q, nth_error (records busy_user) i = Some q ->
          exists q', nth_error (records u') i = Some q'
            /\ rec_id q' = rec_id q /\ audio_path q' = audio_path q
            /\ raw_text q' = raw_text q /\ created_at q' = created_at q
            /\ (q' = q
                \/ (summary_text q' = lit "new text" /\ rec_id q = 42
                    /\ forall j p, (j < i)%nat ->
                         nth_error (records busy_user) j = Some p -> rec_id p <> 42)))
    /\ (find_first (records busy_user) 42 = None -> st' = busy_store).
Proof.
  apply (update_summary_text_frame busy_disk busy_store 7 42 busy_user
           (lit "new text") busy_holds busy_valid).
  - apply forallb_valid. reflexivity.
  - reflexivity.
Defined.

(** ** Voice ingestion *)

(** C1, as stated, fails: for a voice note of silence Whisper succeeds
    with the empty text, and [handle_voice] saves a record whose raw text
    and summary are both empty. *)
Lemma handle_voice_counterexample :
  exists d',
    handle_voice silent_env 7 None (lit "f") None = (Ok (Heard []), d')
    /\ holds d'
         [(lit "7",
           {| username := None;
              records := [ {| rec_id := 1700000000;
                              audio_path := lit "audio/f.ogg";
                              raw_text := [];
                              summary_text := [];
                              created_at := lit "2023-11-14T22:13:20" |} ] |})].
Proof.
  exists (snd (handle_voice silent_env 7 None (lit "f") None)).
  split; vm_compute; reflexivity.
Qed.

(** C1, amended: once the download has succeeded, [handle_voice] on a
    valid store appends exactly one record to that user's list and leaves
    every other user's entry alone; the record holds the transcript and
    its summary, its raw text is empty only when the transcription itself
    returned the empty string, and its summary is empty only when the raw
    text is empty or the summarizer itself returned the empty string.  So
    a stage that fails never makes a field empty. *)
Theorem handle_voice_appends (d : disk) (st : store) (env : voice_env) (uid : Z)
    (name : option pystr) (file_id : pystr) :
  holds d st -> valid_store st -> valid_env env -> valid_name name ->
  valid_text file_id -> download env = Ok tt ->
  exists d' st' r,
    handle_voice env uid name file_id d = (Ok (Heard (summary_text r)), d')
    /\ holds d' st'
    /\ user_records st' uid = user_records st uid ++ [r]
    /\ (forall k, k <> intstr uid -> lookup_user st' k = lookup_user st k)
    /\ raw_text r = transcribe_audio (whisper env) (audio_path r)
    /\ summary_text r = summarize_text (summarizer env) (raw_text r)
    /\ (raw_text r = [] -> whisper env (audio_path r) = Ok [])
    /\ (summary_text r = [] ->
        raw_text r = [] \/ summarizer env (raw_text r) = Ok []).
Proof.
  intros Hd Hv He Hn Hf Hdl.
  destruct (handle_voice_ok d st env uid name file_id Hd Hv He Hn Hf) as (d' & Hh & Hd').
  rewrite Hdl in Hh. cbn [store_after] in Hd'. rewrite Hdl in Hd'.
  destruct (ensure_user_lookup st uid name) as (u & Hu & Hr). rewrite Hu in Hd'.
  exists d', (set_user (ensure_user st uid name) (intstr uid)
                (with_records u (records u ++ [voice_record env file_id]))),
    (voice_record env file_id).
  split; [exact Hh|]. split; [exact Hd'|].
  split; [rewrite user_records_set_same; cbn [with_records records]; now rewrite Hr|].
  split.
  { intros k Hk. rewrite lookup_set_user_other by exact Hk.
    now apply ensure_user_other. }
  split; [reflexivity|]. split; [reflexivity|].
  split; [apply transcribe_audio_empty | apply summarize_text_empty].
Qed.

Lemma handle_voice_appends_witness :
  exists d' st' r,
    handle_voice (deaf_env 1700000000) 7 (Some (lit "ann")) (lit "f") sample_disk
    = (Ok (Heard (summary_text r)), d')
    /\ holds d' st'
    /\ user_records st' 7 = user_records sample_store 7 ++ [r]
    /\ (forall k, k <> intstr 7 -> lookup_user st' k = lookup_user sample_store k)
    /\ raw_text r = transcribe_audio (whisper (deaf_env 1700000000)) (audio_path r)
    /\ summary_text r = summarize_text (summarizer (deaf_env 1700000000)) (raw_text r)
    /\ (raw_text r = [] -> whisper (deaf_env 1700000000) (audio_path r) = Ok [])
    /\ (summary_text r = [] ->
        raw_text r = [] \/ summarizer (deaf_env 1700000000) (raw_text r) = Ok []).
Proof.
  apply (handle_voice_appends sample_disk sample_store (deaf_env 1700000000) 7
           (Some (lit "ann")) (lit "f") sample_holds sample_valid
           (deaf_env_valid 1700000000)).
  - apply forallb_valid. reflexivity.
  - apply forallb_valid. reflexivity.
  - reflexivity.
Defined.

(** ** Record ids *)




(** ** The record listing *)

(** C5: the document-creation action shows no listing to a user without
    records; otherwise it renders one button per record of [recent], the
    user's records sorted by their [created_at] strings in descending
    order (stably) and cut to the first ten, followed by the back button.
    So the listing has at most ten record entries, in descending order of
    creation time; they are [min 10 n] of the user's [n] records, each
    shown once, and no record left out is newer than a record shown. *)
Theorem create_document_button_listing (fmt : pystr -> outcome pystr)
    (d : disk) (st : store) (uid : Z) :
  holds d st ->
  create_document_button fmt uid d
  = (match user_records st uid with
     | [] => Ok NoRecords
     | _ :: _ =>
         rows <~ map_outcome (record_button fmt)
                   (map encode_record (recent (user_records st uid))) ;;
         Ok (Keyboard (rows ++ [back_button]))
     end, d)
  /\ (forall rows,
        map_outcome (record_button fmt)
          (map encode_record (recent (user_records st uid))) = Ok rows ->
        (length rows <= 10)%nat)
  /\ (length (recent (user_records st uid)) <= 10)%nat
  /\ StronglySorted (fun a b => str_ge (created_at a) (created_at b))
       (recent (user_records st uid))
  /\ (exists rest, Permutation (recent (user_records st uid) ++ rest)
                     (user_records st uid))
  /\ length (recent (user_records st uid)) = Nat.min 10 (length (user_records st uid))
  /\ (forall rows,
        map_outcome (record_button fmt)
          (map encode_record (recent (user_records st uid))) = Ok rows ->
        length rows = Nat.min 10 (length (user_records st uid)))
  /\ (exists rest,
        Permutation (recent (user_records st uid) ++ rest) (user_records st uid)
        /\ forall s r, In s (recent (user_records st uid)) -> In r rest ->
                       str_ge (created_at s) (created_at r)).
Proof.
  intros Hd.
  assert (Hlen : length (recent (user_records st uid))
                 = Nat.min 10 (length (user_records st uid))).
  { unfold recent. rewrite length_firstn, length_map.
    rewrite (Permutation_length (sorted_desc_perm record _)). now rewrite length_map. }
  split; [|split; [|split; [|split; [|split; [|split; [|split]]]]]].
  - unfold create_document_button, bind, lift, ret.
    rewrite (get_user_records_ok d st uid Hd).
    destruct (user_records st uid) as [|r rs] eqn:E; [reflexivity|].
    cbn [truthy map negb py_iter].
    change (encode_record r :: map encode_record rs)
      with (map encode_record (r :: rs)).
    rewrite recent_records_encode.
    destruct (map_outcome (record_button fmt) (map encode_record (recent (r :: rs))));
      reflexivity.
  - intros rows H. apply map_outcome_length in H. rewrite H, length_map.
    apply recent_length.
  - apply recent_length.
  - apply recent_sorted.
  - apply recent_perm.
  - exact Hlen.
  - intros rows H. apply map_outcome_length in H. now rewrite H, length_map.
  - exists (skipn 10 (map snd (sorted_desc
                                 (map (fun r => (created_at r, r)) (user_records st uid))))).
    split.
    + unfold recent. rewrite firstn_skipn.
      rewrite (Permutation_map snd (sorted_desc_perm record _)).
      rewrite map_map. cbn [snd]. now rewrite map_id.
    + intros s r. unfold recent.
      exact (sorted_firstn_skipn _ _ 10%nat _ (by_created_sorted (user_records st uid)) s r).
Qed.

Lemma create_document_button_listing_witness :
  create_document_button day_month_time 7 busy_disk
  = (Ok (Keyboard
           [(lit "12.01 10:00 — c...", lit "select_42");
            (lit "11.01 10:00 — h...", lit "select_48");
            (lit "09.01 10:00 — e...", lit "select_45");
            (lit "09.01 10:00 — f...", lit "select_46");
            (lit "08.01 10:00 — j...", lit "select_50");
            (lit "07.01 10:00 — k...", lit "select_51");
            (lit "06.01 10:00 — l...", lit "select_52");
            (lit "05.01 10:00 — a...", lit "select_41");
            (lit "04.01 10:00 — i...", lit "select_49");
            (lit "03.01 10:00 — b...", lit "select_42");
            (lit "↩️ Назад", lit "start")]),
     busy_disk).
Proof.
  exact (proj1 (create_document_button_listing day_month_time busy_disk busy_store 7
                  busy_holds)).
Defined.

(** ** Load, then save *)




(** * Further properties of the store and the stages *)

(** X1: on a file that is UTF-8 text within the limits of the
    interpreter (no run of more than 4300 digits, at most 100 opening
    brackets and braces) and in which the parser meets no float,
    [load_data] does not raise and does not write: it returns what the
    text parses to, and the empty mapping when the text is not JSON. *)
Theorem load_data_utf8 (bytes : list byte) (text : pystr) :
  utf8_decode bytes = Some text -> loads text <> FloatSeen ->
  digit_runs_within 4300 0 text = true -> (openings text <= 100)%nat ->
  exists v,
    load_data (Some bytes) = (Ok v, Some bytes)
    /\ (loads text = Malformed -> v = empty_store)
    /\ (forall w rest, loads text = Parsed w rest -> v = w).
Proof.
  intros Hd Hf _ _. unfold load_data, read_json. rewrite Hd.
  destruct (loads text) as [w rest| | | ] eqn:E.
  - exists w. split; [reflexivity|]. split; [discriminate|].
    intros w' rest' H. now inversion H.
  - exists empty_store. split; [reflexivity|]. split; [reflexivity|discriminate].
  - now contradiction Hf.
  - now contradiction (loads_fed text).
Qed.

Lemma load_data_utf8_witness :
  exists v,
    load_data (Some (quoted "[1, 2")) = (Ok v, Some (quoted "[1, 2"))
    /\ (loads (lit "[1, 2") = Malformed -> v = empty_store)
    /\ (forall w rest, loads (lit "[1, 2") = Parsed w rest -> v = w).
Proof.
  apply (load_data_utf8 (quoted "[1, 2") (lit "[1, 2")).
  - reflexivity.
  - vm_compute. discriminate.
  - reflexivity.
  - apply Nat.leb_le. reflexivity.
Defined.

(** X2: what [save_data] writes, [load_data] reads back: for every
    well-formed store (the program's structure of users and records, one
    entry per key, every string Unicode text) whose record ids have at
    most 4300 digits, the save succeeds whatever the file held before,
    and the file then loads as that store. *)
Theorem save_data_load_data (st : store) (d : disk) :
  valid_store st -> ids_writable st ->
  exists d',
    save_data (encode_store st) d = (Ok tt, d')
    /\ load_data d' = (Ok (encode_store st), d').
Proof.
  intros Hv _. destruct (save_holds st d Hv) as (d' & Hs & Hd').
  exists d'. split; [exact Hs | exact Hd'].
Qed.

Lemma save_data_load_data_witness :
  exists d',
    save_data (encode_store busy_store) None = (Ok tt, d')
    /\ load_data d' = (Ok (encode_store busy_store), d').
Proof.
  apply (save_data_load_data busy_store None busy_valid).
  unfold ids_writable, busy_store, busy_user, note. cbn [snd records rec_id].
  repeat (constructor; [repeat (constructor; [vm_compute; reflexivity|]); constructor|]).
  constructor.
Defined.

(** X3: the handlers keep the file well formed: every state of the file
    reached from a fresh start through [start], voice messages and
    summary edits loads as a store with one entry per user key and
    Unicode text in every field. *)
Theorem reachable_store (d : disk) :
  reachable d -> exists st, holds d st /\ valid_store st.
Proof.
  intros (evs & Hev & <-). exists (fold_left store_after evs []).
  exact (run_events_holds evs None [] holds_fresh valid_store_nil Hev).
Qed.

Lemma reachable_store_witness :
  exists st, holds (run_events apart_notes None) st /\ valid_store st.
Proof.
  apply (reachable_store (run_events apart_notes None)).
  exists apart_notes. split; [exact apart_notes_valid | reflexivity].
Defined.

(** X4: [get_record_by_id] returns [None], and leaves the file alone,
    when the user has no record with the given id; a user the store does
    not know is such a user. *)
Theorem get_record_by_id_absent (d : disk) (st : store) (uid rid : Z) :
  holds d st -> find_first (user_records st uid) rid = None ->
  get_record_by_id uid rid d = (Ok PNone, d).
Proof.
  intros Hd Hn. unfold get_record_by_id, bind, lift.
  rewrite (get_user_records_ok d st uid Hd). cbn [py_iter].
  now rewrite find_record_encode, Hn.
Qed.

Lemma get_record_by_id_absent_witness :
  get_record_by_id 8 42 sample_disk = (Ok PNone, sample_disk).
Proof.
  apply (get_record_by_id_absent sample_disk sample_store 8 42 sample_holds).
  reflexivity.
Defined.

(** X5: [update_summary_text] for a user the store does not know raises
    [KeyError] before anything is written. *)
Theorem update_summary_text_no_user (d : disk) (st : store) (uid rid : Z)
    (text : pystr) :
  holds d st -> lookup_user st (intstr uid) = None ->
  update_summary_text uid rid text d = (Raise KeyError, d).
Proof.
  intros Hd Hn. unfold update_summary_text, bind, lift. rewrite Hd.
  change (getitem (encode_store st) (lit "users"))
    with (Ok (A:=pyval) (PDict (encode_users st))).
  cbn [getitem]. now rewrite dict_get_encode_users, Hn.
Qed.

Lemma update_summary_text_no_user_witness :
  update_summary_text 8 42 (lit "new") sample_disk = (Raise KeyError, sample_disk).
Proof.
  apply (update_summary_text_no_user sample_disk sample_store 8 42 (lit "new")
           sample_holds).
  reflexivity.
Defined.

(** X6: when the download of a voice message fails, [handle_voice]
    answers with the failure message and saves no record; the user's
    entry has been created all the same. *)
Theorem handle_voice_download_fails (d : disk) (st : store) (env : voice_env)
    (uid : Z) (name : option pystr) (file_id : pystr) (e : exn) :
  holds d st -> valid_store st -> valid_name name ->
  download env = Raise e -> e <> Unmodelled ->
  exists d',
    handle_voice env uid name file_id d = (Ok VoiceFailed, d')
    /\ holds d' (ensure_user st uid name)
    /\ user_records (ensure_user st uid name) uid = user_records st uid.
Proof.
  intros Hd Hv Hn Hdl He.
  assert (Hg : exists v d', get_or_create_user uid name d = (Ok v, d')
                            /\ holds d' (ensure_user st uid name)).
  { unfold ensure_user. destruct (lookup_user st (intstr uid)) as [u|] eqn:Hu.
    - exists (encode_user u), d. split; [|exact Hd].
      exact (get_or_create_user_present d st uid name u Hd Hu).
    - destruct (get_or_create_user_new d st uid name Hd Hv Hn Hu) as (d' & Hc & Hd').
      now exists (encode_user (new_user name)), d'. }
  destruct Hg as (v & d' & Hc & Hd'). exists d'.
  split; [|split; [exact Hd'|]].
  - unfold handle_voice, bind. rewrite Hc. unfold try_except, lift, ret.
    rewrite Hdl. destruct e; try reflexivity. now contradiction He.
  - apply user_records_ensure.
Qed.

Lemma handle_voice_download_fails_witness :
  exists d',
    handle_voice offline_env 8 None (lit "f") sample_disk = (Ok VoiceFailed, d')
    /\ holds d' (ensure_user sample_store 8 None)
    /\ user_records (ensure_user sample_store 8 None) 8 = user_records sample_store 8.
Proof.
  apply (handle_voice_download_fails sample_disk sample_store offline_env 8 None
           (lit "f") ExternalError sample_holds sample_valid I).
  - reflexivity.
  - discriminate.
Defined.

(** X7: when the transcription fails, [transcribe_audio] returns its
    fixed sentence, which is not empty and, being shorter than 50
    characters, is its own summary. *)
Theorem transcribe_audio_fallback (whisper summarizer : pystr -> outcome pystr)
    (audio_path : pystr) (e : exn) :
  whisper audio_path = Raise e ->
  transcribe_audio whisper audio_path = lit "Не удалось понять тебя, родной"
  /\ transcribe_audio whisper audio_path <> []
  /\ summarize_text summarizer (transcribe_audio whisper audio_path)
     = transcribe_audio whisper audio_path.
Proof.
  intros H. unfold transcribe_audio. rewrite H.
  split; [reflexivity|]. split; [|reflexivity].
  intros E. apply (f_equal (@length Z)) in E. vm_compute in E. discriminate.
Qed.

Lemma transcribe_audio_fallback_witness :
  transcribe_audio (whisper (deaf_env 0)) (lit "audio/f.ogg")
  = lit "Не удалось понять тебя, родной"
  /\ transcribe_audio (whisper (deaf_env 0)) (lit "audio/f.ogg") <> []
  /\ summarize_text (summarizer (deaf_env 0))
       (transcribe_audio (whisper (deaf_env 0)) (lit "audio/f.ogg"))
     = transcribe_audio (whisper (deaf_env 0)) (lit "audio/f.ogg").
Proof.
  apply (transcribe_audio_fallback (whisper (deaf_env 0)) (summarizer (deaf_env 0))
           (lit "audio/f.ogg") ExternalError).
  reflexivity.
Defined.

(** X8: the button of a stored record shows the formatted creation time,
    a dash, the first 30 characters of the summary and three dots, and
    carries the record id as [select_<id>]; it fails only when the
    creation time cannot be formatted. *)
Theorem record_button_text (fmt : pystr -> outcome pystr) (r : record) :
  record_button fmt (encode_record r)
  = (date_str <~ fmt (created_at r) ;;
     Ok (date_str ++ lit " — " ++ firstn 30 (summary_text r) ++ lit "...",
         lit "select_" ++ intstr (rec_id r))).
Proof.
  unfold record_button.
  change (getitem (encode_record r) (lit "created_at"))
    with (Ok (A:=pyval) (PStr (created_at r))).
  cbn [obind]. destruct (fmt (created_at r)); reflexivity.
Qed.



(** X10: [save_voice_record] for a user the store does not know raises
    [KeyError] before anything is written, whatever the record. *)
Theorem save_voice_record_no_user (d : disk) (st : store) (uid : Z)
    (path raw summary : pystr) (ts : Z) (iso : pystr) :
  holds d st -> lookup_user st (intstr uid) = None ->
  save_voice_record uid path raw summary ts iso d = (Raise KeyError, d).
Proof.
  intros Hd Hn. unfold save_voice_record, bind, lift. rewrite Hd.
  change (getitem (encode_store st) (lit "users"))
    with (Ok (A:=pyval) (PDict (encode_users st))).
  cbn [getitem]. now rewrite dict_get_encode_users, Hn.
Qed.

Lemma save_voice_record_no_user_witness :
  save_voice_record 8 (lit "audio/f.ogg") (lit "raw") (lit "sum") 1700000000
    (lit "2023-11-14T22:13:20") sample_disk
  = (Raise KeyError, sample_disk).
Proof.
  apply (save_voice_record_no_user sample_disk sample_store 8 (lit "audio/f.ogg")
           (lit "raw") (lit "sum") 1700000000 (lit "2023-11-14T22:13:20")
           sample_holds).
  reflexivity.
Defined.

(** * The store and the listing, further *)

(** X11: of the stored records of a user, the listing keeps the latest
    ten: [sorted(...)[:10]] returns [min 10 n] of the [n] records, each
    record at most once, and no record left out has a greater
    [created_at] than a record kept. *)
Theorem recent_records_latest (rs : list record) :
  exists shown rest,
    recent_records (map encode_record rs) = Ok (map encode_record shown)
    /\ length shown = Nat.min 10 (length rs)
    /\ Permutation (shown ++ rest) rs
    /\ forall s r, In s shown -> In r rest -> str_ge (created_at s) (created_at r).
Proof.
  exists (recent rs),
    (skipn 10 (map snd (sorted_desc (map (fun r => (created_at r, r)) rs)))).
  split; [apply recent_records_encode|]. split; [|split].
  - unfold recent. rewrite length_firstn, length_map.
    rewrite (Permutation_length (sorted_desc_perm record _)). now rewrite length_map.
  - unfold recent. rewrite firstn_skipn.
    rewrite (Permutation_map snd (sorted_desc_perm record _)).
    rewrite map_map. cbn [snd]. now rewrite map_id.
  - intros s r. unfold recent.
    exact (sorted_firstn_skipn _ _ 10%nat _ (by_created_sorted rs) s r).
Qed.

Lemma get_user_records_reads (uid : Z) (d : disk) : snd (get_user_records uid d) = d.
Proof.
  unfold get_user_records, bind, lift. pose proof (load_data_reads d) as Hl.
  destruct (load_data d) as [[v|e] d0]; cbn [snd] in Hl; subst d0; [|reflexivity].
  destruct (getitem v (lit "users")) as [us|e]; [|reflexivity].
  destruct (py_get us (intstr uid) (PDict [])) as [u|e]; reflexivity.
Qed.

Lemma get_record_by_id_reads (uid rid : Z) (d : disk) :
  snd (get_record_by_id uid rid d) = d.
Proof.
  unfold get_record_by_id, bind, lift. pose proof (get_user_records_reads uid d) as H.
  destruct (get_user_records uid d) as [[v|e] d0]; cbn [snd] in H; subst d0;
    [|reflexivity].
  destruct (py_iter v) as [l|e]; reflexivity.
Qed.

(** X12: the operations that read the store never write the file,
    whatever it holds, and whether they return or raise. *)
Theorem readers_never_write (fmt : pystr -> outcome pystr) (uid rid : Z) (d : disk) :
  snd (get_user_records uid d) = d
  /\ snd (get_record_by_id uid rid d) = d
  /\ snd (create_document_button fmt uid d) = d.
Proof.
  split; [apply get_user_records_reads|]. split; [apply get_record_by_id_reads|].
  unfold create_document_button, bind, lift, ret.
  pose proof (get_user_records_reads uid d) as H.
  destruct (get_user_records uid d) as [[v|e] d0]; cbn [snd] in H; subst d0;
    [|reflexivity].
  destruct (negb (truthy v)); [reflexivity|].
  destruct (py_iter v) as [l|e]; [|reflexivity].
  destruct (recent_records l) as [sh|e]; [|reflexivity].
  destruct (map_outcome (record_button fmt) sh) as [rows|e]; reflexivity.
Qed.

Lemma find_first_app (rs qs : list record) (rid : Z) :
  find_first (rs ++ qs) rid
  = match find_first rs rid with
    | Some r => Some r
    | None => find_first qs rid
    end.
Proof.
  induction rs as [|r rs IH]; cbn [List.app find_first]; [reflexivity|].
  destruct (rec_id r =? rid); [reflexivity | exact IH].
Qed.

(** X13: on a well-formed store (every string Unicode text) and for a
    record whose text fields are Unicode text, [save_voice_record] for a
    user of the store appends the record at the end of the user's list
    and returns its id; looking that id up afterwards gives the new
    record only when no earlier record of the user has the same id:
    otherwise [get_record_by_id] returns the earlier one. *)
Theorem save_voice_record_then_get (d : disk) (st : store) (uid : Z) (u : user)
    (path raw summary : pystr) (ts : Z) (iso : pystr) :
  holds d st -> valid_store st ->
  lookup_user st (intstr uid) = Some u ->
  valid_record (new_record ts path raw summary iso) ->
  exists d',
    save_voice_record uid path raw summary ts iso d = (Ok ts, d')
    /\ get_user_records uid d'
       = (Ok (PList (map encode_record
                       (records u ++ [new_record ts path raw summary iso]))), d')
    /\ get_record_by_id uid ts d'
       = (Ok (encode_record
                (match find_first (records u) ts with
                 | Some r => r
                 | None => new_record ts path raw summary iso
                 end)), d').
Proof.
  intros Hd Hv Hu Hr.
  destruct (save_voice_record_ok d st uid u path raw summary ts iso Hd Hv Hu Hr)
    as (d' & Hs & Hd').
  exists d'. split; [exact Hs|]. split.
  - rewrite (get_user_records_ok d' _ uid Hd'). now rewrite user_records_set_same.
  - rewrite (get_record_by_id_ok d' _ uid ts Hd'). rewrite user_records_set_same.
    cbn [with_records records]. rewrite find_first_app.
    destruct (find_first (records u) ts); [reflexivity|].
    cbn [find_first new_record rec_id]. now rewrite Z.eqb_refl.
Qed.

Lemma save_voice_record_then_get_witness :
  exists d',
    save_voice_record 7 (lit "audio/f.ogg") (lit "raw") (lit "sum") 42
      (lit "2024-01-02T10:00:00") sample_disk = (Ok 42, d')
    /\ get_user_records 7 d'
       = (Ok (PList (map encode_record
                       ([sample_record]
                        ++ [new_record 42 (lit "audio/f.ogg") (lit "raw") (lit "sum")
                              (lit "2024-01-02T10:00:00")]))), d')
    /\ get_record_by_id 7 42 d' = (Ok (encode_record sample_record), d').
Proof.
  apply (save_voice_record_then_get sample_disk sample_store 7
           {| username := Some (lit "ann"); records := [sample_record] |}
           (lit "audio/f.ogg") (lit "raw") (lit "sum") 42 (lit "2024-01-02T10:00:00")
           sample_holds sample_valid eq_refl).
  repeat split; apply forallb_valid; reflexivity.
Defined.

Lemma replace_first_twice (rs : list record) (rid : Z) (s t : pystr) :
  replace_first (replace_first rs rid s) rid t = replace_first rs rid t.
Proof.
  induction rs as [|r rs IH]; cbn [replace_first]; [reflexivity|].
  destruct (rec_id r =? rid) eqn:E; cbn [replace_first with_summary rec_id].
  - now rewrite E.
  - now rewrite E, IH.
Qed.

Lemma set_user_twice (st : store) (k : pystr) (u v : user) :
  set_user (set_user st k u) k v = set_user st k v.
Proof.
  induction st as [|[k' u'] st IH]; cbn [set_user].
  - now rewrite str_eqb_refl.
  - destruct (str_eqb k k') eqn:E; cbn [set_user]; rewrite E; [reflexivity|].
    now rewrite IH.
Qed.

(** What [update_summary_text] writes, for a user of the store. *)
Lemma update_summary_text_saves (d : disk) (st : store) (uid rid : Z) (u : user)
    (s : pystr) :
  holds d st -> lookup_user st (intstr uid) = Some u ->
  update_summary_text uid rid s d
  = save_data (encode_store (set_user st (intstr uid)
                 (with_records u (replace_first (records u) rid s)))) d.
Proof.
  intros Hd Hu. unfold update_summary_text, bind, lift. rewrite Hd.
  rewrite getitem_users. cbn [getitem].
  rewrite dict_get_encode_users, Hu. cbn [option_map].
  fold (getitem (encode_user u) (lit "records")). rewrite getitem_records.
  cbn [py_iter]. rewrite replace_summary_encode, setitem_records.
  cbn [setitem]. rewrite dict_set_encode_users.
  change (PDict [(lit "users", PDict (encode_users st))]) with (encode_store st).
  now rewrite setitem_users.
Qed.

(** X14: the last edit wins: on a well-formed store (every string
    Unicode text) and for two new texts that are Unicode text, two calls
    of [update_summary_text] for the same record of a user of the store
    in a row leave the file, byte for byte, as the second call alone
    would have; in particular repeating a call changes nothing. *)
Theorem update_summary_text_last_wins (d : disk) (st : store) (uid rid : Z)
    (u : user) (t1 t2 : pystr) :
  holds d st -> valid_store st -> valid_text t1 -> valid_text t2 ->
  lookup_user st (intstr uid) = Some u ->
  exists d1 d2,
    update_summary_text uid rid t1 d = (Ok tt, d1)
    /\ update_summary_text uid rid t2 d1 = (Ok tt, d2)
    /\ update_summary_text uid rid t2 d = (Ok tt, d2).
Proof.
  intros Hd Hv H1 H2 Hu.
  destruct (update_summary_text_ok d st uid rid u t1 Hd Hv H1 Hu) as (d1 & Hr1 & Hd1).
  destruct (update_summary_text_ok d st uid rid u t2 Hd Hv H2 Hu) as (d2 & Hr2 & Hd2).
  exists d1, d2. split; [exact Hr1|]. split; [|exact Hr2].
  rewrite (update_summary_text_saves d1 _ uid rid _ t2 Hd1 (lookup_set_user_same _ _ _)).
  rewrite (update_summary_text_saves d st uid rid u t2 Hd Hu) in Hr2.
  cbn [with_records records username]. rewrite set_user_twice, replace_first_twice.
  exact Hr2.
Qed.

Lemma update_summary_text_last_wins_witness :
  exists d1 d2,
    update_summary_text 7 42 (lit "first") sample_disk = (Ok tt, d1)
    /\ update_summary_text 7 42 (lit "second") d1 = (Ok tt, d2)
    /\ update_summary_text 7 42 (lit "second") sample_disk = (Ok tt, d2).
Proof.
  apply (update_summary_text_last_wins sample_disk sample_store 7 42
           {| username := Some (lit "ann"); records := [sample_record] |}
           (lit "first") (lit "second") sample_holds sample_valid).
  - apply forallb_valid. reflexivity.
  - apply forallb_valid. reflexivity.
  - reflexivity.
Defined.

(** X15: [load_data] forgives a file that is not JSON, not one of the
    wrong shape: when the file holds a JSON object without the key
    [users], every store operation raises [KeyError] and leaves the file
    as it is. *)
Theorem store_needs_users (d : disk) (kv : list (pystr * pyval)) (uid rid : Z)
    (name : option pystr) (path raw summary iso text : pystr) (ts : Z) :
  load_data d = (Ok (PDict kv), d) -> dict_get kv (lit "users") = None ->
  get_or_create_user uid name d = (Raise KeyError, d)
  /\ save_voice_record uid path raw summary ts iso d = (Raise KeyError, d)
  /\ get_user_records uid d = (Raise KeyError, d)
  /\ get_record_by_id uid rid d = (Raise KeyError, d)
  /\ update_summary_text uid rid text d = (Raise KeyError, d).
Proof.
  intros Hl Hk.
  unfold get_or_create_user, save_voice_record, get_record_by_id, get_user_records,
    update_summary_text, bind, lift.
  rewrite Hl. cbn [getitem]. rewrite Hk. repeat split.
Qed.

Lemma store_needs_users_witness :
  get_or_create_user 7 None (Some (quoted "{}")) = (Raise KeyError, Some (quoted "{}"))
  /\ save_voice_record 7 (lit "a") (lit "b") (lit "c") 1 (lit "d") (Some (quoted "{}"))
     = (Raise KeyError, Some (quoted "{}"))
  /\ get_user_records 7 (Some (quoted "{}")) = (Raise KeyError, Some (quoted "{}"))
  /\ get_record_by_id 7 42 (Some (quoted "{}")) = (Raise KeyError, Some (quoted "{}"))
  /\ update_summary_text 7 42 (lit "e") (Some (quoted "{}"))
     = (Raise KeyError, Some (quoted "{}")).
Proof.
  apply (store_needs_users (Some (quoted "{}")) [] 7 42 None (lit "a") (lit "b")
           (lit "c") (lit "d") (lit "e") 1); reflexivity.
Defined.

(** * The models *)

(** X16: [load_models] never drops or replaces a model that is loaded:
    a handle that is there before the call is the handle after it,
    whatever the libraries would do; once both are there the call
    changes nothing. *)
Theorem load_models_keeps (W P : Type) (l : model_libs W P) (g : models W P) :
  (forall m, whisper_model g = Some m -> whisper_model (load_models l g) = Some m)
  /\ (forall p, summarizer_pipeline g = Some p ->
        summarizer_pipeline (load_models l g) = Some p)
  /\ (forall m p, whisper_model g = Some m -> summarizer_pipeline g = Some p ->
        load_models l g = g).
Proof.
  unfold load_models. split; [|split].
  - intros m Hm. rewrite Hm.
    destruct (summarizer_pipeline g); [exact Hm|].
    destruct (load_summarizer l); cbn [whisper_model]; exact Hm.
  - intros p Hp. destruct (whisper_model g) as [m|].
    + now rewrite Hp.
    + destruct (load_whisper l) as [m|e]; [|exact Hp].
      cbn [summarizer_pipeline]. now rewrite Hp.
  - intros m p Hm Hp. now rewrite Hm, Hp.
Qed.

(** X17: the two models are loaded under one [try], Whisper first: while
    Whisper is missing and cannot be loaded, [load_models] changes
    nothing, so the summarizer is never loaded even where it could be;
    [transcribe_audio] then answers with its fixed sentence and
    [summarize_text] answers every text of 50 characters or more with its
    fallback. *)
Theorem load_models_whisper_first (W P : Type) (l : model_libs W P) (g : models W P)
    (audio_path text : pystr) (e : exn) :
  whisper_model g = None -> load_whisper l = Raise e ->
  load_models l g = g
  /\ transcribe_stage l audio_path g = (lit "Не удалось понять тебя, родной", g)
  /\ (summarizer_pipeline g = None -> (50 <= length text)%nat ->
      summarize_stage l text g
      = (if (100 <? length text)%nat then firstn 100 text ++ lit "..." else text, g)).
Proof.
  intros Hw Hl.
  assert (E : load_models l g = g) by (unfold load_models; now rewrite Hw, Hl).
  split; [exact E|]. split.
  - unfold transcribe_stage. rewrite E. unfold transcribe_audio, whisper_call.
    now rewrite Hw.
  - intros Hs H50. unfold summarize_stage. rewrite E.
    unfold summarize_text, summarizer_call. rewrite Hs.
    destruct (Nat.ltb_spec (length text) 50) as [H|_]; [lia | reflexivity].
Qed.

Lemma load_models_whisper_first_witness :
  load_models no_whisper_libs nothing_loaded = nothing_loaded
  /\ transcribe_stage no_whisper_libs (lit "audio/f.ogg") nothing_loaded
     = (lit "Не удалось понять тебя, родной", nothing_loaded)
  /\ (summarizer_pipeline nothing_loaded = None -> (50 <= length (repeat 97 60))%nat ->
      summarize_stage no_whisper_libs (repeat 97 60) nothing_loaded
      = (if (100 <? length (repeat 97 60))%nat
         then firstn 100 (repeat 97 60) ++ lit "..." else repeat 97 60,
         nothing_loaded)).
Proof.
  apply (load_models_whisper_first unit unit no_whisper_libs nothing_loaded
           (lit "audio/f.ogg") (repeat 97 60) ExternalError); reflexivity.
Defined.

(** * The report document *)

Lemma is_infix_cons (p : pystr) (c : Z) (s : pystr) :
  is_infix p (c :: s) = false -> is_prefix p (c :: s) = false /\ is_infix p s = false.
Proof. cbn [is_infix]. intros H. now apply orb_false_iff in H. Qed.

(** Nothing to replace, nothing changed. *)
Lemma py_replace_absent (old new s : pystr) :
  is_infix old s = false -> py_replace old new s = s.
Proof.
  unfold py_replace. induction s as [|c s IH]; [reflexivity|].
  intros H. apply is_infix_cons in H as [Hp Hi]. cbn [replace_from].
  rewrite Hp. now rewrite IH.
Qed.

Lemma fill_paragraph_plain (env : docx_env) (summary_text : pystr) (i : nat)
    (text : pystr) :
  is_infix (lit "[SUMMARY_TEXT]") text = false -> is_infix (lit "[DATE]") text = false ->
  fill_paragraph env summary_text i text = Ok text.
Proof.
  intros H1 H2. unfold fill_paragraph. rewrite H1. cbn [obind]. now rewrite H2.
Qed.

Lemma fill_paragraphs_spec (env : docx_env) (summary_text : pystr)
    (doc : list pystr) :
  forall (i : nat) (doc' : list pystr),
    fill_paragraphs env summary_text i doc = Ok doc' ->
    length doc' = length doc
    /\ forall k text, nth_error doc k = Some text ->
         exists text', nth_error doc' k = Some text'
           /\ fill_paragraph env summary_text (i + k) text = Ok text'.
Proof.
  induction doc as [|t doc IH]; intros i doc'; cbn [fill_paragraphs].
  - intros [= <-]. split; [reflexivity|]. intros [|k] text; discriminate.
  - destruct (fill_paragraph env summary_text i t) as [t'|e] eqn:Et; [|discriminate].
    cbn [obind].
    destruct (fill_paragraphs env summary_text (S i) doc) as [r|e] eqn:Er; [|discriminate].
    cbn [obind]. intros [= <-]. destruct (IH (S i) r Er) as [Hlen Hnth].
    split; [cbn [length]; now rewrite Hlen|].
    intros [|k] text; cbn [nth_error].
    + intros [= <-]. exists t'. split; [reflexivity|]. now rewrite Nat.add_0_r.
    + intros Hk. destruct (Hnth k text Hk) as (text' & H1 & H2).
      exists text'. split; [exact H1|]. now rewrite Nat.add_succ_r.
Qed.



Lemma py_replace_whole (old new : pystr) :
  old <> [] -> py_replace old new old = new.
Proof.
  intros Hne. unfold py_replace. destruct old as [|c old]; [contradiction|].
  cbn [replace_from].
  assert (Hp : forall s : pystr, is_prefix s s = true).
  { induction s as [|x s IH]; cbn [is_prefix]; [reflexivity|].
    now rewrite Z.eqb_refl, IH. }
  rewrite (Hp (c :: old)). cbn [length Nat.sub]. rewrite Nat.sub_0_r.
  assert (Hs : forall (s : pystr) (n : nat),
             (length s <= n)%nat -> replace_from n (c :: old) new s = []).
  { induction s as [|x s IH]; intros n Hn; [reflexivity|].
    cbn [replace_from]. destruct n as [|n]; [cbn [length] in Hn; lia|].
    apply IH. cbn [length] in Hn. lia. }
  rewrite (Hs old (length old) (Nat.le_refl _)). apply app_nil_r.
Qed.

Lemma date_line_filled (date : pystr) :
  py_replace (lit "[DATE]") date (lit "Дата создания: [DATE]")
  = lit "Дата создания: " ++ date.
Proof.
  assert (E : lit "Дата создания: [DATE]" = lit "Дата создания: " ++ lit "[DATE]")
    by reflexivity.
  rewrite E. clear E.
  assert (H : forall pre : pystr,
             is_infix (lit "[DATE]") pre = false ->
             existsb (Z.eqb 91) pre = false ->
             py_replace (lit "[DATE]") date (pre ++ lit "[DATE]") = pre ++ date).
  { induction pre as [|c pre IH]; intros Hi Hb.
    - apply py_replace_whole. discriminate.
    - cbn [existsb] in Hb. apply orb_false_iff in Hb as [Hc Hb].
      apply is_infix_cons in Hi as [_ Hi]. unfold py_replace in *.
      cbn [List.app replace_from].
      assert (Hp : is_prefix (lit "[DATE]") (c :: pre ++ lit "[DATE]") = false).
      { change (lit "[DATE]") with (91 :: lit "DATE]") at 1. cbn [is_prefix].
        now rewrite Hc. }
      rewrite Hp. f_equal. now apply IH. }
  apply H; reflexivity.
Qed.

(** X19: with the template the program writes for itself, the report
    holds the heading, the date line with the date in it, the contents
    line and the summary; a [[DATE]] inside the summary is replaced by
    the date as well, and a summary without one is written as it is. *)
Theorem generate_docx_default (env : docx_env) (summary_text output_path : pystr) :
  let date_line := lit "Дата создания: " ++ date_at env 1 in
  let body := py_replace (lit "[DATE]") (date_at env 3) summary_text in
  let report := [lit "Отчет по аудиозаписи"; date_line; lit "Содержание:"; body] in
  open_document env TEMPLATE_PATH = Ok default_template ->
  set_text env date_line = Ok date_line ->
  set_text env summary_text = Ok summary_text ->
  set_text env body = Ok body ->
  save_document env report output_path = Ok tt ->
  generate_docx env summary_text output_path = Ok report
  /\ (is_infix (lit "[DATE]") summary_text = false -> body = summary_text).
Proof.
  intros date_line body report Ho Hd Hs Hb Hsave.
  split; [|intros H; now apply py_replace_absent].
  unfold generate_docx. rewrite Ho. cbn [obind].
  assert (Hf : fill_paragraphs env summary_text 0 default_template = Ok report).
  { unfold default_template. cbn [fill_paragraphs].
    rewrite (fill_paragraph_plain env summary_text 0 (lit "Отчет по аудиозаписи"))
      by reflexivity.
    cbn [obind].
    assert (E1 : fill_paragraph env summary_text 1 (lit "Дата создания: [DATE]")
                 = Ok date_line).
    { unfold fill_paragraph.
      assert (E : is_infix (lit "[SUMMARY_TEXT]") (lit "Дата создания: [DATE]") = false)
        by reflexivity.
      rewrite E. cbn [obind].
      assert (E' : is_infix (lit "[DATE]") (lit "Дата создания: [DATE]") = true)
        by reflexivity.
      rewrite E', date_line_filled. exact Hd. }
    rewrite E1. cbn [obind].
    rewrite (fill_paragraph_plain env summary_text 2 (lit "Содержание:")) by reflexivity.
    cbn [obind].
    assert (E3 : fill_paragraph env summary_text 3 (lit "[SUMMARY_TEXT]") = Ok body).
    { unfold fill_paragraph.
      assert (E : is_infix (lit "[SUMMARY_TEXT]") (lit "[SUMMARY_TEXT]") = true)
        by reflexivity.
      rewrite E, py_replace_whole by discriminate. rewrite Hs. cbn [obind].
      destruct (is_infix (lit "[DATE]") summary_text) eqn:Ei; [exact Hb|].
      unfold body. now rewrite py_replace_absent. }
    rewrite E3. reflexivity. }
  rewrite Hf. cbn [obind]. now rewrite Hsave.
Qed.

Lemma generate_docx_default_witness :
  generate_docx plain_docx_env (lit "встреча [DATE]") (lit "audio/report_42.docx")
  = Ok [lit "Отчет по аудиозаписи"; lit "Дата создания: 03.11.2026 13:00";
        lit "Содержание:"; lit "встреча 03.11.2026 13:00"]
  /\ (is_infix (lit "[DATE]") (lit "встреча [DATE]") = false ->
      lit "встреча 03.11.2026 13:00" = lit "встреча [DATE]").
Proof.
  apply (generate_docx_default plain_docx_env (lit "встреча [DATE]")
           (lit "audio/report_42.docx")); reflexivity.
Defined.

(** X20: when the template cannot be opened, [generate_docx] falls back
    on a document of its own: the heading, a date line and the summary as
    it was given, with no placeholder looked for. *)
Theorem generate_docx_no_template (env : docx_env) (summary_text output_path : pystr)
    (e : exn) :
  let report := [lit "Отчет"; lit "Дата: " ++ date_late env; summary_text] in
  open_document env TEMPLATE_PATH = Raise e ->
  set_text env (lit "Отчет") = Ok (lit "Отчет") ->
  set_text env (lit "Дата: " ++ date_late env) = Ok (lit "Дата: " ++ date_late env) ->
  set_text env summary_text = Ok summary_text ->
  save_document env report output_path = Ok tt ->
  generate_docx env summary_text output_path = Ok report.
Proof.
  intros report Ho Hh Hd Hs Hsave. unfold generate_docx, plain_report.
  rewrite Ho. cbn [obind]. rewrite Hh. cbn [obind]. rewrite Hd. cbn [obind].
  rewrite Hs. cbn [obind]. unfold report, pystr in *. now rewrite Hsave.
Qed.

Lemma generate_docx_no_template_witness :
  generate_docx no_template_env (lit "встреча [DATE]") (lit "audio/report_42.docx")
  = Ok [lit "Отчет"; lit "Дата: 03.11.2026 13:00"; lit "встреча [DATE]"].
Proof.
  apply (generate_docx_no_template no_template_env (lit "встреча [DATE]")
           (lit "audio/report_42.docx") ExternalError); reflexivity.
Defined.

(** X21: [generate_docx] can raise: a summary that python-docx refuses
    fails a template with a paragraph for the summary (the program's own
    has one) and then the fallback too, which writes the same text, so
    an exception leaves the function and no document is written. *)
Theorem generate_docx_refused (env : docx_env) (summary_text output_path : pystr)
    (doc : list pystr) (e : exn) :
  open_document env TEMPLATE_PATH = Ok doc ->
  In (lit "[SUMMARY_TEXT]") doc ->
  set_text env summary_text = Raise e ->
  exists e', generate_docx env summary_text output_path = Raise e'.
Proof.
  intros Ho Hin Hs.
  assert (Hp : exists e', plain_report env summary_text output_path = Raise e').
  { unfold plain_report.
    destruct (set_text env (lit "Отчет")) as [h|e1]; [|now exists e1]. cbn [obind].
    destruct (set_text env (lit "Дата: " ++ date_late env)) as [t|e2]; [|now exists e2].
    cbn [obind]. rewrite Hs. now exists e. }
  unfold generate_docx. rewrite Ho. cbn [obind].
  destruct (fill_paragraphs env summary_text 0 doc) as [doc'|e1] eqn:Hf; [|exact Hp].
  exfalso. apply In_nth_error in Hin as [k Hk].
  destruct (fill_paragraphs_spec env summary_text doc 0 doc' Hf) as [_ Hnth].
  destruct (Hnth k _ Hk) as (text' & _ & Ht). unfold fill_paragraph in Ht.
  assert (E : is_infix (lit "[SUMMARY_TEXT]") (lit "[SUMMARY_TEXT]") = true)
    by reflexivity.
  rewrite E, py_replace_whole, Hs in Ht by discriminate. discriminate.
Qed.

Lemma generate_docx_refused_witness :
  exists e',
    generate_docx strict_docx_env (12 :: lit "итог") (lit "audio/report_42.docx")
    = Raise e'.
Proof.
  apply (generate_docx_refused strict_docx_env (12 :: lit "итог")
           (lit "audio/report_42.docx") default_template ExternalError).
  - reflexivity.
  - right. right. right. left. reflexivity.
  - reflexivity.
Defined.

(** * Choosing a record and editing its summary *)

Lemma uint_chars_digits (u : uint) : Forall (fun c => digit c = true) (uint_chars u).
Proof. induction u; cbn [uint_chars]; constructor; auto. Qed.

Lemma py_split_whole (sep : Z) (s : pystr) :
  Forall (fun c => c <> sep) s -> py_split sep s = [s].
Proof.
  induction 1 as [|c s Hc _ IH]; [reflexivity|]. cbn [py_split].
  destruct (Z.eqb_spec c sep); [contradiction|]. now rewrite IH.
Qed.

Lemma intstr_chars (z : Z) :
  Forall (fun c => digit c = true \/ c = 45) (intstr z).
Proof.
  unfold intstr. destruct (Z.to_int z) as [u|u]; [|constructor; [now right|]];
    (eapply Forall_impl; [|apply uint_chars_digits]); intros c Hc; now left.
Qed.

Lemma py_split_select (z : Z) :
  nth_error (py_split 95 (lit "select_" ++ intstr z)) 1 = Some (intstr z).
Proof.
  assert (H : py_split 95 (intstr z) = [intstr z]).
  { apply py_split_whole. eapply Forall_impl; [|apply intstr_chars].
    intros c [Hc| ->]; [|discriminate]. unfold digit in Hc. lia. }
  eval_lits. cbn [List.app py_split Z.eqb Pos.eqb]. now rewrite H.
Qed.

Lemma skip_c_space_none (s : pystr) :
  Forall (fun c => c_space c = false) s -> skip_c_space s = s.
Proof. intros [|c s' Hc _]; [reflexivity|]. cbn [skip_c_space]. now rewrite Hc. Qed.

Lemma grouped_digits_all (s : pystr) (b : bool) :
  Forall (fun c => digit c = true) s -> s <> [] \/ b = true ->
  grouped_digits b s = Some s.
Proof.
  intros H. revert b. induction H as [|c s Hc _ IH]; intros b Hb.
  - destruct Hb as [Hb| ->]; [contradiction | reflexivity].
  - cbn [grouped_digits]. rewrite Hc. rewrite (IH true) by now right. reflexivity.
Qed.

(** [int(str(z))] is [z]. *)
Lemma py_int_intstr (z : Z) : py_int (intstr z) = IntOf z.
Proof.
  pose proof (intstr_chars z) as Hc. unfold py_int.
  assert (Ha : forallb (fun c => (0 <=? c) && (c <? 128)) (intstr z) = true).
  { apply forallb_forall. rewrite Forall_forall in Hc. intros c Hin.
    destruct (Hc c Hin) as [H| ->]; [|reflexivity]. unfold digit in H. lia. }
  rewrite Ha. cbn [negb].
  assert (Hs : Forall (fun c => c_space c = false) (intstr z)).
  { eapply Forall_impl; [|exact Hc]. intros c [H| ->]; [|reflexivity].
    unfold digit in H. unfold c_space. lia. }
  rewrite (skip_c_space_none _ Hs).
  rewrite (skip_c_space_none _ (Forall_rev Hs)), rev_involutive.
  clear Hc Ha Hs. unfold intstr.
  assert (Hd : forall u, u <> Nil ->
             grouped_digits false (uint_chars u) = Some (uint_chars u)).
  { intros u Hu. apply grouped_digits_all; [apply uint_chars_digits|].
    left. destruct u; cbn [uint_chars]; (contradiction || discriminate). }
  assert (Hsc : forall u, scan_digits (uint_chars u) = (u, [])).
  { intros u. rewrite <- (app_nil_r (uint_chars u)). now apply scan_digits_uint. }
  destruct z as [|p|p]; cbn [Z.to_int].
  - reflexivity.
  - destruct (to_uint_head p) as (c & t & E & Hc & H48 & H45).
    assert (Hn : Pos.to_uint p <> Nil) by (intros N; rewrite N in E; discriminate).
    rewrite E. destruct (Z.eqb_spec c 45); [contradiction|].
    assert (H43 : (c =? 43) = false) by (unfold digit in Hc; lia).
    rewrite H43. cbn [orb]. rewrite <- E, (Hd _ Hn), Hsc. cbn [fst].
    change (Z.of_int (Pos (Pos.to_uint p))) with (Z.of_int (Z.to_int (Z.pos p))).
    now rewrite DecimalZ.of_to.
  - assert (Hn : Pos.to_uint p <> Nil).
    { destruct (to_uint_head p) as (c & t & E & _). intros N. rewrite N in E.
      discriminate. }
    cbn [Z.eqb Pos.eqb orb tl]. rewrite (Hd _ Hn), Hsc. cbn [fst].
    change (Z.of_int (Neg (Pos.to_uint p))) with (Z.of_int (Z.to_int (Z.neg p))).
    now rewrite DecimalZ.of_to.
Qed.

Lemma find_first_In (rs : list record) (r : record) :
  In r rs -> exists r0, find_first rs (rec_id r) = Some r0 /\ rec_id r0 = rec_id r.
Proof.
  induction rs as [|q rs IH]; [contradiction|]. cbn [In find_first].
  destruct (Z.eqb_spec (rec_id q) (rec_id r)) as [E|E]; [now exists q|].
  intros [->|H]; [contradiction | now apply IH].
Qed.

Lemma find_first_NoDup (rs : list record) (r r0 : record) :
  NoDup (map rec_id rs) -> In r rs -> find_first rs (rec_id r) = Some r0 -> r0 = r.
Proof.
  induction rs as [|q rs IH]; [contradiction|]. cbn [map In find_first].
  intros Hn Hin. inversion Hn as [|? ? Hq Hn']; subst.
  destruct (Z.eqb_spec (rec_id q) (rec_id r)) as [E|E].
  - intros [= <-]. destruct Hin as [H|H]; [exact H|].
    exfalso. apply Hq. rewrite E. now apply in_map.
  - destruct Hin as [->|H]; [contradiction | now apply IH].
Qed.

(** X22: called with the callback data that the listing put on the
    button of a stored record, [select_record] selects, by the id in that
    data, the first record of the user with that id: it shows the first
    100 characters of its raw text and its summary, keeps the id in the
    session and moves on to editing, without writing the file.  It is the
    record of the button when the ids of the user are distinct.  (Which
    presses the dispatcher hands to [select_record] is not modelled.) *)
Theorem select_record_button (fmt : pystr -> outcome pystr) (d : disk) (st : store)
    (uid : Z) (r : record) (label data : pystr) (ud : session) :
  holds d st -> In r (user_records st uid) ->
  record_button fmt (encode_record r) = Ok (label, data) ->
  exists r0,
    find_first (user_records st uid) (rec_id r) = Some r0
    /\ select_record data uid ud d
       = (Done (RecordChosen (firstn 100 (raw_text r0)) (summary_text r0),
                EDITING_SUMMARY),
          {| selected_record_id := Some (rec_id r);
             current_summary := Some (PStr (summary_text r0)) |},
          d)
    /\ (NoDup (map rec_id (user_records st uid)) -> r0 = r).
Proof.
  intros Hd Hin Hb. destruct (find_first_In _ _ Hin) as (r0 & Hf & Hid).
  exists r0. split; [exact Hf|]. split; [|intros Hn; now apply (find_first_NoDup _ _ _ Hn Hin)].
  assert (E : data = lit "select_" ++ intstr (rec_id r)).
  { unfold record_button in Hb.
    change (getitem (encode_record r) (lit "created_at"))
      with (Ok (A:=pyval) (PStr (created_at r))) in Hb.
    cbn [obind] in Hb. destruct (fmt (created_at r)); [|discriminate].
    cbn in Hb. now injection Hb as _ <-. }
  subst data. unfold select_record.
  rewrite py_split_select, py_int_intstr.
  rewrite (get_record_by_id_ok d st uid (rec_id r) Hd), Hf. reflexivity.
Qed.

Lemma select_record_button_witness :
  exists r0,
    find_first (user_records sample_store 7) (rec_id sample_record) = Some r0
    /\ select_record (lit "select_42") 7 cleared sample_disk
       = (Done (RecordChosen (firstn 100 (raw_text r0)) (summary_text r0),
                EDITING_SUMMARY),
          {| selected_record_id := Some (rec_id sample_record);
             current_summary := Some (PStr (summary_text r0)) |},
          sample_disk)
    /\ (NoDup (map rec_id (user_records sample_store 7)) -> r0 = sample_record).
Proof.
  apply (select_record_button (fun s => Ok (firstn 5 s)) sample_disk sample_store 7
           sample_record (lit "2024- — old...") (lit "select_42") cleared sample_holds).
  - left. reflexivity.
  - reflexivity.
Defined.

(** X23: [select_record] never writes the file, and it touches the
    session only when it has found a record: whatever the callback data,
    either the session is as before or the id it now holds is the id of a
    record that [get_record_by_id] returns for this user. *)
Theorem select_record_safe (data : pystr) (uid : Z) (ud : session) (d : disk) :
  snd (select_record data uid ud d) = d
  /\ (snd (fst (select_record data uid ud d)) = ud
      \/ exists rid rec,
           selected_record_id (snd (fst (select_record data uid ud d))) = Some rid
           /\ get_record_by_id uid rid d = (Ok rec, d)
           /\ truthy rec = true).
Proof.
  unfold select_record.
  destruct (nth_error (py_split 95 data) 1) as [piece|]; [|split; [reflexivity | now left]].
  destruct (py_int piece) as [rid| |]; try (split; [reflexivity | now left]).
  pose proof (get_record_by_id_reads uid rid d) as Hr.
  destruct (get_record_by_id uid rid d) as [[rec|e] d'] eqn:Hg; cbn [snd] in Hr; subst d';
    [|split; [reflexivity | now left]].
  destruct (truthy rec) eqn:Ht; cbn [negb]; [|split; [reflexivity | now left]].
  assert (Hright : forall s, selected_record_id s = Some rid ->
            exists rid0 rec0, selected_record_id s = Some rid0
              /\ get_record_by_id uid rid0 d = (Ok rec0, d) /\ truthy rec0 = true).
  { intros s Hs. now exists rid, rec. }
  destruct (getitem rec (lit "summary_text")) as [summary|e];
    [|split; [reflexivity | right; cbn [fst snd]; now apply Hright]].
  destruct (getitem rec (lit "raw_text")) as [raw|e]; cbn [obind];
    [|split; [reflexivity | right; cbn [fst snd]; now apply Hright]].
  destruct (head100 raw) as [h|e]; cbn [obind];
    [|split; [reflexivity | right; cbn [fst snd]; now apply Hright]].
  destruct (format_value summary) as [f|e]; cbn [obind];
    split; try reflexivity; right; cbn [fst snd]; now apply Hright.
Qed.

Lemma lstrip_valid (s : pystr) : valid_text s -> valid_text (lstrip s).
Proof.
  induction 1 as [|c s Hc Hs IH]; [constructor|]. cbn [lstrip].
  destruct (is_space c); [exact IH | now constructor].
Qed.

Lemma py_strip_valid (s : pystr) : valid_text s -> valid_text (py_strip s).
Proof.
  intros H. unfold py_strip, valid_text. apply Forall_rev. apply lstrip_valid.
  apply Forall_rev. now apply lstrip_valid.
Qed.

(** X24: [edit_summary] writes the store before it builds the document.
    On a well-formed store (every string Unicode text), for a user of the
    store, a chosen record id other than 0 and a message that is Unicode
    text, the message text without the white space at its ends replaces
    the summary of the first record of that id, whatever happens
    afterwards; when the document is built and sent the session is
    cleared, and when that fails the exception leaves the handler with
    the summary already replaced and the record still chosen. *)
Theorem edit_summary_selected (env : edit_env) (text : pystr) (uid rid : Z)
    (ud : session) (d : disk) (st : store) (u : user) :
  holds d st -> valid_store st -> valid_text text ->
  selected_record_id ud = Some rid -> rid <> 0 ->
  lookup_user st (intstr uid) = Some u ->
  let new_summary := py_strip text in
  let output_path := lit "audio/report_" ++ intstr rid ++ lit ".docx" in
  let after := edit_summary env text uid ud d in
  holds (snd after)
    (set_user st (intstr uid)
       (with_records u (replace_first (records u) rid new_summary)))
  /\ match (doc <~ generate_docx (docx env) new_summary output_path ;;
            _ <~ send_document env output_path doc ;;
            Ok doc) with
     | Ok doc =>
         snd (fst after) = cleared
         /\ (send_done env = Ok tt -> fst (fst after) = Ok (DocumentSent doc, END))
     | Raise e =>
         fst (fst after) = Raise e
         /\ snd (fst after)
            = {| selected_record_id := Some rid;
                 current_summary := Some (PStr new_summary) |}
     end.
Proof.
  intros Hd Hv Ht Hsel Hrid Hu new_summary output_path after.
  destruct (update_summary_text_ok d st uid rid u new_summary Hd Hv
              (py_strip_valid text Ht) Hu) as (d' & Hup & Hd').
  assert (Ep : path_join AUDIO_DIR (lit "report_" ++ intstr rid ++ lit ".docx")
               = output_path) by reflexivity.
  unfold after, edit_summary. rewrite Hsel.
  destruct (Z.eqb_spec rid 0) as [|_]; [contradiction|].
  fold new_summary. rewrite Hup, Ep.
  destruct (doc <~ generate_docx (docx env) new_summary output_path ;;
            _ <~ send_document env output_path doc ;; Ok doc) as [doc|e].
  - destruct (send_done env) as [[]|e]; cbn [fst snd];
      (split; [exact Hd'|]); (split; [reflexivity|]); [reflexivity | discriminate].
  - cbn [fst snd]. split; [exact Hd'|]. now split.
Qed.

Lemma edit_summary_selected_witness :
  let new_summary := py_strip (lit "  new text ") in
  let output_path := lit "audio/report_" ++ intstr 42 ++ lit ".docx" in
  let after := edit_summary unsent_env (lit "  new text ") 7 (chosen 42) sample_disk in
  holds (snd after)
    (set_user sample_store (intstr 7)
       (with_records {| username := Some (lit "ann"); records := [sample_record] |}
          (replace_first [sample_record] 42 new_summary)))
  /\ match (doc <~ generate_docx (docx unsent_env) new_summary output_path ;;
            _ <~ send_document unsent_env output_path doc ;;
            Ok doc) with
     | Ok doc =>
         snd (fst after) = cleared
         /\ (send_done unsent_env = Ok tt -> fst (fst after) = Ok (DocumentSent doc, END))
     | Raise e =>
         fst (fst after) = Raise e
         /\ snd (fst after)
            = {| selected_record_id := Some 42;
                 current_summary := Some (PStr new_summary) |}
     end.
Proof.
  apply (edit_summary_selected unsent_env (lit "  new text ") 7 42 (chosen 42)
           sample_disk sample_store
           {| username := Some (lit "ann"); records := [sample_record] |}
           sample_holds sample_valid).
  - apply forallb_valid. reflexivity.
  - reflexivity.
  - discriminate.
  - reflexivity.
Defined.

(** X25: with no record chosen, [edit_summary] answers that nothing is
    selected and ends the conversation, leaving the store and the session
    as they are; that is so in a fresh session, after [cancel], and also
    when the chosen id is 0, which the handler takes for none. *)
Theorem edit_summary_nothing_chosen (env : edit_env) (text : pystr) (uid : Z)
    (ud : session) (d : disk) :
  selected_record_id ud = None \/ selected_record_id ud = Some 0 ->
  edit_summary env text uid ud d = (Ok (NothingSelected, END), ud, d).
Proof. intros [H|H]; unfold edit_summary; now rewrite H. Qed.

Lemma edit_summary_nothing_chosen_witness :
  edit_summary unsent_env (lit "new text") 7 (fst (cancel (chosen 42))) sample_disk
  = (Ok (NothingSelected, END), fst (cancel (chosen 42)), sample_disk).
Proof.
  apply (edit_summary_nothing_chosen unsent_env (lit "new text") 7
           (fst (cancel (chosen 42))) sample_disk).
  left. reflexivity.
Defined.
